(** * The Rubber Hose: the bulk-operation executor of [main.py]

    A shallow embedding of [ServerCleanup] (src/main.py) and the properties
    of its retry loops, permit pools, pacing, role selection and
    provisioning phases.

    Conventions of the embedding.
    - A coroutine of the source is a function into the writer monad [W]:
      it returns the coroutine's result together with the events it
      performed, in program order.
    - The remote service is the environment.  A remote call made at attempt
      index [n] of one coroutine invocation is answered by [api n], where
      [api : nat -> reply A] is an argument of the embedded function.
    - Sleep durations are kept as the expressions of the source ([delay]),
      with [random.uniform] left unsampled.
    - The pipeline coroutines live in the monad [P], a writer over
      pipeline events in which a remote call of the pipeline itself may
      raise; one [asyncio.gather] is one event holding the runs of its
      tasks. *)

From Stdlib Require Import List ZArith QArith Bool String Ascii Lia Arith.
From Stdlib Require Import Permutation Sorted DecimalString.
Import ListNotations.

#[local] Close Scope Q_scope.
#[local] Open Scope string_scope.
#[local] Open Scope list_scope.
#[local] Open Scope nat_scope.

(** ** Remote calls *)

(** What a remote call can raise: [discord.HTTPException] with its [status]
    (and the [retry_after] attribute when the object has one), or any other
    [Exception]. *)
Inductive exn : Type :=
| HTTPException (status : Z) (retry_after : option Q)
| OtherException.

Inductive reply (A : Type) : Type :=
| Returns (a : A)
| Raises (e : exn).
Arguments Returns {A} a.
Arguments Raises {A} e.

(** [getattr(e, 'retry_after', default)] *)
Definition getattr_retry_after (retry_after : option Q) (default : Q) : Q :=
  match retry_after with
  | Some r => r
  | None => default
  end.

(** [e.status in [500, 502, 503, 504]] *)
Definition server_error (status : Z) : bool :=
  existsb (Z.eqb status) [500; 502; 503; 504]%Z.

(** ** Events *)

(** The three [asyncio.Semaphore]s created by [ServerCleanup.__init__]. *)
Inductive sem : Type :=
| semaphore
| channel_semaphore
| message_semaphore.

(** [asyncio.Semaphore(10)], [asyncio.Semaphore(30)], [asyncio.Semaphore(50)] *)
Definition capacity (s : sem) : nat :=
  match s with
  | semaphore => 10
  | channel_semaphore => 30
  | message_semaphore => 50
  end.

Inductive op_class : Type := Delete | Create | Send.

(** The permit pool each operation class goes through. *)
Definition gate (c : op_class) : sem :=
  match c with
  | Delete => semaphore
  | Create => channel_semaphore
  | Send => message_semaphore
  end.

(** Arguments of [asyncio.sleep], as written in the source. *)
Inductive delay : Type :=
| RetryAfter (retry_after : Q)
    (* asyncio.sleep(retry_after) *)
| RetryFloor
    (* asyncio.sleep(0.5) *)
| ScaledHint (retry_after scale jitter_low jitter_high : Q)
    (* retry_after * scale + random.uniform(jitter_low, jitter_high) *)
| Backoff (base : Q) (attempt : nat) (jitter_high : Q)
    (* base ** attempt + random.uniform(0, jitter_high) *)
| Uniform (low high : Q)
    (* random.uniform(low, high) *)
| Seconds (s : Q).

Inductive level : Type := INFO | WARNING | ERROR.

(** The log lines of the task coroutines, by template. *)
Inductive message : Type :=
| Deleted (item_type name : string)
| AlreadyDeleted (item_type name : string)
| RateLimitedLog (retry_after : Q)
| RateLimitedWaiting (name : string) (attempt : option nat)
| ServerErrorRetrying (name : string)
| FailedTo (c : op_class) (name : string) (e : exn)
| UnexpectedError (c : op_class) (name : string)
| CreatedChannel (name : string) (batch_id : nat)
| SentMessage (msg_num : nat) (name : string) (wave : nat)
| FailedAfter (c : op_class) (name : string) (max_retries : nat).

Inductive event : Type :=
| Acquire (s : sem)                   (* entering [async with s] *)
| Release (s : sem)                   (* leaving it, normally or by exception *)
| SmartDelay (operation_type : string) (* [await self.smart_delay(...)] *)
| Call (c : op_class) (target : string) (attempt : nat) (raised : option exn)
                                      (* one remote call and how it ended *)
| Sleep (d : delay)
| Log (l : level) (m : message).

Definition trace : Type := list event.

(** ** The writer monad of task coroutines *)

Definition W (A : Type) : Type := (A * trace)%type.

Definition ret {A} (a : A) : W A := (a, []).

Definition bind {A B} (m : W A) (k : A -> W B) : W B :=
  let (a, t) := m in
  let (b, t') := k a in
  (b, t ++ t').

Definition emit (e : event) : W unit := (tt, [e]).

Declare Scope w_scope.
Delimit Scope w_scope with W.
Notation "x <- m ;; k" := (bind m (fun x => k))
  (at level 61, m at next level, right associativity) : w_scope.
Notation "m ;; k" := (bind m (fun _ => k))
  (at level 61, right associativity) : w_scope.
#[local] Open Scope w_scope.

Definition result {A} (m : W A) : A := fst m.
Definition events {A} (m : W A) : trace := snd m.

(** ** Resources *)

(** The resources share only "has a name, can be deleted". *)
Class Named (A : Type) : Type := display_name : A -> string.

Record Role : Type := {
  role_id : Z;
  role_name : string;
  managed : bool;
  position : Z
}.

Record GuildChannel : Type := {
  channel_name : string;
  is_category : bool       (* isinstance(ch, discord.CategoryChannel) *)
}.

Record Emoji : Type := { emoji_name : string }.
Record Webhook : Type := { webhook_name : string }.

(** The object returned by [guild.create_text_channel]. *)
Record TextChannel : Type := { name : string }.

#[export] Instance Named_Role : Named Role := role_name.
#[export] Instance Named_GuildChannel : Named GuildChannel := channel_name.
#[export] Instance Named_Emoji : Named Emoji := emoji_name.
#[export] Instance Named_Webhook : Named Webhook := webhook_name.
#[export] Instance Named_TextChannel : Named TextChannel := name.

(** ** [ServerCleanup.delete_with_retry] *)

Section DeleteWithRetry.
Context {A : Type} `{Named A}.
Variable item : A.
Variable item_type : string.
Variable api : nat -> reply unit.
Variable max_retries : nat.

(** The body of [for attempt in range(max_retries)], entered at index
    [attempt] with [remaining] iterations to go.  The loop body runs only
    when [max_retries >= 1], where [max_retries - 1] on [nat] is the
    integer of the source. *)
Fixpoint delete_attempts (remaining attempt : nat) : W bool :=
  match remaining with
  | O => ret false
  | S remaining' =>
      let next :=
        emit (Sleep RetryFloor) ;; delete_attempts remaining' (S attempt) in
      let last_attempt_or_next :=
        if attempt =? max_retries - 1 then ret false else next in
      emit (Acquire semaphore) ;;
      match api attempt with
      | Returns _ =>
          emit (Call Delete (display_name item) attempt None) ;;
          emit (Log INFO (Deleted item_type (display_name item))) ;;
          emit (Release semaphore) ;;
          ret true
      | Raises e =>
          emit (Call Delete (display_name item) attempt (Some e)) ;;
          emit (Release semaphore) ;;
          match e with
          | HTTPException status retry_after =>
              if (status =? 429)%Z then
                emit (Log WARNING
                        (RateLimitedLog (getattr_retry_after retry_after 1%Q))) ;;
                emit (Sleep (RetryAfter
                               (getattr_retry_after retry_after 1%Q))) ;;
                next
              else if (status =? 404)%Z then
                emit (Log INFO
                        (AlreadyDeleted item_type (display_name item))) ;;
                ret true
              else
                emit (Log ERROR (FailedTo Delete (display_name item) e)) ;;
                last_attempt_or_next
          | OtherException =>
              emit (Log ERROR (UnexpectedError Delete item_type)) ;;
              last_attempt_or_next
          end
      end
  end.

Definition delete_with_retry_from : W bool :=
  delete_attempts max_retries 0.
End DeleteWithRetry.

(** [delete_with_retry(item, item_type)] with the default [max_retries=3]. *)
Definition delete_with_retry {A} `{Named A}
    (item : A) (item_type : string) (api : nat -> reply unit) : W bool :=
  delete_with_retry_from item item_type api 3.

(** ** [ServerCleanup.create_single_channel] *)

Section CreateSingleChannel.
Variable channel_name_ : string.
Variable batch_id : nat.
Variable api : nat -> reply TextChannel.

Fixpoint create_attempts (max_retries remaining attempt : nat)
  : W (option TextChannel) :=
  match remaining with
  | O =>
      emit (Log ERROR (FailedAfter Create channel_name_ max_retries)) ;;
      ret None
  | S remaining' =>
      match api attempt with
      | Returns channel =>
          emit (Call Create channel_name_ attempt None) ;;
          emit (Log INFO (CreatedChannel (name channel) batch_id)) ;;
          ret (Some channel)
      | Raises e =>
          emit (Call Create channel_name_ attempt (Some e)) ;;
          match e with
          | HTTPException status retry_after =>
              if (status =? 429)%Z then
                emit (Log WARNING
                        (RateLimitedWaiting channel_name_ (Some (attempt + 1)))) ;;
                emit (Sleep (ScaledHint
                               (getattr_retry_after retry_after 1%Q)
                               1%Q (1 # 10)%Q (1 # 2)%Q)) ;;
                create_attempts max_retries remaining' (S attempt)
              else if server_error status then
                emit (Log WARNING (ServerErrorRetrying channel_name_)) ;;
                emit (Sleep (Backoff 2%Q attempt 1%Q)) ;;
                create_attempts max_retries remaining' (S attempt)
              else
                emit (Log ERROR (FailedTo Create channel_name_ e)) ;;
                ret None
          | OtherException =>
              emit (Log ERROR (UnexpectedError Create channel_name_)) ;;
              ret None
          end
      end
  end.

Definition create_single_channel : W (option TextChannel) :=
  emit (Acquire channel_semaphore) ;;
  emit (SmartDelay "channel") ;;
  r <- create_attempts 5 5 0 ;;
  emit (Release channel_semaphore) ;;
  ret r.
End CreateSingleChannel.

(** ** [ServerCleanup.send_message_to_channel] *)

Section SendMessageToChannel.
Variable channel : TextChannel.
Variable msg_num wave : nat.
Variable api : nat -> reply unit.

Fixpoint send_attempts (max_retries remaining attempt : nat) : W bool :=
  match remaining with
  | O =>
      emit (Log ERROR (FailedAfter Send (name channel) max_retries)) ;;
      ret false
  | S remaining' =>
      match api attempt with
      | Returns _ =>
          emit (Call Send (name channel) attempt None) ;;
          emit (Log INFO (SentMessage (msg_num + 1) (name channel) wave)) ;;
          ret true
      | Raises e =>
          emit (Call Send (name channel) attempt (Some e)) ;;
          match e with
          | HTTPException status retry_after =>
              if (status =? 429)%Z then
                emit (Log WARNING
                        (RateLimitedWaiting (name channel) None)) ;;
                emit (Sleep (ScaledHint
                               (getattr_retry_after retry_after (1 # 2)%Q)
                               (7 # 10)%Q (1 # 20)%Q (1 # 5)%Q)) ;;
                send_attempts max_retries remaining' (S attempt)
              else if server_error status then
                emit (Log WARNING (ServerErrorRetrying (name channel))) ;;
                emit (Sleep (Backoff (3 # 2)%Q attempt (3 # 10)%Q)) ;;
                send_attempts max_retries remaining' (S attempt)
              else
                emit (Log ERROR (FailedTo Send (name channel) e)) ;;
                ret false
          | OtherException =>
              emit (Log ERROR (UnexpectedError Send (name channel))) ;;
              ret false
          end
      end
  end.

Definition send_message : W bool :=
  emit (Acquire message_semaphore) ;;
  emit (SmartDelay "message") ;;
  r <- send_attempts 3 3 0 ;;
  emit (Release message_semaphore) ;;
  ret r.
End SendMessageToChannel.

(** The text sent is the same at every attempt and plays no part in the
    control flow. *)
Definition send_message_to_channel (channel : TextChannel)
    (message_content : string) (msg_num wave : nat)
    (api : nat -> reply unit) : W bool :=
  send_message channel msg_num wave api.

(** ** The guild *)

Record Guild : Type := {
  guild_id : Z;
  channels : list GuildChannel;
  roles : list Role;
  emojis : list Emoji;
  me_top_role : Role            (* self.guild.me.top_role *)
}.

(** [role < other] on two roles of the guild [guild_id], as discord.py's
    [Role.__lt__] orders them: the default role (whose id is the guild's)
    is below every other role; otherwise the lower position is below, and
    at equal positions the larger id is below. *)
Definition role_lt (guild_id : Z) (role other : Role) : bool :=
  if (role_id role =? guild_id)%Z then
    negb (role_id other =? guild_id)%Z
  else if (position role <? position other)%Z then true
  else if (position role =? position other)%Z then
    (role_id other <? role_id role)%Z
  else false.

(** The test of the loop in [delete_roles]. *)
Definition deletable_role (g : Guild) (role : Role) : bool :=
  negb (String.eqb (role_name role) "@everyone")
  && negb (managed role)
  && role_lt (guild_id g) role (me_top_role g).

(** [roles_to_delete.sort(key=lambda r: r.position, reverse=True)]:
    the stable sort by descending key, roles of equal position keeping
    their order. *)
Fixpoint insert_by_position (r : Role) (l : list Role) : list Role :=
  match l with
  | [] => [r]
  | r' :: l' =>
      if (position r <? position r')%Z
      then r' :: insert_by_position r l'
      else r :: r' :: l'
  end.

Definition sort_by_position_reverse (l : list Role) : list Role :=
  fold_right insert_by_position [] l.

(** The list [roles_to_delete] of [delete_roles], in the order in which
    the delete tasks are built. *)
Definition roles_to_delete (g : Guild) : list Role :=
  sort_by_position_reverse (filter (deletable_role g) (roles g)).

(** ** The pipeline: events, environment and monad *)

Inductive status_text : Type :=
| CleanupInitiated
| DeletingWebhooks
| DeletingEmojis
| DeletingRoles
| DeletingChannels
| ErrorDuringCleanup (e : exn).

Inductive pmessage : Type :=
| NoPermissionWebhooks
| CleanupCompleted
| ErrorDuringCleanupLog (e : exn)
| TurboMode
| CreatingChannels
| CreatingBatch (batch : nat) (size : nat)
| CreatedCount (n : nat)
| NoChannelsCreated
| TsunamiMode (n : nat)
| WaveStart (wave : nat) (n : nat)
| WaveDelay
| MissionAccomplished (n : nat)
| FloodingCompleted
| ErrorInTurboMode (e : exn).

(** Pipeline-level events.  [Gather c runs] is one
    [await asyncio.gather] (with [return_exceptions=True]) over tasks of
    class [c]: [runs] holds the events of each task, in the order of the
    task list.  The tasks of one gather run concurrently; their events are
    kept apart, not merged. *)
Inductive pevent : Type :=
| StatusSend (text : status_text) (raised : option exn)
| ListWebhooks (raised : option exn)
| Gather (c : op_class) (runs : list trace)
| PSleep (d : delay)
| PLog (l : level) (m : pmessage).

(** The environment of one pipeline run. *)
Record Env : Type := {
  guild : Guild;
  webhooks : reply (list Webhook);
      (* await self.guild.webhooks() *)
  status_send : status_text -> reply unit;
      (* await status_channel.send(text) *)
  delete_api : string -> nat -> nat -> reply unit;
      (* item type, index in the gathered list, attempt *)
  create_api : nat -> nat -> reply TextChannel;
      (* index in channels_to_create, attempt *)
  send_api : nat -> nat -> nat -> reply unit
      (* wave, index in all_channels, attempt *)
}.

(** Pipeline coroutines may raise: result or exception, with the events
    performed up to there. *)
Definition P (A : Type) : Type := (reply A * list pevent)%type.

Definition pret {A} (a : A) : P A := (Returns a, []).

Definition pbind {A B} (m : P A) (k : A -> P B) : P B :=
  match m with
  | (Returns a, t) => let (b, t') := k a in (b, t ++ t')
  | (Raises e, t) => (Raises e, t)
  end.

Definition pemit (e : pevent) : P unit := (Returns tt, [e]).

(** [try: m  except <handles>: handler] *)
Definition try_except {A} (m : P A) (handles : exn -> bool)
    (handler : exn -> P A) : P A :=
  match m with
  | (Returns a, t) => (Returns a, t)
  | (Raises e, t) =>
      if handles e then let (b, t') := handler e in (b, t ++ t')
      else (Raises e, t)
  end.

Declare Scope p_scope.
Delimit Scope p_scope with P.
Notation "x <- m ;; k" := (pbind m (fun x => k))
  (at level 61, m at next level, right associativity) : p_scope.
Notation "m ;; k" := (pbind m (fun _ => k))
  (at level 61, right associativity) : p_scope.

(** The tasks [f(i, x) for i, x in enumerate(l)], numbered from [i]. *)
Fixpoint tasks_from {A B} (f : nat -> A -> W B) (i : nat) (l : list A)
  : list (W B) :=
  match l with
  | [] => []
  | x :: l' => f i x :: tasks_from f (S i) l'
  end.

(** [await asyncio.gather] over these tasks, with [return_exceptions=True]:
    the results, in the order of [l].  The task coroutines catch every
    [Exception] themselves, so each result is a value and the gather does
    not raise. *)
Definition gather {A B} (c : op_class) (f : nat -> A -> W B) (l : list A)
  : P (list B) :=
  let runs := tasks_from f 0 l in
  (Returns (map result runs), [Gather c (map events runs)]).

(** A remote call of the pipeline itself. *)
Definition await {A} (r : reply A) (ev : option exn -> pevent) : P A :=
  match r with
  | Returns a => (Returns a, [ev None])
  | Raises e => (Raises e, [ev (Some e)])
  end.

(** [isinstance(e, discord.Forbidden)]: the exception discord.py raises
    for status 403. *)
Definition is_Forbidden (e : exn) : bool :=
  match e with
  | HTTPException status _ => (status =? 403)%Z
  | OtherException => false
  end.

(** [except Exception] *)
Definition is_Exception (e : exn) : bool := true.

(** ** Teardown phases *)

#[export] Instance Named_string : Named string := fun s => s.

(** [range(start, stop, step)] for [step > 0], by its number of terms. *)
Definition range_step (start count step : nat) : list nat :=
  map (fun k => start + k * step) (seq 0 count).

(** [str(n)] for a non-negative integer. *)
Definition str (n : nat) : string := NilZero.string_of_uint (Nat.to_uint n).

(** [[x for x in results if x and isinstance(x, discord.TextChannel)]]:
    a created channel is kept, [None] is dropped. *)
Fixpoint valid_channels (results : list (option TextChannel))
  : list TextChannel :=
  match results with
  | [] => []
  | Some ch :: rest => ch :: valid_channels rest
  | None :: rest => valid_channels rest
  end.

Definition op_class_eqb (c c' : op_class) : bool :=
  match c, c' with
  | Delete, Delete | Create, Create | Send, Send => true
  | _, _ => false
  end.

Section Pipeline.
Variable env : Env.
#[local] Open Scope p_scope.

Definition status (text : status_text) : P unit :=
  await (status_send env text) (StatusSend text).

Definition delete_webhooks : P unit :=
  try_except
    (hooks <- await (webhooks env) ListWebhooks ;;
     _ <- gather Delete
            (fun i webhook =>
               delete_with_retry webhook "webhook"
                 (delete_api env "webhook" i))
            hooks ;;
     pret tt)
    is_Forbidden
    (fun _ => pemit (PLog WARNING NoPermissionWebhooks)).

Definition delete_emojis : P unit :=
  _ <- gather Delete
         (fun i emoji =>
            delete_with_retry emoji "emoji" (delete_api env "emoji" i))
         (emojis (guild env)) ;;
  pret tt.

Definition delete_roles : P unit :=
  _ <- gather Delete
         (fun i role =>
            delete_with_retry role "role" (delete_api env "role" i))
         (roles_to_delete (guild env)) ;;
  pret tt.

Definition delete_channels : P unit :=
  let channels_ :=
    filter (fun ch => negb (is_category ch)) (channels (guild env)) in
  let categories := filter is_category (channels (guild env)) in
  _ <- gather Delete
         (fun i channel =>
            delete_with_retry channel "channel"
              (delete_api env "channel" i))
         channels_ ;;
  _ <- gather Delete
         (fun i category =>
            delete_with_retry category "category"
              (delete_api env "category" i))
         categories ;;
  pret tt.

(** ** [ServerCleanup.create_announcement_channels] *)

Definition channel_names : list string :=
  [ "general"; "announcements"; "updates"; "important"; "news";
    "server-updates"; "community"; "chat"; "discussion"; "main";
    "info"; "notices"; "alerts"; "welcome"; "lobby";
    "hangout"; "lounge"; "social"; "random"; "misc";
    "off-topic"; "casual"; "talk"; "voice-chat"; "gaming";
    "memes"; "media"; "sharing"; "events"; "activities";
    "questions"; "help"; "support"; "feedback"; "suggestions";
    "rules"; "guidelines"; "moderation"; "admin"; "staff";
    "bots"; "commands"; "music"; "voice"; "stream";
    "art"; "creative"; "showcase"; "projects"; "collaboration" ].

(** The name appended at index [i] of the loop over [range(100)]. *)
Definition requested_name (i : nat) : string :=
  let channel_name := nth (i mod List.length channel_names) channel_names "" in
  if List.length channel_names <=? i
  then (channel_name ++ "-" ++ str (i / List.length channel_names + 1))%string
  else channel_name.

Definition channels_to_create : list string :=
  map requested_name (seq 0 100).

Definition batch_size : nat := 10.

(** The loop [for batch_num in range(0, 100, batch_size)], over the
    batch starts still to run, with [all_channels] as accumulated. *)
Fixpoint create_batches (batch_nums : list nat)
    (all_channels : list TextChannel) : P (list TextChannel) :=
  match batch_nums with
  | [] => pret all_channels
  | batch_num :: rest =>
      let batch :=
        firstn batch_size (skipn batch_num channels_to_create) in
      pemit (PLog INFO
               (CreatingBatch (batch_num / batch_size + 1) (List.length batch))) ;;
      batch_results <-
        gather Create
          (fun i name =>
             create_single_channel name (batch_num / batch_size + 1)
               (create_api env (batch_num + i)))
          batch ;;
      let all_channels := all_channels ++ valid_channels batch_results in
      (if batch_num + batch_size <? 100
       then pemit (PSleep (Uniform (1 # 2)%Q 1%Q))
       else pret tt) ;;
      create_batches rest all_channels
  end.

(** The loop [for wave in range(20)], over the waves still to run. *)
Fixpoint flood (all_channels : list TextChannel) (message_content : string)
    (waves : list nat) : P unit :=
  match waves with
  | [] => pret tt
  | wave :: rest =>
      pemit (PLog INFO (WaveStart (wave + 1) (List.length all_channels))) ;;
      _ <- gather Send
             (fun i channel =>
                send_message_to_channel channel message_content
                  wave (wave + 1) (send_api env wave i))
             all_channels ;;
      (if wave <? 19
       then pemit (PLog INFO WaveDelay) ;;
            pemit (PSleep (Uniform (3 # 10)%Q (4 # 5)%Q))
       else pret tt) ;;
      flood all_channels message_content rest
  end.

Definition newline : string := String (ascii_of_nat 10) "".

Definition create_announcement_channels (invite_link : string) : P unit :=
  try_except
    (pemit (PLog INFO TurboMode) ;;
     pemit (PLog INFO CreatingChannels) ;;
     all_channels <- create_batches (range_step 0 10 batch_size) [] ;;
     pemit (PLog INFO (CreatedCount (List.length all_channels))) ;;
     match all_channels with
     | [] => pemit (PLog ERROR NoChannelsCreated)
     | _ :: _ =>
         let message_content :=
           ("@everyone @here" ++ newline
            ++ "**Join in this server for more info --> "
            ++ invite_link ++ "**")%string in
         pemit (PLog INFO (TsunamiMode (List.length all_channels))) ;;
         flood all_channels message_content (seq 0 20) ;;
         pemit (PLog INFO (MissionAccomplished (List.length all_channels * 20))) ;;
         pemit (PLog INFO FloodingCompleted)
     end)
    is_Exception
    (fun e => pemit (PLog ERROR (ErrorInTurboMode e))).

(** ** [ServerCleanup.cleanup_server] *)

(** [if invite_link:] on an optional string. *)
Definition truthy (invite_link : option string) : bool :=
  match invite_link with
  | Some s => negb (String.eqb s "")
  | None => false
  end.

Definition cleanup_server (invite_link : option string) : P unit :=
  try_except
    (status CleanupInitiated ;;
     status DeletingWebhooks ;;
     delete_webhooks ;;
     status DeletingEmojis ;;
     delete_emojis ;;
     status DeletingRoles ;;
     delete_roles ;;
     status DeletingChannels ;;
     pemit (PSleep (Seconds 2%Q)) ;;
     delete_channels ;;
     match invite_link with
     | Some link =>
         if truthy invite_link
         then create_announcement_channels link
         else pret tt
     | None => pret tt
     end ;;
     pemit (PLog INFO CleanupCompleted))
    is_Exception
    (fun e =>
       pemit (PLog ERROR (ErrorDuringCleanupLog e)) ;;
       try_except (status (ErrorDuringCleanup e))
         (fun _ => true) (fun _ => pret tt)).
End Pipeline.

(** ** Reading a run *)

Definition is_call (e : event) : bool :=
  match e with Call _ _ _ _ => true | _ => false end.

(** The remote calls of a task, in order. *)
Definition calls (t : trace) : trace := filter is_call t.

(** How many attempts a task made. *)
Definition attempts (t : trace) : nat := List.length (calls t).

Definition count_event (p : event -> bool) (t : trace) : nat :=
  List.length (filter p t).

Definition is_acquire (e : event) : bool :=
  match e with Acquire _ => true | _ => false end.
Definition is_release (e : event) : bool :=
  match e with Release _ => true | _ => false end.
Definition is_smart_delay (e : event) : bool :=
  match e with SmartDelay _ => true | _ => false end.
Definition is_outcome_log (e : event) : bool :=
  match e with
  | Log _ (Deleted _ _) | Log _ (AlreadyDeleted _ _) => true
  | _ => false
  end.

(** The task runs gathered for class [c] during a pipeline run, gather by
    gather. *)
Fixpoint gathers (c : op_class) (t : list pevent) : list (list trace) :=
  match t with
  | [] => []
  | Gather c' runs :: t' =>
      if op_class_eqb c c' then runs :: gathers c t' else gathers c t'
  | _ :: t' => gathers c t'
  end.

(** How many tasks of class [c] a pipeline run issued. *)
Definition tasks_issued (c : op_class) (t : list pevent) : nat :=
  List.length (List.concat (gathers c t)).

(** The texts posted to the status sink, in order. *)
Fixpoint status_posts (t : list pevent) : list status_text :=
  match t with
  | [] => []
  | StatusSend text None :: t' => text :: status_posts t'
  | _ :: t' => status_posts t'
  end.

(** The target of a task: the target of its first remote call. *)
Definition target (t : trace) : option string :=
  match calls t with
  | Call _ x _ _ :: _ => Some x
  | _ => None
  end.

(** Every task run gathered during a pipeline run, whatever its class. *)
Definition all_tasks (t : list pevent) : list trace :=
  flat_map (fun e => match e with Gather _ runs => runs | _ => [] end) t.

(** ** The permit pools on the event loop *)

Definition sem_eqb (s s' : sem) : bool :=
  match s, s' with
  | semaphore, semaphore
  | channel_semaphore, channel_semaphore
  | message_semaphore, message_semaphore => true
  | _, _ => false
  end.

Definition set {A} (f : sem -> A) (s : sem) (a : A) : sem -> A :=
  fun s' => if sem_eqb s s' then a else f s'.

(** A task on the event loop: the permits it holds and the events it has
    still to perform. *)
Record task : Type := {
  holds : sem -> bool;
  todo : trace
}.

(** The loop: the counter of each [asyncio.Semaphore] and the tasks. *)
Record loop : Type := {
  value : sem -> nat;
  tasks : list task
}.

(** The effect of one event.  [Semaphore.acquire] returns only when the
    counter is positive, and decrements it; [Semaphore.release] increments
    it, unconditionally. *)
Definition perform (e : event) (value : sem -> nat) (holds : sem -> bool)
  : option ((sem -> nat) * (sem -> bool)) :=
  match e with
  | Acquire s =>
      if value s =? 0 then None
      else Some (set value s (value s - 1), set holds s true)
  | Release s => Some (set value s (value s + 1), set holds s false)
  | _ => Some (value, holds)
  end.

(** The loop runs one event of one task that is not blocked. *)
Inductive step : loop -> loop -> Prop :=
| step_task (before after : list task) (tk : task) (e : event) (rest : trace)
    (v v' : sem -> nat) (h' : sem -> bool) :
    todo tk = e :: rest ->
    perform e v (holds tk) = Some (v', h') ->
    step {| value := v; tasks := before ++ tk :: after |}
         {| value := v';
            tasks := before ++ {| holds := h'; todo := rest |} :: after |}.

Inductive reachable (l0 : loop) : loop -> Prop :=
| reachable_start : reachable l0 l0
| reachable_step (l l' : loop) :
    reachable l0 l -> step l l' -> reachable l0 l'.

(** The loop as the pipeline starts: full pools, no task started. *)
Definition start (runs : list trace) : loop :=
  {| value := capacity;
     tasks := map (fun t => {| holds := fun _ => false; todo := t |}) runs |}.

(** How many tasks hold a permit of [s]. *)
Definition holders (l : loop) (s : sem) : nat :=
  List.length (filter (fun tk => holds tk s) (tasks l)).

(** ** [ServerCleanup.smart_delay] on the event loop *)

Module Pacing.
#[local] Open Scope Z_scope.

(** Times are in milliseconds; [last_request_time] is the one field all
    operation types share. *)
Definition min_interval (operation_type : string) : Z :=
  if String.eqb operation_type "channel" then 100 else 20.

(** [smart_delay] up to its [await]: the sleep it asks for, if any.
    [jitter] is the value of [random.uniform(0, 0.01)].  When the
    coroutine goes on, at once or after the sleep, it stores the clock in
    [last_request_time] and returns (see [step]). *)
Definition smart_delay (operation_type : string)
    (current_time jitter last_request_time : Z) : option Z :=
  let time_since_last := current_time - last_request_time in
  if time_since_last <? min_interval operation_type
  then Some (min_interval operation_type - time_since_last + jitter)
  else None.

(** A coroutine calling [smart_delay] and then dispatching its request:
    not yet run, suspended in [asyncio.sleep] until [wake_at], or
    dispatched at [at_time]. *)
Inductive coroutine : Type :=
| Pending (operation_type : string) (jitter : Z)
| Sleeping (operation_type : string) (wake_at : Z)
| Dispatched (operation_type : string) (at_time : Z).

Record loop : Type := {
  clock : Z;                      (* time.time() *)
  last_request_time : Z;          (* self.last_request_time *)
  coroutines : list coroutine
}.

Inductive action : Type :=
| Run (i : nat)        (* the loop starts coroutine i *)
| Wake (i : nat)       (* the loop resumes coroutine i after its sleep *)
| Advance (d : Z).     (* time passes *)

Fixpoint update {A} (l : list A) (i : nat) (a : A) : list A :=
  match l, i with
  | [], _ => []
  | _ :: l', O => a :: l'
  | x :: l', S i' => x :: update l' i' a
  end.

(** One turn of the loop.  A coroutine runs without interruption up to
    its next [await]; a sleep is resumed no earlier than its deadline. *)
Definition step (a : action) (l : loop) : option loop :=
  match a with
  | Run i =>
      match nth_error (coroutines l) i with
      | Some (Pending operation_type jitter) =>
          match smart_delay operation_type (clock l) jitter
                  (last_request_time l) with
          | Some s =>
              Some {| clock := clock l;
                      last_request_time := last_request_time l;
                      coroutines :=
                        update (coroutines l) i
                          (Sleeping operation_type (clock l + s)) |}
          | None =>
              Some {| clock := clock l;
                      last_request_time := clock l;
                      coroutines :=
                        update (coroutines l) i
                          (Dispatched operation_type (clock l)) |}
          end
      | _ => None
      end
  | Wake i =>
      match nth_error (coroutines l) i with
      | Some (Sleeping operation_type wake_at) =>
          if wake_at <=? clock l
          then Some {| clock := clock l;
                       last_request_time := clock l;
                       coroutines :=
                         update (coroutines l) i
                           (Dispatched operation_type (clock l)) |}
          else None
      | _ => None
      end
  | Advance d =>
      if 0 <=? d
      then Some {| clock := clock l + d;
                   last_request_time := last_request_time l;
                   coroutines := coroutines l |}
      else None
  end.

Fixpoint run (schedule : list action) (l : loop) : option loop :=
  match schedule with
  | [] => Some l
  | a :: schedule' =>
      match step a l with
      | Some l' => run schedule' l'
      | None => None
      end
  end.

(** A fresh [ServerCleanup] ([last_request_time = 0]) whose loop is about
    to run the coroutines [cs], the clock reading [now]. *)
Definition start (now : Z) (cs : list coroutine) : loop :=
  {| clock := now; last_request_time := 0; coroutines := cs |}.

(** The dispatch times of the operation type [operation_type]. *)
Fixpoint dispatches (operation_type : string) (cs : list coroutine)
  : list Z :=
  match cs with
  | [] => []
  | Dispatched o t :: cs' =>
      if String.eqb o operation_type
      then t :: dispatches operation_type cs'
      else dispatches operation_type cs'
  | _ :: cs' => dispatches operation_type cs'
  end.

(** Any two entries of [ts] are at least [d] apart. *)
Fixpoint spaced (d : Z) (ts : list Z) : bool :=
  match ts with
  | [] => true
  | t :: ts' => forallb (fun t' => d <=? Z.abs (t - t')) ts' && spaced d ts'
  end.

(** The pacing property at one loop state. *)
Definition paced (l : loop) : bool :=
  spaced (min_interval "channel") (dispatches "channel" (coroutines l))
  && spaced (min_interval "message") (dispatches "message" (coroutines l)).
End Pacing.

(** ** The retry policy: vocabulary *)

(** The failure classes, by the tests the retry loops make on the
    exception: status 429, status 404, the listed server errors, any other
    HTTP status, any other exception. *)
Inductive failure : Type :=
| RateLimited
| TransientServer
| AlreadyAbsent
| PermanentClient
| UnknownError.

Definition classify (e : exn) : failure :=
  match e with
  | HTTPException status _ =>
      if (status =? 429)%Z then RateLimited
      else if (status =? 404)%Z then AlreadyAbsent
      else if server_error status then TransientServer
      else PermanentClient
  | OtherException => UnknownError
  end.

Definition permanent (e : exn) : bool :=
  match classify e with
  | PermanentClient | UnknownError => true
  | _ => false
  end.

(** The task [m] failed and made no attempt after the one of index [k]. *)
Definition abandoned_at {A} (failed : A -> bool) (m : W A) (k : nat) : Prop :=
  failed (result m) = true /\ attempts (events m) = S k.

Definition is_None {A} (o : option A) : bool :=
  match o with None => true | Some _ => false end.

(** A permit and a pacing consultation for each attempt, and a release
    after each: as many of each as there are attempts. *)
Definition gated_and_paced_per_attempt (t : trace) : Prop :=
  count_event is_acquire t = attempts t
  /\ count_event is_smart_delay t = attempts t
  /\ count_event is_release t = attempts t.

(** Scoped acquisition around single attempts: where a task stands. *)
Inductive scope : Type :=
| Outside      (* no permit held *)
| Inside       (* permit held, attempt not yet made *)
| Attempted.   (* permit held, attempt made *)

(** [t], read from [st], acquires [s] before each remote call, makes one
    call under each permit, releases [s] after it, and ends with no permit
    held. *)
Fixpoint scoped_per_attempt (s : sem) (st : scope) (t : trace) : bool :=
  match t with
  | [] => match st with Outside => true | _ => false end
  | Acquire s' :: t' =>
      match st with
      | Outside => sem_eqb s s' && scoped_per_attempt s Inside t'
      | _ => false
      end
  | Call _ _ _ _ :: t' =>
      match st with
      | Inside => scoped_per_attempt s Attempted t'
      | _ => false
      end
  | Release s' :: t' =>
      match st with
      | Attempted => sem_eqb s s' && scoped_per_attempt s Outside t'
      | _ => false
      end
  | _ :: t' => scoped_per_attempt s st t'
  end.

(** No permit event and no pacing consultation in [t]. *)
Definition ungated (t : trace) : bool :=
  forallb (fun e => negb (is_acquire e || is_release e || is_smart_delay e)) t.

(** ** The creation phase: vocabulary *)

(** What the Create task of index [i] returns in [env]. *)
Definition create_result (env : Env) (i : nat) : option TextChannel :=
  result (create_single_channel (requested_name i) (i / batch_size + 1)
            (create_api env i)).

(** The resources the creation phase creates, in index order. *)
Definition created (env : Env) : list TextChannel :=
  valid_channels (map (create_result env) (seq 0 100)).

(** ** Role selection: vocabulary *)

Definition descending (l : list Role) : Prop :=
  Sorted (fun a b => (position b <= position a)%Z) l.

Definition strictly_descending (l : list Role) : Prop :=
  Sorted (fun a b => (position b < position a)%Z) l.

(** The selection of roles for a caller whose top role is at position 5,
    as position alone would decide it. *)
Definition selects_below_5 (g : Guild) : Prop :=
  forall r : Role,
    In r (roles_to_delete g) <->
    In r (roles g) /\ role_name r <> "@everyone" /\ managed r = false
    /\ (position r < 5)%Z.

(** ** Sample inputs *)

Definition forbidden : exn := HTTPException 403 None.
Definition not_found : exn := HTTPException 404 None.
Definition too_many_requests : exn := HTTPException 429 None.

(** First attempt refused with 403, the next one succeeds. *)
Definition forbidden_then_ok (n : nat) : reply unit :=
  match n with
  | O => Raises forbidden
  | S _ => Returns tt
  end.

Definition always {A} (r : reply A) (n : nat) : reply A := r.

(** First attempt rate limited, the next one succeeds. *)
Definition limited_then_created (n : nat) : reply TextChannel :=
  match n with
  | O => Raises too_many_requests
  | S _ => Returns {| name := "general" |}
  end.

(** First attempt rate limited, the second finds the resource gone. *)
Definition limited_then_gone (n : nat) : reply unit :=
  match n with
  | O => Raises too_many_requests
  | S _ => Raises not_found
  end.

Definition mk_role (id : Z) (nm : string) (m : bool) (pos : Z) : Role :=
  {| role_id := id; role_name := nm; managed := m; position := pos |}.

(** A guild whose caller has its top role at position 5, with two
    deletable roles sharing position 3 and a younger role sharing
    position 5. *)
Definition tied_guild : Guild :=
  {| guild_id := 1;
     channels := [];
     roles := [ mk_role 1 "@everyone" false 0;
                mk_role 2 "members" false 3;
                mk_role 3 "guests" false 3;
                mk_role 9 "bot" true 5;
                mk_role 10 "peers" false 5 ];
     emojis := [];
     me_top_role := mk_role 9 "bot" true 5 |}.

(** A guild with roles on both sides of the caller's top role. *)
Definition sample_guild : Guild :=
  {| guild_id := 1;
     channels := [ {| channel_name := "lobby"; is_category := false |};
                   {| channel_name := "Text"; is_category := true |} ];
     roles := [ mk_role 1 "@everyone" false 0;
                mk_role 2 "members" false 2;
                mk_role 3 "mods" false 4;
                mk_role 4 "booster" true 3;
                mk_role 5 "admins" false 7;
                mk_role 9 "bot" true 5 ];
     emojis := [ {| emoji_name := "wave" |} ];
     me_top_role := mk_role 9 "bot" true 5 |}.

(** An environment in which every call succeeds at once, but for the
    answers given as arguments. *)
Definition sample_env (g : Guild) (hooks : reply (list Webhook))
    (del : string -> nat -> nat -> reply unit)
    (cre : nat -> nat -> reply TextChannel)
    (snd_ : nat -> nat -> nat -> reply unit) : Env :=
  {| guild := g;
     webhooks := hooks;
     status_send := fun _ => Returns tt;
     delete_api := del;
     create_api := cre;
     send_api := snd_ |}.

Definition deletes_ok : string -> nat -> nat -> reply unit :=
  fun _ _ _ => Returns tt.
Definition sends_ok : nat -> nat -> nat -> reply unit :=
  fun _ _ _ => Returns tt.
Definition sends_refused : nat -> nat -> nat -> reply unit :=
  fun _ _ _ => Raises forbidden.

(** The first [n] creations succeed at once, the others are refused. *)
Definition creates_first (n : nat) : nat -> nat -> reply TextChannel :=
  fun i _ =>
    if i <? n then Returns {| name := requested_name i |}
    else Raises forbidden.

(** A guild with one emoji; its delete finds it gone, or is refused at
    every attempt. *)
Definition emoji_gone_env : Env :=
  sample_env sample_guild (Returns [])
    (fun _ _ _ => Raises not_found) (creates_first 0) sends_ok.
Definition emoji_refused_env : Env :=
  sample_env sample_guild (Returns [])
    (fun _ _ _ => Raises forbidden) (creates_first 0) sends_ok.

(** Three Create coroutines entering [smart_delay] in the same loop turn,
    jitter left out. *)
Definition three_creates : list Pacing.coroutine :=
  [ Pacing.Pending "channel" 0;
    Pacing.Pending "channel" 0;
    Pacing.Pending "channel" 0 ].

Definition same_turn_schedule : list Pacing.action :=
  [ Pacing.Run 0; Pacing.Run 1; Pacing.Run 2;
    Pacing.Advance 100; Pacing.Wake 1; Pacing.Wake 2 ].

(** ** What a run surfaces *)

(** What a pipeline run hands back: its return value and the texts it
    posted to the status sink. *)
Definition surfaced (run : P unit) : reply unit * list status_text :=
  (fst run, status_posts (snd run)).

(** How many delete tasks of a run resolved as success (deleted, or found
    already gone). *)
Definition deletes_resolved (t : list pevent) : nat :=
  count_event is_outcome_log (List.concat (List.concat (gathers Delete t))).

(** [report] reads, off what a run surfaces, a count in which every
    resource whose delete resolved is counted exactly once. *)
Definition reports_resolved_deletes
    (report : reply unit * list status_text -> nat) : Prop :=
  forall (env : Env) (invite_link : option string),
    report (surfaced (cleanup_server env invite_link))
    = deletes_resolved (snd (cleanup_server env invite_link)).

(** The resources one batch of the creation phase creates. *)
Definition batch_created (env : Env) (batch_num : nat) : list TextChannel :=
  valid_channels
    (map result
       (tasks_from
          (fun i nm =>
             create_single_channel nm (batch_num / batch_size + 1)
               (create_api env (batch_num + i)))
          0 (firstn batch_size (skipn batch_num channels_to_create)))).

(** The Send tasks of one wave of the flood phase. *)
Definition wave_tasks (env : Env) (all_channels : list TextChannel)
    (message_content : string) (wave : nat) : list (W bool) :=
  tasks_from
    (fun i channel =>
       send_message_to_channel channel message_content wave (wave + 1)
         (send_api env wave i))
    0 all_channels.

(** [message_content] of the flood phase. *)
Definition flood_message (invite_link : string) : string :=
  ("@everyone @here" ++ newline
   ++ "**Join in this server for more info --> "
   ++ invite_link ++ "**")%string.

(** 73 of the 100 creations succeed; every Send is refused. *)
Definition partial_env : Env :=
  sample_env sample_guild (Returns []) deletes_ok
    (creates_first 73) sends_refused.

(** Every creation is refused. *)
Definition barren_env : Env :=
  sample_env sample_guild (Returns []) deletes_ok
    (creates_first 0) sends_ok.


(** ** Scoped acquisition *)

(** Read from a task holding the permits [h], the events [t] take a permit
    only when the task does not hold it and give one back only when it
    does: the discipline of [async with]. *)
Fixpoint bracketed (h : sem -> bool) (t : trace) : Prop :=
  match t with
  | [] => True
  | Acquire s :: t' => h s = false /\ bracketed (set h s true) t'
  | Release s :: t' => h s = true /\ bracketed (set h s false) t'
  | _ :: t' => bracketed h t'
  end.

(** The loop invariant: each pool's counter and holders add up to its
    capacity, and every task goes on with scoped acquisition. *)
Definition balanced (l : loop) : Prop :=
  (forall s, value l s + holders l s = capacity s)
  /\ Forall (fun tk => bracketed (holds tk) (todo tk)) (tasks l).

(** Every task gathered in the run [m] follows scoped acquisition. *)
Definition scoped_tasks {A} (m : P A) : Prop :=
  Forall (bracketed (fun _ => false)) (all_tasks (snd m)).

(** The tasks of a teardown of [sample_guild] in which every call succeeds
    at once, and the loop after the first of them has taken its permit. *)
Definition sample_runs : list trace :=
  all_tasks
    (snd (cleanup_server
            (sample_env sample_guild (Returns []) deletes_ok
               (creates_first 0) sends_ok)
            None)).

Definition first_permit_taken : loop :=
  match tasks (start sample_runs) with
  | tk :: after =>
      {| value := set capacity semaphore (capacity semaphore - 1);
         tasks := {| holds := set (holds tk) semaphore true;
                     todo := tl (todo tk) |} :: after |}
  | [] => start sample_runs
  end.

(** The clock reading at which the sample batch starts (a Unix time in
    milliseconds). *)
Definition batch_start : Z := 1700000000000.

(** Three coroutines of one operation type with the jitters [j1], [j2] for
    the two that will sleep, and the schedule that wakes each sleeper at
    its deadline. *)
Definition three_of (operation_type : string) (j1 j2 : Z)
  : list Pacing.coroutine :=
  [ Pacing.Pending operation_type 0;
    Pacing.Pending operation_type j1;
    Pacing.Pending operation_type j2 ].

Definition deadline_schedule (operation_type : string) (j1 j2 : Z)
  : list Pacing.action :=
  [ Pacing.Run 0; Pacing.Run 1; Pacing.Run 2;
    Pacing.Advance (Pacing.min_interval operation_type + j1);
    Pacing.Wake 1;
    Pacing.Advance (j2 - j1);
    Pacing.Wake 2 ].

(** ** Reading a task run: outcomes and sleeps *)


(** The remote call went through or, for a delete, found the resource
    already gone (status 404). *)
Definition resolved (e : event) : bool :=
  match e with
  | Call _ _ _ None => true
  | Call Delete _ _ (Some (HTTPException status _)) => (status =? 404)%Z
  | _ => false
  end.



Definition is_sleep (e : event) : bool :=
  match e with Sleep _ => true | _ => false end.

(** The fixed [asyncio.sleep(0.5)] at the foot of the delete loop. *)
Definition is_retry_floor (e : event) : bool :=
  match e with Sleep RetryFloor => true | _ => false end.


(** Every attempt is answered with status 429. *)
Definition always_limited {A} : nat -> reply A :=
  always (Raises too_many_requests).

(** ** Reading a pipeline run *)

(** How a remote call of the pipeline ended. *)
Definition raised {A} (r : reply A) : option exn :=
  match r with
  | Returns _ => None
  | Raises e => Some e
  end.

(** No task of class [c] is gathered in the run [m]. *)
Definition quiet {A} (c : op_class) (m : P A) : Prop :=
  gathers c (snd m) = [].

(** The pause between two batches and the pause between two waves. *)
Definition is_batch_pause (e : pevent) : bool :=
  match e with
  | PSleep (Uniform low high) =>
      Qeq_bool low (1 # 2) && Qeq_bool high 1
  | _ => false
  end.

Definition is_wave_pause (e : pevent) : bool :=
  match e with
  | PSleep (Uniform low high) =>
      Qeq_bool low (3 # 10) && Qeq_bool high (4 # 5)
  | _ => false
  end.

(** The webhook listing fails with status 500. *)
Definition listing_broken_env : Env :=
  sample_env sample_guild (Raises (HTTPException 500 None)) deletes_ok
    (creates_first 0) sends_ok.

(** The first post to the status sink is refused. *)
Definition muted_env : Env :=
  {| guild := sample_guild;
     webhooks := Returns [];
     status_send := fun _ => Raises forbidden;
     delete_api := deletes_ok;
     create_api := creates_first 100;
     send_api := sends_ok |}.

(** Every call of the run succeeds at once; two webhooks are listed. *)
Definition smooth_env : Env :=
  sample_env sample_guild
    (Returns [ {| webhook_name := "feed" |}; {| webhook_name := "ci" |} ])
    deletes_ok (creates_first 100) sends_ok.

(** How many events of a pipeline run satisfy [p]. *)
Definition pcount (p : pevent -> bool) (t : list pevent) : nat :=
  List.length (filter p t).

(** The Create tasks of one batch of the creation phase. *)
Definition batch_tasks (env : Env) (batch_num : nat)
  : list (W (option TextChannel)) :=
  tasks_from
    (fun i nm =>
       create_single_channel nm (batch_num / batch_size + 1)
         (create_api env (batch_num + i)))
    0 (firstn batch_size (skipn batch_num channels_to_create)).

(** The names of the channels that are not categories, and of those that
    are, in the order of the guild's channel list. *)
Definition regular_names (g : Guild) : list string :=
  map channel_name (filter (fun ch => negb (is_category ch)) (channels g)).

Definition category_names (g : Guild) : list string :=
  map channel_name (filter is_category (channels g)).

(** ** The event loop: running and finishing *)

(** A task that holds a permit holds no other and is not about to take
    one, gives back only what it holds, and holds nothing once it has no
    event left. *)
Fixpoint orderly (h : sem -> bool) (t : trace) : Prop :=
  match t with
  | [] => forall s, h s = false
  | Acquire s :: t' =>
      (forall s', h s' = false) /\ orderly (set h s true) t'
  | Release s :: t' => h s = true /\ orderly (set h s false) t'
  | _ :: t' => orderly h t'
  end.

(** Counters and holders add up, and every task is orderly. *)
Definition steady (l : loop) : Prop :=
  (forall s, value l s + holders l s = capacity s)
  /\ Forall (fun tk => orderly (holds tk) (todo tk)) (tasks l).

(** Every task has performed all its events. *)
Definition finished (l : loop) : Prop :=
  Forall (fun tk => todo tk = []) (tasks l).

Definition can_step (l : loop) : Prop := exists l', step l l'.

(** The next event of the task can be performed with the counters [v]. *)
Definition enabled (v : sem -> nat) (tk : task) : bool :=
  match todo tk with
  | [] => false
  | Acquire s :: _ => negb (v s =? 0)
  | _ :: _ => true
  end.

(** The loop runs the next event of its task number [i], if that task has
    one and is not blocked. *)
Definition fire (i : nat) (l : loop) : option loop :=
  match nth_error (tasks l) i with
  | Some tk =>
      match todo tk with
      | e :: rest =>
          match perform e (value l) (holds tk) with
          | Some (v', h') =>
              Some {| value := v';
                      tasks := firstn i (tasks l)
                               ++ {| holds := h'; todo := rest |}
                               :: skipn (S i) (tasks l) |}
          | None => None
          end
      | [] => None
      end
  | None => None
  end.

(** The loop after the turns of [schedule], as far as they can be taken. *)
Fixpoint after (schedule : list nat) (l : loop) : loop :=
  match schedule with
  | [] => l
  | i :: schedule' =>
      match fire i l with
      | Some l' => after schedule' l'
      | None => l
      end
  end.

(** A guild with one emoji and nothing else, every call succeeding. *)
Definition one_emoji_env : Env :=
  sample_env
    {| guild_id := 1; channels := []; roles := [];
       emojis := [ {| emoji_name := "wave" |} ];
       me_top_role := mk_role 9 "bot" true 5 |}
    (Returns []) deletes_ok (creates_first 0) sends_ok.

(** ** [smart_delay] without overlap *)

(** The loop runs coroutine [i] through [smart_delay] to its dispatch
    before it turns to any other: if the coroutine asks for a sleep, the
    loop lets the time pass up to the deadline and [late] more, and resumes
    it. *)
Definition serve (i : nat) (late : Z) (l : Pacing.loop)
  : option Pacing.loop :=
  match Pacing.step (Pacing.Run i) l with
  | Some l1 =>
      match nth_error (Pacing.coroutines l1) i with
      | Some (Pacing.Sleeping _ wake_at) =>
          Pacing.run
            [ Pacing.Advance (wake_at - Pacing.clock l1 + late)%Z;
              Pacing.Wake i ]
            l1
      | _ => Some l1
      end
  | None => None
  end.

(** One coroutine after the other: for each entry [(i, idle, late)] of the
    plan the loop idles for [idle] and then serves coroutine [i]. *)
Fixpoint serve_all (plan : list (nat * Z * Z)) (l : Pacing.loop)
  : option Pacing.loop :=
  match plan with
  | [] => Some l
  | (i, idle, late) :: plan' =>
      match Pacing.step (Pacing.Advance idle) l with
      | Some l1 =>
          match serve i late l1 with
          | Some l2 => serve_all plan' l2
          | None => None
          end
      | None => None
      end
  end.

(** Not yet run, with a jitter that is not negative. *)
Definition fresh (c : Pacing.coroutine) : Prop :=
  match c with
  | Pacing.Pending _ jitter => (0 <= jitter)%Z
  | _ => False
  end.

(** Idle times and latenesses are not negative. *)
Definition forward (entry : nat * Z * Z) : Prop :=
  let '(_, idle, late) := entry in (0 <= idle)%Z /\ (0 <= late)%Z.

(** What the sequential regime keeps: the clock is not behind the
    timestamp, no coroutine is asleep, the coroutines not yet run are
    fresh, no dispatch is later than the timestamp, and a dispatch is at
    least the minimum interval of its operation type after every dispatch
    made before it. *)
Definition sequentially_paced (l : Pacing.loop) : Prop :=
  (Pacing.last_request_time l <= Pacing.clock l)%Z
  /\ (forall i c, nth_error (Pacing.coroutines l) i = Some c ->
                  match c with
                  | Pacing.Pending _ _ => fresh c
                  | Pacing.Sleeping _ _ => False
                  | Pacing.Dispatched _ t =>
                      (t <= Pacing.last_request_time l)%Z
                  end)
  /\ (forall i j o o' t t',
         i <> j ->
         nth_error (Pacing.coroutines l) i = Some (Pacing.Dispatched o t) ->
         nth_error (Pacing.coroutines l) j = Some (Pacing.Dispatched o' t') ->
         (Pacing.min_interval o <= Z.abs (t - t'))%Z
         \/ (Pacing.min_interval o' <= Z.abs (t - t'))%Z).

(** Two creations and a message, served one after the other. *)
Definition mixed_three : list Pacing.coroutine :=
  [ Pacing.Pending "channel" 3;
    Pacing.Pending "message" 0;
    Pacing.Pending "channel" 7 ]%Z.

Definition one_by_one : list (nat * Z * Z) :=
  [ (0, 0%Z, 0%Z); (2, 40%Z, 1%Z); (1, 5%Z, 0%Z) ].

(** ** Sleeping and permits; the status sink *)

(** No [asyncio.sleep] of [t] happens while a permit is held, [holding]
    telling whether one is held where [t] starts. *)
Fixpoint sleeps_outside (holding : bool) (t : trace) : bool :=
  match t with
  | [] => true
  | Acquire _ :: t' => sleeps_outside true t'
  | Release _ :: t' => sleeps_outside false t'
  | Sleep _ :: t' => negb holding && sleeps_outside holding t'
  | _ :: t' => sleeps_outside holding t'
  end.

(** The five announcements of [cleanup_server], in program order. *)
Definition announcements : list status_text :=
  [ CleanupInitiated; DeletingWebhooks; DeletingEmojis; DeletingRoles;
    DeletingChannels ].

(** The run [m] posts the texts [xs] to the status sink, in order, and
    nothing else; if it raises, it has posted a prefix of them. *)
Definition announces {A} (xs : list status_text) (m : P A) : Prop :=
  match fst m with
  | Returns _ => status_posts (snd m) = xs
  | Raises _ => exists n, status_posts (snd m) = firstn n xs
  end.

(** The post announcing the role phase is refused; everything else
    succeeds. *)
Definition roles_post_refused_env : Env :=
  {| guild := sample_guild;
     webhooks := Returns [];
     status_send :=
       fun text =>
         match text with
         | DeletingRoles => Raises forbidden
         | _ => Returns tt
         end;
     delete_api := deletes_ok;
     create_api := creates_first 100;
     send_api := sends_ok |}.

(** The tasks of the first batch of a run in which every call succeeds. *)
Definition first_batch_runs : list trace :=
  hd [] (gathers Create
           (snd (create_announcement_channels smooth_env "discord.gg/new"))).

(** ** The error line of a delete *)

(** What [delete_with_retry] logs at level ERROR for a failure that it
    neither waits out nor takes for a success. *)
Definition delete_error_log (item_type name : string) (e : exn) : message :=
  match e with
  | HTTPException _ _ => FailedTo Delete name e
  | OtherException => UnexpectedError Delete item_type
  end.

(** ** Where the sleeps of a task lie *)

(** Reading the trace [t] from the left, calls and 0.5 s sleeps take
    turns, a call first: no 0.5 s sleep comes before the first call or
    follows another without a call between them, and no call follows a
    call without a 0.5 s sleep between them.  [attempted] tells whether a
    call has been read since the last 0.5 s sleep. *)
Fixpoint floors_alternate (attempted : bool) (t : trace) : bool :=
  match t with
  | [] => true
  | Call _ _ _ _ :: t' => negb attempted && floors_alternate true t'
  | Sleep RetryFloor :: t' => attempted && floors_alternate false t'
  | _ :: t' => floors_alternate attempted t'
  end.

(** Every [asyncio.sleep] of [t] happens while a permit is held. *)
Fixpoint sleeps_under (holding : bool) (t : trace) : bool :=
  match t with
  | [] => true
  | Acquire _ :: t' => sleeps_under true t'
  | Release _ :: t' => sleeps_under false t'
  | Sleep _ :: t' => holding && sleeps_under holding t'
  | _ :: t' => sleeps_under holding t'
  end.

(** ** Remote calls and the pools *)

(** Read from a task holding the permits [h], every remote call of [t] is
    made while the task holds a permit of the pool of the call's class. *)
Fixpoint calls_gated (h : sem -> bool) (t : trace) : Prop :=
  match t with
  | [] => True
  | Acquire s :: t' => calls_gated (set h s true) t'
  | Release s :: t' => calls_gated (set h s false) t'
  | Call c _ _ _ :: t' => h (gate c) = true /\ calls_gated h t'
  | _ :: t' => calls_gated h t'
  end.

(** The task is at a remote call of class [c]: the call is the event it
    performs next. *)
Definition calling (c : op_class) (tk : task) : bool :=
  match todo tk with
  | Call c' _ _ _ :: _ => op_class_eqb c c'
  | _ => false
  end.

(** How many tasks of the loop are at a remote call of class [c]. *)
Definition in_flight (l : loop) (c : op_class) : nat :=
  List.length (filter (calling c) (tasks l)).

(** A guild with eleven emojis and nothing else, every call succeeding. *)
Definition eleven_emojis_env : Env :=
  sample_env
    {| guild_id := 1; channels := []; roles := [];
       emojis := map (fun nm => {| emoji_name := nm |})
                   [ "e0"; "e1"; "e2"; "e3"; "e4"; "e5"; "e6"; "e7"; "e8";
                     "e9"; "e10" ];
       me_top_role := mk_role 9 "bot" true 5 |}
    (Returns []) deletes_ok (creates_first 0) sends_ok.

(** The loop of the eleven deletes after each task, in turn, has been given
    one step: ten have entered the pool, the eleventh is kept waiting. *)
Definition pool_exhausted : loop :=
  after (seq 0 11)
    (start (all_tasks (snd (cleanup_server eleven_emojis_env None)))).

(** ** Runs that hand back the same *)

(** Two runs return the same value, or raise the same exception, and post
    the same texts to the status sink. *)
Definition alike {A} (m m' : P A) : Prop :=
  fst m = fst m' /\ status_posts (snd m) = status_posts (snd m').


(** * Properties *)

(** ** The writer monad *)

Lemma events_bind {A B} (m : W A) (k : A -> W B) :
  events (bind m k) = events m ++ events (k (result m)).
Proof.
  destruct m as [a t]; unfold bind, events, result; simpl.
  destruct (k a); reflexivity.
Qed.

Lemma result_bind {A B} (m : W A) (k : A -> W B) :
  result (bind m k) = result (k (result m)).
Proof.
  destruct m as [a t]; unfold bind, result; simpl.
  destruct (k a); reflexivity.
Qed.

Lemma attempts_app (t t' : trace) :
  attempts (t ++ t') = attempts t + attempts t'.
Proof.
  unfold attempts, calls. rewrite filter_app, length_app. reflexivity.
Qed.

#[local] Arguments bind : simpl never.

Ltac w_simpl :=
  repeat (rewrite ?events_bind, ?result_bind; simpl).

Ltac w_simpl_in H :=
  repeat (rewrite ?events_bind, ?result_bind in H; simpl in H).

(** ** Classification *)

Lemma permanent_status (status : Z) (ra : option Q) :
  permanent (HTTPException status ra) = true ->
  (status =? 429)%Z = false /\ (status =? 404)%Z = false
  /\ server_error status = false.
Proof.
  unfold permanent, classify.
  destruct (status =? 429)%Z; [discriminate|].
  destruct (status =? 404)%Z; [discriminate|].
  destruct (server_error status); [discriminate|]. auto.
Qed.

(** ** Create: a permanent failure ends the task *)

Section CreateFacts.
Variable nm : string.
Variable batch_id : nat.
Variable api : nat -> reply TextChannel.

Lemma create_attempts_permanent (mr remaining attempt k : nat) (e : exn) :
  In (Call Create nm k (Some e))
     (events (create_attempts nm batch_id api mr remaining attempt)) ->
  permanent e = true ->
  result (create_attempts nm batch_id api mr remaining attempt) = None
  /\ attempts (events (create_attempts nm batch_id api mr remaining attempt))
      + attempt = S k.
Proof.
  revert attempt.
  induction remaining as [|remaining IH]; intros attempt Hin Hperm;
    simpl in *.
  - destruct Hin as [Hin|[]]; discriminate.
  - destruct (api attempt) as [ch|[status ra|]].
    + w_simpl_in Hin. destruct Hin as [Hin|[Hin|[]]]; discriminate.
    + destruct (status =? 429)%Z eqn:E429;
        [|destruct (server_error status) eqn:E5xx];
        w_simpl_in Hin; w_simpl.
      * destruct Hin as [Hin|[Hin|[Hin|Hin]]]; try discriminate.
        { injection Hin as -> <-.
          apply permanent_status in Hperm. destruct Hperm; congruence. }
        destruct (IH _ Hin Hperm) as (Hres & Hatt).
        split; [assumption|]. unfold attempts in *; simpl. lia.
      * destruct Hin as [Hin|[Hin|[Hin|Hin]]]; try discriminate.
        { injection Hin as -> <-.
          apply permanent_status in Hperm.
          destruct Hperm as (_ & _ & Hperm); congruence. }
        destruct (IH _ Hin Hperm) as (Hres & Hatt).
        split; [assumption|]. unfold attempts in *; simpl. lia.
      * destruct Hin as [Hin|[Hin|[]]]; try discriminate.
        injection Hin as -> <-. split; reflexivity.
    + w_simpl_in Hin; w_simpl.
      destruct Hin as [Hin|[Hin|[]]]; try discriminate.
      injection Hin as -> <-. split; reflexivity.
Qed.

Lemma create_single_channel_events :
  events (create_single_channel nm batch_id api)
  = Acquire channel_semaphore :: SmartDelay "channel"
    :: events (create_attempts nm batch_id api 5 5 0)
    ++ [Release channel_semaphore].
Proof.
  unfold create_single_channel. rewrite !events_bind. reflexivity.
Qed.

Lemma create_single_channel_result :
  result (create_single_channel nm batch_id api)
  = result (create_attempts nm batch_id api 5 5 0).
Proof.
  unfold create_single_channel. rewrite !result_bind. reflexivity.
Qed.

Lemma create_permanent (k : nat) (e : exn) :
  In (Call Create nm k (Some e))
     (events (create_single_channel nm batch_id api)) ->
  permanent e = true ->
  abandoned_at is_None (create_single_channel nm batch_id api) k.
Proof.
  unfold abandoned_at.
  rewrite create_single_channel_events, create_single_channel_result.
  intros Hin Hperm.
  destruct Hin as [Hin|[Hin|Hin]]; try discriminate.
  apply in_app_or in Hin. destruct Hin as [Hin|[Hin|[]]]; try discriminate.
  destruct (create_attempts_permanent _ _ _ _ _ Hin Hperm) as (-> & Hatt).
  split; [reflexivity|].
  change (attempts ([Acquire channel_semaphore; SmartDelay "channel"]
                    ++ events (create_attempts nm batch_id api 5 5 0)
                    ++ [Release channel_semaphore]) = S k).
  rewrite !attempts_app.
  change (attempts [Acquire channel_semaphore; SmartDelay "channel"]) with 0.
  change (attempts [Release channel_semaphore]) with 0. lia.
Qed.
End CreateFacts.

(** ** Send: a permanent failure ends the task *)

Section SendFacts.
Variable channel : TextChannel.
Variable message_content : string.
Variable msg_num wave : nat.
Variable api : nat -> reply unit.

Let attempts_from := send_attempts channel msg_num wave api.

Lemma send_attempts_permanent (mr remaining attempt k : nat) (e : exn) :
  In (Call Send (name channel) k (Some e))
     (events (attempts_from mr remaining attempt)) ->
  permanent e = true ->
  result (attempts_from mr remaining attempt) = false
  /\ attempts (events (attempts_from mr remaining attempt)) + attempt = S k.
Proof.
  subst attempts_from. revert attempt.
  induction remaining as [|remaining IH]; intros attempt Hin Hperm;
    simpl in *.
  - destruct Hin as [Hin|[]]; discriminate.
  - destruct (api attempt) as [[]|e0]; w_simpl_in Hin.
    + destruct Hin as [Hin|[Hin|[]]]; discriminate.
    + destruct (classify e0) eqn:Hclass; unfold classify in Hclass;
        destruct e0 as [status ra|]; try discriminate;
        try (destruct (status =? 429)%Z eqn:E429; try discriminate;
             destruct (status =? 404)%Z eqn:E404; try discriminate;
             destruct (server_error status) eqn:E5xx; try discriminate);
        w_simpl_in Hin; w_simpl;
        repeat (destruct Hin as [Hin|Hin]; try discriminate);
        try (injection Hin as -> <-);
        try (exfalso; unfold permanent, classify in Hperm;
             rewrite ?E429, ?E404, ?E5xx in Hperm; discriminate);
        try (split; reflexivity);
        try contradiction;
        destruct (IH _ Hin Hperm) as (Hres & Hatt);
        (split; [assumption|unfold attempts in *; simpl; lia]).
Qed.

Lemma send_message_events :
  events (send_message_to_channel channel message_content msg_num wave api)
  = Acquire message_semaphore :: SmartDelay "message"
    :: events (attempts_from 3 3 0) ++ [Release message_semaphore].
Proof.
  unfold send_message_to_channel, send_message.
  rewrite !events_bind. reflexivity.
Qed.

Lemma send_message_result :
  result (send_message_to_channel channel message_content msg_num wave api)
  = result (attempts_from 3 3 0).
Proof.
  unfold send_message_to_channel, send_message.
  rewrite !result_bind. reflexivity.
Qed.

Lemma send_permanent (k : nat) (e : exn) :
  In (Call Send (name channel) k (Some e))
     (events (send_message_to_channel channel message_content
                msg_num wave api)) ->
  permanent e = true ->
  abandoned_at negb
    (send_message_to_channel channel message_content msg_num wave api) k.
Proof.
  unfold abandoned_at. rewrite send_message_events, send_message_result.
  intros Hin Hperm.
  destruct Hin as [Hin|[Hin|Hin]]; try discriminate.
  apply in_app_or in Hin. destruct Hin as [Hin|[Hin|[]]]; try discriminate.
  destruct (send_attempts_permanent _ _ _ _ _ Hin Hperm) as (-> & Hatt).
  split; [reflexivity|].
  change (attempts ([Acquire message_semaphore; SmartDelay "message"]
                    ++ events (attempts_from 3 3 0)
                    ++ [Release message_semaphore]) = S k).
  rewrite !attempts_app.
  change (attempts [Acquire message_semaphore; SmartDelay "message"]) with 0.
  change (attempts [Release message_semaphore]) with 0. lia.
Qed.
End SendFacts.

(** ** Delete: what each failure class does to the loop *)

Section DeleteFacts.
Context {A : Type} `{Named A}.
Variable item : A.
Variable item_type : string.
Variable api : nat -> reply unit.
Variable max_retries : nat.

Let loop_from := delete_attempts item item_type api max_retries.

(** An iteration that is entered makes its attempt. *)
Lemma delete_attempts_positive (remaining attempt : nat) :
  0 < remaining -> 0 < attempts (events (loop_from remaining attempt)).
Proof.
  subst loop_from. destruct remaining as [|remaining]; [lia|]. intros _.
  simpl. rewrite events_bind.
  destruct (api attempt) as [[]|e0]; rewrite !events_bind; simpl;
    unfold attempts; simpl; lia.
Qed.

Ltac split_in Hin :=
  repeat (destruct Hin as [Hin|Hin]; try discriminate).

(** Status 404 at attempt [k]: success, and [k] was the last attempt. *)
Lemma delete_attempts_not_found (remaining attempt k : nat)
    (ra : option Q) :
  In (Call Delete (display_name item) k (Some (HTTPException 404 ra)))
     (events (loop_from remaining attempt)) ->
  result (loop_from remaining attempt) = true
  /\ attempts (events (loop_from remaining attempt)) + attempt = S k
  /\ count_event is_outcome_log (events (loop_from remaining attempt)) = 1.
Proof.
  subst loop_from. revert attempt.
  induction remaining as [|remaining IH]; intros attempt Hin; simpl in *.
  - contradiction.
  - destruct (api attempt) as [[]|[status rafter|]]; w_simpl_in Hin.
    + split_in Hin. contradiction.
    + destruct (status =? 429)%Z eqn:E429;
        [|destruct (status =? 404)%Z eqn:E404;
          [|destruct (attempt =? max_retries - 1)]];
        w_simpl_in Hin; w_simpl; split_in Hin;
        try contradiction;
        try (injection Hin as -> -> _; discriminate);
        try (injection Hin as -> ->; repeat split; reflexivity);
        destruct (IH _ Hin) as (Hres & Hatt & Hlog);
        (split; [assumption|]);
        unfold attempts, count_event in *; simpl; lia.
    + destruct (attempt =? max_retries - 1);
        w_simpl_in Hin; w_simpl; split_in Hin; try contradiction.
      destruct (IH _ Hin) as (Hres & Hatt & Hlog).
      split; [assumption|].
      unfold attempts, count_event in *; simpl; lia.
Qed.

(** A permanent failure at attempt [k]: the task fails there only when
    [k] is the last index of the range; before that, the loop goes on to
    a further attempt. *)
Lemma delete_attempts_permanent (remaining attempt k : nat) (e : exn) :
  In (Call Delete (display_name item) k (Some e))
     (events (loop_from remaining attempt)) ->
  permanent e = true ->
  remaining + attempt = max_retries ->
  (S k = max_retries ->
   result (loop_from remaining attempt) = false
   /\ attempts (events (loop_from remaining attempt)) + attempt = S k)
  /\ (S k < max_retries ->
      S k < attempts (events (loop_from remaining attempt)) + attempt).
Proof.
  revert attempt.
  induction remaining as [|remaining IH]; intros attempt Hin Hperm Hsum.
  - simpl in Hin. contradiction.
  - pose proof (delete_attempts_positive remaining (S attempt)) as Hpos.
    subst loop_from. simpl in *.
    destruct (api attempt) as [[]|[status rafter|]]; w_simpl_in Hin.
    + split_in Hin. contradiction.
    + destruct (status =? 429)%Z eqn:E429;
        [|destruct (status =? 404)%Z eqn:E404;
          [|destruct (Nat.eqb_spec attempt (max_retries - 1))]];
        w_simpl_in Hin; w_simpl; split_in Hin; try contradiction;
        try (injection Hin as -> <-);
        try (apply permanent_status in Hperm;
             destruct Hperm as (? & ? & ?); congruence).
      * destruct (IH (S attempt) Hin Hperm ltac:(lia)) as (IH1 & IH2).
        unfold attempts in *; simpl.
        split; intros Hk; [destruct (IH1 Hk); split; [assumption|lia]|].
        specialize (IH2 Hk). lia.
      * split; intros Hk; [split; reflexivity|lia].
      * unfold attempts in *; simpl.
        split; intros Hk; [lia|]. specialize (Hpos ltac:(lia)). lia.
      * destruct (IH (S attempt) Hin Hperm ltac:(lia)) as (IH1 & IH2).
        unfold attempts in *; simpl.
        split; intros Hk; [destruct (IH1 Hk); split; [assumption|lia]|].
        specialize (IH2 Hk). lia.
    + destruct (Nat.eqb_spec attempt (max_retries - 1));
        w_simpl_in Hin; w_simpl; split_in Hin; try contradiction;
        try (injection Hin as -> <-).
      * split; intros Hk; [split; reflexivity|lia].
      * unfold attempts in *; simpl.
        split; intros Hk; [lia|]. specialize (Hpos ltac:(lia)). lia.
      * destruct (IH (S attempt) Hin Hperm ltac:(lia)) as (IH1 & IH2).
        unfold attempts in *; simpl.
        split; intros Hk; [destruct (IH1 Hk); split; [assumption|lia]|].
        specialize (IH2 Hk). lia.
Qed.

(** An iteration that is entered opens with the permit and the call. *)
Lemma delete_attempts_head (remaining attempt : nat) :
  exists r post,
    events (loop_from (S remaining) attempt)
    = Acquire semaphore :: Call Delete (display_name item) attempt r :: post.
Proof.
  subst loop_from. simpl.
  destruct (api attempt) as [[]|e0]; w_simpl; eauto.
Qed.

(** A permanent failure at attempt [k], in the trace: at the last index it
    is followed by the release of the permit and the error line, and the
    trace ends there; before the last index these are followed by the
    0.5 s sleep and by attempt [k + 1], under a permit taken anew. *)
Lemma delete_attempts_permanent_trace (remaining attempt k : nat) (e : exn) :
  In (Call Delete (display_name item) k (Some e))
     (events (loop_from remaining attempt)) ->
  permanent e = true ->
  remaining + attempt = max_retries ->
  (S k = max_retries ->
   exists pre,
     events (loop_from remaining attempt)
     = pre ++ [ Call Delete (display_name item) k (Some e);
                Release semaphore;
                Log ERROR (delete_error_log item_type (display_name item) e) ])
  /\ (S k < max_retries ->
      exists pre post r,
        events (loop_from remaining attempt)
        = pre ++ Call Delete (display_name item) k (Some e)
              :: Release semaphore
              :: Log ERROR (delete_error_log item_type (display_name item) e)
              :: Sleep RetryFloor
              :: Acquire semaphore
              :: Call Delete (display_name item) (S k) r :: post).
Proof.
  revert attempt.
  induction remaining as [|remaining IH]; intros attempt Hin Hperm Hsum.
  - simpl in Hin. contradiction.
  - pose proof (fun r => delete_attempts_head r (S attempt)) as Hhead.
    subst loop_from. simpl in Hin. simpl.
    destruct (api attempt) as [[]|[status rafter|]]; w_simpl_in Hin.
    + split_in Hin. contradiction.
    + destruct (status =? 429)%Z eqn:E429;
        [|destruct (status =? 404)%Z eqn:E404;
          [|destruct (Nat.eqb_spec attempt (max_retries - 1))]];
        w_simpl_in Hin; w_simpl; split_in Hin; try contradiction;
        try (injection Hin as -> <-);
        try (apply permanent_status in Hperm;
             destruct Hperm as (? & ? & ?); congruence).
      * destruct (IH (S attempt) Hin Hperm ltac:(lia)) as (IH1 & IH2).
        split; intros Hk.
        { destruct (IH1 Hk) as [pre ->].
          rewrite !app_comm_cons. eexists. reflexivity. }
        destruct (IH2 Hk) as (pre & post & r & ->).
        rewrite !app_comm_cons. do 3 eexists. reflexivity.
      * split; intros Hk; [|lia].
        exists [Acquire semaphore]. reflexivity.
      * split; intros Hk; [lia|].
        destruct remaining as [|remaining]; [lia|].
        destruct (Hhead remaining) as (r & post & ->).
        exists [Acquire semaphore], post, r. reflexivity.
      * destruct (IH (S attempt) Hin Hperm ltac:(lia)) as (IH1 & IH2).
        split; intros Hk.
        { destruct (IH1 Hk) as [pre ->].
          rewrite !app_comm_cons. eexists. reflexivity. }
        destruct (IH2 Hk) as (pre & post & r & ->).
        rewrite !app_comm_cons. do 3 eexists. reflexivity.
    + destruct (Nat.eqb_spec attempt (max_retries - 1));
        w_simpl_in Hin; w_simpl; split_in Hin; try contradiction;
        try (injection Hin as -> <-).
      * split; intros Hk; [|lia].
        exists [Acquire semaphore]. reflexivity.
      * split; intros Hk; [lia|].
        destruct remaining as [|remaining]; [lia|].
        destruct (Hhead remaining) as (r & post & ->).
        exists [Acquire semaphore], post, r. reflexivity.
      * destruct (IH (S attempt) Hin Hperm ltac:(lia)) as (IH1 & IH2).
        split; intros Hk.
        { destruct (IH1 Hk) as [pre ->].
          rewrite !app_comm_cons. eexists. reflexivity. }
        destruct (IH2 Hk) as (pre & post & r & ->).
        rewrite !app_comm_cons. do 3 eexists. reflexivity.
Qed.
End DeleteFacts.

(** ** The retry policy on permanent failures *)

(** C1, at a concrete input: a delete refused with status 403 at its first
    attempt and answered normally at its second.  The failure is classified
    [PermanentClient], yet the task is not abandoned at attempt 0: it makes
    a second attempt and returns [True]. *)
Lemma delete_retries_after_permanent_failure :
  In (Call Delete "r1" 0 (Some forbidden))
     (events (delete_with_retry "r1" "role" forbidden_then_ok))
  /\ classify forbidden = PermanentClient
  /\ result (delete_with_retry "r1" "role" forbidden_then_ok) = true
  /\ attempts (events (delete_with_retry "r1" "role" forbidden_then_ok)) = 2
  /\ ~ abandoned_at negb (delete_with_retry "r1" "role" forbidden_then_ok) 0.
Proof.
  repeat split; try reflexivity.
  - simpl; auto.
  - intros [Hres _]. vm_compute in Hres. discriminate.
Qed.

(** C1, amended: a failure classified [PermanentClient] or [UnknownError]
    at attempt [k] ends a Create and a Send task at once, as a failure and
    with no attempt after [k].  A Delete task fails on it only at the last
    index of its range ([k = 2]), where the trace ends with the failed call,
    the release of the permit and the error line.  At an earlier index the
    failed call is followed, in this order, by the release of the permit,
    the error line, the 0.5 s sleep, a permit taken anew and attempt
    [k + 1], whose outcome is open. *)
Theorem permanent_failure_policy (e : exn) (k : nat) :
  permanent e = true ->
  (forall (nm : string) (batch_id : nat) (api : nat -> reply TextChannel),
      In (Call Create nm k (Some e))
         (events (create_single_channel nm batch_id api)) ->
      abandoned_at is_None (create_single_channel nm batch_id api) k)
  /\ (forall (channel : TextChannel) (message_content : string)
        (msg_num wave : nat) (api : nat -> reply unit),
      In (Call Send (name channel) k (Some e))
         (events (send_message_to_channel channel message_content
                    msg_num wave api)) ->
      abandoned_at negb
        (send_message_to_channel channel message_content msg_num wave api) k)
  /\ (forall (A : Type) (N : Named A) (item : A) (item_type : string)
        (api : nat -> reply unit),
      In (Call Delete (display_name item) k (Some e))
         (events (delete_with_retry item item_type api)) ->
      (k = 2 ->
       abandoned_at negb (delete_with_retry item item_type api) k
       /\ exists pre,
            events (delete_with_retry item item_type api)
            = pre ++ [ Call Delete (display_name item) k (Some e);
                       Release semaphore;
                       Log ERROR
                         (delete_error_log item_type (display_name item) e) ])
      /\ (k < 2 ->
          S k < attempts (events (delete_with_retry item item_type api))
          /\ exists pre post r,
               events (delete_with_retry item item_type api)
               = pre ++ Call Delete (display_name item) k (Some e)
                     :: Release semaphore
                     :: Log ERROR
                          (delete_error_log item_type (display_name item) e)
                     :: Sleep RetryFloor
                     :: Acquire semaphore
                     :: Call Delete (display_name item) (S k) r :: post)).
Proof.
  intros Hperm. split; [|split].
  - intros nm batch_id api Hin. eapply create_permanent; eassumption.
  - intros channel message_content msg_num wave api Hin.
    eapply send_permanent; eassumption.
  - intros A N item item_type api Hin.
    destruct (delete_attempts_permanent item item_type api 3 3 0 k e
                Hin Hperm eq_refl) as (Hlast & Hnext).
    destruct (delete_attempts_permanent_trace item item_type api 3 3 0 k e
                Hin Hperm eq_refl) as (Tlast & Tnext).
    unfold abandoned_at, delete_with_retry, delete_with_retry_from in *.
    split; intros Hk.
    + split; [|apply Tlast; lia].
      destruct Hlast as (-> & Hatt); [lia|]. split; [reflexivity|lia].
    + split; [|apply Tnext; lia].
      specialize (Hnext ltac:(lia)). lia.
Qed.

Lemma permanent_failure_policy_witness :
  permanent forbidden = true
  /\ abandoned_at is_None
       (create_single_channel "general" 1 (always (Raises forbidden))) 0
  /\ 1 < attempts (events (delete_with_retry "r1" "role" forbidden_then_ok))
  /\ exists pre post r,
       events (delete_with_retry "r1" "role" forbidden_then_ok)
       = pre ++ Call Delete "r1" 0 (Some forbidden)
             :: Release semaphore
             :: Log ERROR (FailedTo Delete "r1" forbidden)
             :: Sleep RetryFloor
             :: Acquire semaphore
             :: Call Delete "r1" 1 r :: post.
Proof.
  destruct (permanent_failure_policy forbidden 0 eq_refl) as (Hc & _ & Hd).
  split; [reflexivity|]. split.
  - apply Hc. simpl. auto.
  - apply (Hd string Named_string "r1" "role" forbidden_then_ok).
    + simpl. auto.
    + apply Nat.lt_0_2.
Defined.

(** ** Delete of a resource that is already gone *)

Lemma classify_already_absent (e : exn) :
  classify e = AlreadyAbsent -> exists ra, e = HTTPException 404 ra.
Proof.
  destruct e as [status ra|]; [|discriminate]. unfold classify.
  destruct (status =? 429)%Z; [discriminate|].
  destruct (Z.eqb_spec status 404) as [->|]; [intros _; now exists ra|].
  destruct (server_error status); discriminate.
Qed.

(** C9, the report: the run of a guild whose deletes all find the resource
    gone and the run of the same guild whose deletes are all refused
    surface the same return value and the same status posts, while five
    deletes resolved in the first and none in the second.  So nothing the
    pipeline surfaces counts the resolved resources. *)
Lemma no_report_counts_resolved_deletes :
  ~ exists report, reports_resolved_deletes report.
Proof.
  intros [report Hreport].
  pose proof (Hreport emoji_gone_env None) as Hgone.
  pose proof (Hreport emoji_refused_env None) as Hrefused.
  vm_compute in Hgone, Hrefused. congruence.
Qed.

(** ** Where the permit is taken and the pacing consulted *)

Lemma create_attempts_body (nm : string) (batch_id : nat)
    (api : nat -> reply TextChannel) (mr remaining attempt : nat) :
  let body := events (create_attempts nm batch_id api mr remaining attempt) in
  ungated body = true
  /\ attempts body <= remaining
  /\ (0 < remaining -> 0 < attempts body).
Proof.
  revert attempt. induction remaining as [|remaining IH]; intros attempt.
  - repeat split; simpl; auto; lia.
  - specialize (IH (S attempt)). cbv zeta in *. simpl.
    destruct IH as (IHu & IHle & _).
    destruct (api attempt) as [ch|[status ra|]]; w_simpl;
      [| destruct (status =? 429)%Z; [|destruct (server_error status)];
         w_simpl |];
      unfold attempts in *; simpl; repeat split; auto; lia.
Qed.

Lemma send_attempts_body (channel : TextChannel) (msg_num wave : nat)
    (api : nat -> reply unit) (mr remaining attempt : nat) :
  let body :=
    events (send_attempts channel msg_num wave api mr remaining attempt) in
  ungated body = true
  /\ attempts body <= remaining
  /\ (0 < remaining -> 0 < attempts body).
Proof.
  revert attempt. induction remaining as [|remaining IH]; intros attempt.
  - repeat split; simpl; auto; lia.
  - specialize (IH (S attempt)). cbv zeta in *. simpl.
    destruct IH as (IHu & IHle & _).
    destruct (api attempt) as [[]|[status ra|]]; w_simpl;
      [| destruct (status =? 429)%Z; [|destruct (server_error status)];
         w_simpl |];
      unfold attempts in *; simpl; repeat split; auto; lia.
Qed.

Lemma delete_attempts_scoped (A : Type) (N : Named A) (item : A)
    (item_type : string) (api : nat -> reply unit)
    (max_retries remaining attempt : nat) :
  let t :=
    events (delete_attempts item item_type api max_retries
              remaining attempt) in
  scoped_per_attempt semaphore Outside t = true
  /\ count_event is_smart_delay t = 0
  /\ count_event is_acquire t = attempts t
  /\ count_event is_release t = attempts t.
Proof.
  revert attempt. induction remaining as [|remaining IH]; intros attempt.
  - repeat split.
  - specialize (IH (S attempt)). cbv zeta in *. simpl.
    destruct IH as (IHs & IHd & IHa & IHr).
    unfold count_event, attempts in *.
    destruct (api attempt) as [[]|[status ra|]]; w_simpl;
      [| destruct (status =? 429)%Z;
         [|destruct (status =? 404)%Z;
           [|destruct (attempt =? max_retries - 1)]]
       | destruct (attempt =? max_retries - 1)];
      w_simpl; repeat split; auto.
Qed.

(** C2, at a concrete input: a Create answered 429 at its first attempt and
    normally at its second.  The task makes two attempts under one permit
    and one pacing consultation. *)
Lemma create_takes_one_permit_for_two_attempts :
  attempts (events (create_single_channel "general" 1 limited_then_created))
  = 2
  /\ count_event is_acquire
       (events (create_single_channel "general" 1 limited_then_created)) = 1
  /\ count_event is_smart_delay
       (events (create_single_channel "general" 1 limited_then_created)) = 1
  /\ count_event is_release
       (events (create_single_channel "general" 1 limited_then_created)) = 1
  /\ ~ gated_and_paced_per_attempt
         (events (create_single_channel "general" 1 limited_then_created)).
Proof.
  repeat split; try reflexivity.
  intros (Hacq & _). vm_compute in Hacq. discriminate.
Qed.

(** C2, amended: a Create and a Send task take their permit once, consult
    the pacing once, make all their attempts (at most 5, at most 3) under
    that permit and release it when the task ends.  A Delete task takes a
    permit before each attempt and releases it after that attempt, and
    never consults the pacing. *)
Theorem permit_and_pacing_by_task :
  (forall (nm : string) (batch_id : nat) (api : nat -> reply TextChannel),
      exists body : trace,
        events (create_single_channel nm batch_id api)
        = Acquire channel_semaphore :: SmartDelay "channel"
          :: body ++ [Release channel_semaphore]
        /\ ungated body = true
        /\ 1 <= attempts body <= 5)
  /\ (forall (channel : TextChannel) (message_content : string)
        (msg_num wave : nat) (api : nat -> reply unit),
      exists body : trace,
        events (send_message_to_channel channel message_content
                  msg_num wave api)
        = Acquire message_semaphore :: SmartDelay "message"
          :: body ++ [Release message_semaphore]
        /\ ungated body = true
        /\ 1 <= attempts body <= 3)
  /\ (forall (A : Type) (N : Named A) (item : A) (item_type : string)
        (api : nat -> reply unit),
      let t := events (delete_with_retry item item_type api) in
      scoped_per_attempt semaphore Outside t = true
      /\ count_event is_smart_delay t = 0
      /\ count_event is_acquire t = attempts t
      /\ count_event is_release t = attempts t).
Proof.
  split; [|split].
  - intros nm batch_id api.
    exists (events (create_attempts nm batch_id api 5 5 0)).
    split; [apply create_single_channel_events|].
    destruct (create_attempts_body nm batch_id api 5 5 0) as (Hu & Hle & Hpos).
    split; [assumption|]. specialize (Hpos ltac:(lia)). lia.
  - intros channel message_content msg_num wave api.
    exists (events (send_attempts channel msg_num wave api 3 3 0)).
    split; [apply send_message_events|].
    destruct (send_attempts_body channel msg_num wave api 3 3 0)
      as (Hu & Hle & Hpos).
    split; [assumption|]. specialize (Hpos ltac:(lia)). lia.
  - intros A N item item_type api.
    apply delete_attempts_scoped.
Qed.

(** ** Role selection *)

Lemma insert_by_position_perm (r : Role) (l : list Role) :
  Permutation (insert_by_position r l) (r :: l).
Proof.
  induction l as [|r' l IH]; simpl; [reflexivity|].
  destruct (position r <? position r')%Z; [|reflexivity].
  rewrite IH. apply perm_swap.
Qed.

Lemma sort_by_position_reverse_perm (l : list Role) :
  Permutation (sort_by_position_reverse l) l.
Proof.
  induction l as [|r l IH]; simpl; [reflexivity|].
  rewrite insert_by_position_perm. now constructor.
Qed.

Lemma insert_by_position_hd (r r0 : Role) (l : list Role) :
  (position r <= position r0)%Z ->
  HdRel (fun a b => (position b <= position a)%Z) r0 l ->
  HdRel (fun a b => (position b <= position a)%Z) r0
    (insert_by_position r l).
Proof.
  intros Hle Hhd. destruct l as [|r' l]; simpl.
  - now constructor.
  - inversion Hhd; subst.
    destruct (position r <? position r')%Z; now constructor.
Qed.

Lemma insert_by_position_descending (r : Role) (l : list Role) :
  descending l -> descending (insert_by_position r l).
Proof.
  unfold descending. induction 1 as [|r' l Hsorted IH Hhd]; simpl.
  - repeat constructor.
  - destruct (Z.ltb_spec (position r) (position r')).
    + constructor; [assumption|].
      apply insert_by_position_hd; [lia|assumption].
    + constructor; [now constructor|]. constructor. lia.
Qed.

Lemma sort_by_position_reverse_descending (l : list Role) :
  descending (sort_by_position_reverse l).
Proof.
  induction l as [|r l IH]; simpl.
  - constructor.
  - now apply insert_by_position_descending.
Qed.

(** The sort is stable: the roles of one position keep their order. *)
Lemma insert_by_position_stable (p : Z) (r : Role) (l : list Role) :
  filter (fun x => (position x =? p)%Z) (insert_by_position r l)
  = filter (fun x => (position x =? p)%Z) (r :: l).
Proof.
  induction l as [|r' l IH]; [reflexivity|].
  cbn [insert_by_position].
  destruct (Z.ltb_spec (position r) (position r')); [|reflexivity].
  cbn [filter] in *. rewrite IH.
  destruct (Z.eqb_spec (position r) p), (Z.eqb_spec (position r') p);
    try reflexivity. lia.
Qed.

Lemma sort_by_position_reverse_stable (p : Z) (l : list Role) :
  filter (fun x => (position x =? p)%Z) (sort_by_position_reverse l)
  = filter (fun x => (position x =? p)%Z) l.
Proof.
  induction l as [|r l IH]; [reflexivity|].
  cbn [sort_by_position_reverse fold_right].
  rewrite insert_by_position_stable. cbn [filter].
  fold (sort_by_position_reverse l). now rewrite IH.
Qed.

Lemma descending_strict (l : list Role) :
  descending l -> NoDup (map position l) -> strictly_descending l.
Proof.
  unfold descending, strictly_descending.
  induction 1 as [|r l Hsorted IH Hhd]; intros Hnodup; [constructor|].
  simpl in Hnodup. inversion Hnodup as [|? ? Hnotin Hnodup']; subst.
  constructor; [now apply IH|].
  destruct Hhd as [|r' l' Hle]; constructor.
  simpl in Hnotin. lia.
Qed.

Lemma deletable_role_iff (g : Guild) (r : Role) :
  deletable_role g r = true <->
  role_name r <> "@everyone" /\ managed r = false
  /\ role_lt (guild_id g) r (me_top_role g) = true.
Proof.
  unfold deletable_role. rewrite !andb_true_iff, !negb_true_iff.
  rewrite <- not_true_iff_false, String.eqb_eq. tauto.
Qed.

Lemma roles_to_delete_In (g : Guild) (r : Role) :
  In r (roles_to_delete g) <->
  In r (roles g) /\ deletable_role g r = true.
Proof.
  unfold roles_to_delete. rewrite <- filter_In.
  split; apply Permutation_in;
    [|symmetry]; apply sort_by_position_reverse_perm.
Qed.

(** C5, at a concrete input: the caller's top role is at position 5; two
    deletable roles share position 3 and a younger role shares position 5.
    The role at position 5 is selected, and the two roles at position 3
    follow each other in the dispatch order. *)
Lemma tied_positions_not_strictly_descending :
  position (me_top_role tied_guild) = 5%Z
  /\ map position (roles_to_delete tied_guild) = [5; 3; 3]%Z
  /\ ~ strictly_descending (roles_to_delete tied_guild)
  /\ ~ selects_below_5 tied_guild.
Proof.
  split; [reflexivity|]. split; [reflexivity|]. split.
  - intros Hsorted. vm_compute in Hsorted.
    inversion Hsorted as [|? ? Htail _]; subst.
    inversion Htail as [|? ? _ Hhd]; subst.
    inversion Hhd as [|? ? Hlt]; subst. vm_compute in Hlt. discriminate.
  - intros Hsel.
    destruct (proj1 (Hsel (mk_role 10 "peers" false 5))) as (_ & _ & _ & Hlt).
    + vm_compute. auto.
    + vm_compute in Hlt. discriminate.
Qed.

(** C5, amended: for a caller whose top role is at position 5, the roles
    selected are exactly the roles of the guild that are not named
    [@everyone], not managed, and below the caller's top role in the role
    order; for a role other than the default role that is: at a position
    below 5, or at position 5 with a larger id than the top role.  They are
    dispatched by descending position, roles of one position in the order
    of the guild's role list; strictly descending when no two selected
    roles share a position. *)
Theorem role_selection (g : Guild) :
  position (me_top_role g) = 5%Z ->
  (forall r : Role,
      In r (roles_to_delete g) <->
      In r (roles g) /\ role_name r <> "@everyone" /\ managed r = false
      /\ role_lt (guild_id g) r (me_top_role g) = true)
  /\ (forall r : Role,
         role_id r <> guild_id g ->
         role_lt (guild_id g) r (me_top_role g) = true <->
         (position r < 5)%Z
         \/ (position r = 5%Z /\ (role_id (me_top_role g) < role_id r)%Z))
  /\ descending (roles_to_delete g)
  /\ (forall p : Z,
         filter (fun x => (position x =? p)%Z) (roles_to_delete g)
         = filter (fun x => (position x =? p)%Z)
             (filter (deletable_role g) (roles g)))
  /\ (NoDup (map position (roles_to_delete g)) ->
      strictly_descending (roles_to_delete g)).
Proof.
  intros Htop. split; [|split; [|split; [|split]]].
  - intros r. rewrite roles_to_delete_In, deletable_role_iff. tauto.
  - intros r Hid. unfold role_lt. rewrite Htop.
    destruct (Z.eqb_spec (role_id r) (guild_id g)); [contradiction|].
    destruct (Z.ltb_spec (position r) 5); [intuition|].
    destruct (Z.eqb_spec (position r) 5); rewrite ?Z.ltb_lt;
      intuition (try discriminate; try lia).
  - apply sort_by_position_reverse_descending.
  - intros p. apply sort_by_position_reverse_stable.
  - apply descending_strict, sort_by_position_reverse_descending.
Qed.

Lemma role_selection_witness :
  position (me_top_role sample_guild) = 5%Z
  /\ descending (roles_to_delete sample_guild)
  /\ strictly_descending (roles_to_delete sample_guild).
Proof.
  destruct (role_selection sample_guild eq_refl) as (_ & _ & Hd & _ & Hs).
  split; [reflexivity|]. split; [exact Hd|].
  apply Hs. vm_compute. repeat constructor; simpl; intuition discriminate.
Defined.

(** ** The requested names *)

(** C7: the creation phase requests 100 names; the first 50 are the 50
    names of the vocabulary, in order and as they are; the last 50 are the
    same 50 names, in order, each followed by [-2]; the 100 names are
    pairwise distinct. *)
Theorem requested_names_distinct :
  List.length channel_names = 50
  /\ List.length channels_to_create = 100
  /\ firstn 50 channels_to_create = channel_names
  /\ skipn 50 channels_to_create
     = map (fun nm => (nm ++ "-2")%string) channel_names
  /\ NoDup channels_to_create.
Proof.
  repeat split; try reflexivity.
  replace channels_to_create with (nodup string_dec channels_to_create)
    by (vm_compute; reflexivity).
  apply NoDup_nodup.
Qed.

(** ** The pipeline monad *)

Lemma gathers_app (c : op_class) (t t' : list pevent) :
  gathers c (t ++ t') = gathers c t ++ gathers c t'.
Proof.
  induction t as [|e t IH]; [reflexivity|]. simpl.
  destruct e; try assumption.
  destruct (op_class_eqb c c0); simpl; now rewrite IH.
Qed.

Lemma tasks_from_length {A B} (f : nat -> A -> W B) (i : nat) (l : list A) :
  List.length (tasks_from f i l) = List.length l.
Proof.
  revert i. induction l as [|x l IH]; intros i; simpl; [|rewrite IH];
    reflexivity.
Qed.

(** ** The creation phase *)

Section Provisioning.
Variable env : Env.
#[local] Open Scope p_scope.

Lemma create_batches_run (batch_nums : list nat)
    (all_channels : list TextChannel) :
  fst (create_batches env batch_nums all_channels)
  = Returns (all_channels ++ flat_map (batch_created env) batch_nums)
  /\ gathers Send (snd (create_batches env batch_nums all_channels)) = []
  /\ List.length
       (List.concat
          (gathers Create
             (snd (create_batches env batch_nums all_channels))))
     = List.length
         (flat_map
            (fun b => firstn batch_size (skipn b channels_to_create))
            batch_nums).
Proof.
  revert all_channels.
  induction batch_nums as [|b rest IH]; intros all_channels.
  - simpl. rewrite app_nil_r. auto.
  - cbn [create_batches flat_map].
    set (run := gather Create _ _).
    specialize (IH (all_channels ++ valid_channels
                      (map result
                         (tasks_from
                            (fun i nm =>
                               create_single_channel nm (b / batch_size + 1)
                                 (create_api env (b + i)))
                            0 (firstn batch_size
                                 (skipn b channels_to_create)))))).
    destruct IH as (IHr & IHs & IHc).
    unfold gather in run. subst run. cbn [pemit pbind fst snd].
    destruct (b + batch_size <? 100); cbn [pemit pret pbind];
      destruct (create_batches env rest _) as [r t];
      cbn [fst snd app] in *; subst r;
      rewrite ?app_nil_r; cbn [gathers op_class_eqb List.concat];
      rewrite ?gathers_app; cbn [gathers op_class_eqb app List.concat];
      rewrite ?IHs, <- ?app_assoc, !length_app, ?IHc, length_map,
        tasks_from_length;
      repeat split; reflexivity.
Qed.

Lemma valid_channels_app (l l' : list (option TextChannel)) :
  valid_channels (l ++ l') = valid_channels l ++ valid_channels l'.
Proof.
  induction l as [|[ch|] l IH]; simpl; [reflexivity| |assumption].
  now rewrite IH.
Qed.

(** The ten batches are the hundred requests, each once and in order. *)
Lemma batches_cover_requests :
  flat_map (batch_created env) (range_step 0 10 batch_size) = created env.
Proof.
  change (range_step 0 10 batch_size)
    with [0; 10; 20; 30; 40; 50; 60; 70; 80; 90].
  cbn [flat_map]. unfold batch_created, created.
  rewrite app_nil_r, <- !valid_channels_app. reflexivity.
Qed.
End Provisioning.

(** ** The flood phase *)

Section Flood.
Variable env : Env.
#[local] Open Scope p_scope.

Lemma flood_run (all_channels : list TextChannel) (message_content : string)
    (waves : list nat) :
  fst (flood env all_channels message_content waves) = Returns tt
  /\ gathers Send (snd (flood env all_channels message_content waves))
     = map (fun wave =>
              map events (wave_tasks env all_channels message_content wave))
         waves.
Proof.
  induction waves as [|wave rest (IHr & IHs)]; [split; reflexivity|].
  cbn [flood]. unfold gather. cbn [pemit pbind fst snd].
  destruct (wave <? 19); cbn [pemit pret pbind];
    destruct (flood env all_channels message_content rest) as [r t];
    cbn [fst snd app gathers op_class_eqb map] in *; subst r;
    rewrite IHs; split; reflexivity.
Qed.

Lemma waves_length (all_channels : list TextChannel)
    (message_content : string) (waves : list nat) :
  List.length
    (List.concat
       (map (fun wave =>
               map events
                 (wave_tasks env all_channels message_content wave))
          waves))
  = List.length waves * List.length all_channels.
Proof.
  induction waves as [|wave rest IH]; [reflexivity|].
  cbn [map List.concat List.length]. rewrite length_app, IH, length_map.
  unfold wave_tasks. rewrite tasks_from_length. reflexivity.
Qed.

Lemma send_target (channel : TextChannel) (message_content : string)
    (msg_num wave : nat) (api : nat -> reply unit) :
  target (events (send_message_to_channel channel message_content
                    msg_num wave api))
  = Some (name channel).
Proof.
  rewrite send_message_events. unfold target, calls.
  cbn [filter is_call send_attempts].
  destruct (api 0) as [[]|e]; rewrite events_bind; reflexivity.
Qed.

Lemma wave_targets (message_content : string) (wave : nat)
    (all_channels : list TextChannel) :
  map target
    (map events (wave_tasks env all_channels message_content wave))
  = map (fun ch => Some (name ch)) all_channels.
Proof.
  unfold wave_tasks.
  set (task := fun (i : nat) (channel : TextChannel) => _).
  assert (Htask : forall i ch, target (events (task i ch)) = Some (name ch))
    by (intros i ch; apply send_target).
  clearbody task. generalize 0 as i.
  induction all_channels as [|ch l IH]; intros i; [reflexivity|].
  cbn [tasks_from map]. now rewrite Htask, IH.
Qed.

(** The control flow of [create_announcement_channels] around its two
    loops. *)
Lemma provisioning_skeleton (bt : P (list TextChannel))
    (fl : list TextChannel -> P unit) (cs : list TextChannel) :
  fst bt = Returns cs ->
  fst (fl cs) = Returns tt ->
  try_except
    (pemit (PLog INFO TurboMode) ;;
     pemit (PLog INFO CreatingChannels) ;;
     all_channels <- bt ;;
     pemit (PLog INFO (CreatedCount (List.length all_channels))) ;;
     match all_channels with
     | [] => pemit (PLog ERROR NoChannelsCreated)
     | _ :: _ =>
         pemit (PLog INFO (TsunamiMode (List.length all_channels))) ;;
         fl all_channels ;;
         pemit (PLog INFO (MissionAccomplished (List.length all_channels * 20))) ;;
         pemit (PLog INFO FloodingCompleted)
     end)
    is_Exception
    (fun e => pemit (PLog ERROR (ErrorInTurboMode e)))
  = (Returns tt,
     PLog INFO TurboMode :: PLog INFO CreatingChannels
     :: snd bt
     ++ PLog INFO (CreatedCount (List.length cs))
     :: match cs with
        | [] => [PLog ERROR NoChannelsCreated]
        | _ :: _ =>
            PLog INFO (TsunamiMode (List.length cs))
            :: snd (fl cs)
            ++ [PLog INFO (MissionAccomplished (List.length cs * 20));
                PLog INFO FloodingCompleted]
        end).
Proof.
  destruct bt as [r batches]. cbn [fst snd]. intros -> Hfl.
  cbn [pemit pbind try_except app].
  destruct cs as [|ch chs]; [reflexivity|].
  destruct (fl (ch :: chs)) as [r waves].
  cbn [fst snd] in *. subst r. reflexivity.
Qed.

(** The run of [create_announcement_channels], phase by phase. *)
Lemma create_announcement_channels_run (invite_link : string) :
  create_announcement_channels env invite_link
  = (Returns tt,
     PLog INFO TurboMode :: PLog INFO CreatingChannels
     :: snd (create_batches env (range_step 0 10 batch_size) [])
     ++ PLog INFO (CreatedCount (List.length (created env)))
     :: match created env with
        | [] => [PLog ERROR NoChannelsCreated]
        | _ :: _ =>
            PLog INFO (TsunamiMode (List.length (created env)))
            :: snd (flood env (created env) (flood_message invite_link)
                      (seq 0 20))
            ++ [PLog INFO
                  (MissionAccomplished (List.length (created env) * 20));
                PLog INFO FloodingCompleted]
        end).
Proof.
  apply (provisioning_skeleton
           (create_batches env (range_step 0 10 batch_size) [])
           (fun l => flood env l (flood_message invite_link) (seq 0 20))).
  - rewrite <- batches_cover_requests.
    apply (create_batches_run env (range_step 0 10 batch_size) []).
  - apply flood_run.
Qed.
End Flood.

(** ** Provisioning: what is gathered *)

Lemma gathers_provisioning (c : op_class) (batches waves : list pevent)
    (cs : list TextChannel) (n n' n'' : nat) :
  gathers c
    (PLog INFO TurboMode :: PLog INFO CreatingChannels
     :: batches
     ++ PLog INFO (CreatedCount n)
     :: match cs with
        | [] => [PLog ERROR NoChannelsCreated]
        | _ :: _ =>
            PLog INFO (TsunamiMode n')
            :: waves
            ++ [PLog INFO (MissionAccomplished n'');
                PLog INFO FloodingCompleted]
        end)
  = gathers c batches
    ++ match cs with
       | [] => []
       | _ :: _ => gathers c waves
       end.
Proof.
  cbn [gathers]. rewrite gathers_app. cbn [gathers].
  destruct cs as [|ch chs]; cbn [gathers]; [reflexivity|].
  rewrite gathers_app. cbn [gathers]. now rewrite app_nil_r.
Qed.

Lemma provisioning_gathers (env : Env) (invite_link : string) (c : op_class) :
  gathers c (snd (create_announcement_channels env invite_link))
  = gathers c (snd (create_batches env (range_step 0 10 batch_size) []))
    ++ match created env with
       | [] => []
       | _ :: _ =>
           gathers c
             (snd (flood env (created env) (flood_message invite_link)
                     (seq 0 20)))
       end.
Proof.
  rewrite create_announcement_channels_run. cbn [snd].
  apply gathers_provisioning.
Qed.

Lemma nonempty_branch {A B} (l : list A) (n : nat) (x y : B) :
  List.length l = S n ->
  match l with [] => x | _ :: _ => y end = y.
Proof. destruct l; [discriminate|reflexivity]. Qed.

Lemma every_wave_targets (env : Env) (cs : list TextChannel)
    (message_content : string) (waves : list nat) :
  map (map target)
    (map (fun wave => map events (wave_tasks env cs message_content wave))
       waves)
  = repeat (map (fun ch => Some (name ch)) cs) (List.length waves).
Proof.
  induction waves as [|wave rest IH]; [reflexivity|].
  cbn [map List.length repeat]. now rewrite wave_targets, IH.
Qed.

(** C6: when 73 of the 100 creations succeed, the flood phase issues
    73 x 20 = 1460 Send tasks whatever the answers to the sends are, and
    each of its 20 waves has one Send task per created resource, in the
    order of creation: no resource is left out of a later wave. *)
Theorem flood_sends_to_every_created_resource (env : Env)
    (invite_link : string) :
  List.length (created env) = 73 ->
  tasks_issued Send (snd (create_announcement_channels env invite_link))
  = 1460
  /\ map (map target)
       (gathers Send (snd (create_announcement_channels env invite_link)))
     = repeat (map (fun ch => Some (name ch)) (created env)) 20.
Proof.
  intros Hlen. unfold tasks_issued.
  rewrite provisioning_gathers.
  destruct (create_batches_run env (range_step 0 10 batch_size) [])
    as (_ & -> & _).
  rewrite (nonempty_branch _ _ _ _ Hlen). cbn [app].
  destruct (flood_run env (created env) (flood_message invite_link)
              (seq 0 20)) as (_ & ->).
  split.
  - rewrite waves_length, length_seq, Hlen. reflexivity.
  - rewrite every_wave_targets, length_seq. reflexivity.
Qed.

Lemma flood_sends_to_every_created_resource_witness :
  List.length (created partial_env) = 73
  /\ tasks_issued Send
       (snd (create_announcement_channels partial_env "discord.gg/new"))
     = 1460.
Proof.
  assert (Hlen : List.length (created partial_env) = 73)
    by (vm_compute; reflexivity).
  split; [exact Hlen|].
  apply (flood_sends_to_every_created_resource partial_env "discord.gg/new").
  exact Hlen.
Defined.

(** ** Provisioning with nothing created *)

Lemma valid_channels_none {A} (f : A -> option TextChannel) (l : list A) :
  (forall x, In x l -> f x = None) -> valid_channels (map f l) = [].
Proof.
  induction l as [|x l IH]; intros Hnone; [reflexivity|].
  cbn [map valid_channels]. rewrite (Hnone x (or_introl eq_refl)).
  apply IH. intros y Hy. apply Hnone. now right.
Qed.

(** C8: when each of the 100 Create tasks fails, provisioning logs that
    no channel was created and returns at once: the run ends on that log
    line, 100 Create tasks were issued and no Send task. *)
Theorem provisioning_aborts_when_nothing_created (env : Env)
    (invite_link : string) :
  (forall i, i < 100 -> create_result env i = None) ->
  create_announcement_channels env invite_link
  = (Returns tt,
     PLog INFO TurboMode :: PLog INFO CreatingChannels
     :: snd (create_batches env (range_step 0 10 batch_size) [])
     ++ [PLog INFO (CreatedCount 0); PLog ERROR NoChannelsCreated])
  /\ tasks_issued Create (snd (create_announcement_channels env invite_link))
     = 100
  /\ tasks_issued Send (snd (create_announcement_channels env invite_link))
     = 0.
Proof.
  intros Hnone.
  assert (Hcreated : created env = []).
  { unfold created. apply valid_channels_none.
    intros i Hi. apply Hnone. apply in_seq in Hi. lia. }
  unfold tasks_issued. rewrite !provisioning_gathers.
  rewrite create_announcement_channels_run, Hcreated, !app_nil_r.
  destruct (create_batches_run env (range_step 0 10 batch_size) [])
    as (_ & Hsend & Hcreate).
  rewrite Hsend, Hcreate. repeat split.
Qed.

Lemma provisioning_aborts_when_nothing_created_witness :
  tasks_issued Create
    (snd (create_announcement_channels barren_env "discord.gg/new")) = 100
  /\ tasks_issued Send
       (snd (create_announcement_channels barren_env "discord.gg/new")) = 0.
Proof.
  apply (provisioning_aborts_when_nothing_created barren_env "discord.gg/new").
  intros i _. reflexivity.
Defined.

(** ** Teardown when the webhook listing is refused *)

Lemma delete_emojis_returns (env : Env) : fst (delete_emojis env) = Returns tt.
Proof. reflexivity. Qed.

Lemma delete_roles_returns (env : Env) : fst (delete_roles env) = Returns tt.
Proof. reflexivity. Qed.

Lemma delete_channels_returns (env : Env) :
  fst (delete_channels env) = Returns tt.
Proof. reflexivity. Qed.


(** The control flow of [cleanup_server] once the posts to the status sink
    go through and the webhook phase has returned. *)
Lemma teardown_skeleton (hooks emoji role chans : P unit)
    (provision : string -> P unit) (invite_link : option string)
    (truth : bool) (handler : exn -> P unit) :
  fst hooks = Returns tt ->
  fst emoji = Returns tt ->
  fst role = Returns tt ->
  fst chans = Returns tt ->
  (forall link, fst (provision link) = Returns tt) ->
  try_except
    (pemit (StatusSend CleanupInitiated None) ;;
     pemit (StatusSend DeletingWebhooks None) ;;
     hooks ;;
     pemit (StatusSend DeletingEmojis None) ;;
     emoji ;;
     pemit (StatusSend DeletingRoles None) ;;
     role ;;
     pemit (StatusSend DeletingChannels None) ;;
     pemit (PSleep (Seconds 2%Q)) ;;
     chans ;;
     match invite_link with
     | Some link => if truth then provision link else pret tt
     | None => pret tt
     end ;;
     pemit (PLog INFO CleanupCompleted))%P
    is_Exception handler
  = (Returns tt,
     StatusSend CleanupInitiated None :: StatusSend DeletingWebhooks None
     :: snd hooks
     ++ StatusSend DeletingEmojis None
     :: snd emoji
     ++ StatusSend DeletingRoles None
     :: snd role
     ++ StatusSend DeletingChannels None :: PSleep (Seconds 2%Q)
     :: snd chans
     ++ match invite_link with
        | Some link => if truth then snd (provision link) else []
        | None => []
        end
     ++ [PLog INFO CleanupCompleted]).
Proof.
  destruct hooks as [r1 t1], emoji as [r2 t2], role as [r3 t3],
    chans as [r4 t4].
  cbn [fst snd]. intros -> -> -> -> Hprov.
  cbn [pemit pbind try_except app].
  destruct invite_link as [link|]; [destruct truth|];
    try (specialize (Hprov link);
         destruct (provision link) as [r5 t5]; cbn [fst snd] in *; subst r5);
    cbn [pemit pret pbind try_except app]; rewrite ?app_nil_r;
    reflexivity.
Qed.

Lemma provisioning_returns (env : Env) (link : string) :
  fst (create_announcement_channels env link) = Returns tt.
Proof. now rewrite create_announcement_channels_run. Qed.

(** ** Scoped acquisition in the task coroutines *)

Lemma bracketed_ext (t : trace) (h h' : sem -> bool) :
  (forall s, h s = h' s) -> bracketed h t -> bracketed h' t.
Proof.
  revert h h'. induction t as [|e t IH]; intros h h' Hext; [trivial|].
  destruct e; simpl; try (apply IH; assumption).
  - intros [Hfree Hrest]. split; [now rewrite <- Hext|].
    eapply IH; [|eassumption]. intros s'. unfold set. now rewrite Hext.
  - intros [Hheld Hrest]. split; [now rewrite <- Hext|].
    eapply IH; [|eassumption]. intros s'. unfold set. now rewrite Hext.
Qed.

Lemma bracketed_ungated (body t : trace) (h : sem -> bool) :
  ungated body = true -> bracketed h t -> bracketed h (body ++ t).
Proof.
  induction body as [|e body IH]; intros Hbody Ht; [assumption|].
  simpl in Hbody. apply andb_true_iff in Hbody. destruct Hbody as [He Hbody].
  destruct e; simpl in *; try discriminate; now apply IH.
Qed.

Lemma delete_attempts_bracketed (A : Type) (N : Named A) (item : A)
    (item_type : string) (api : nat -> reply unit)
    (max_retries remaining attempt : nat) (h : sem -> bool) :
  h semaphore = false ->
  bracketed h
    (events (delete_attempts item item_type api max_retries
               remaining attempt)).
Proof.
  revert attempt h.
  induction remaining as [|remaining IH]; intros attempt h Hfree; [exact I|].
  assert (Hnext : bracketed (set (set h semaphore true) semaphore false)
                    (events (delete_attempts item item_type api max_retries
                               remaining (S attempt))))
    by (apply IH; reflexivity).
  simpl.
  destruct (api attempt) as [[]|[status ra|]]; w_simpl;
    [| destruct (status =? 429)%Z;
       [|destruct (status =? 404)%Z;
         [|destruct (attempt =? max_retries - 1)]]
     | destruct (attempt =? max_retries - 1)];
    w_simpl; repeat split; auto.
Qed.

Lemma create_single_channel_bracketed (nm : string) (batch_id : nat)
    (api : nat -> reply TextChannel) :
  bracketed (fun _ => false) (events (create_single_channel nm batch_id api)).
Proof.
  rewrite create_single_channel_events.
  split; [reflexivity|]. cbn [bracketed].
  apply bracketed_ungated; [apply create_attempts_body|].
  split; [reflexivity|exact I].
Qed.

Lemma send_message_to_channel_bracketed (channel : TextChannel)
    (message_content : string) (msg_num wave : nat)
    (api : nat -> reply unit) :
  bracketed (fun _ => false)
    (events (send_message_to_channel channel message_content
               msg_num wave api)).
Proof.
  rewrite send_message_events.
  split; [reflexivity|]. cbn [bracketed].
  apply bracketed_ungated; [apply send_attempts_body|].
  split; [reflexivity|exact I].
Qed.

Lemma delete_with_retry_bracketed (A : Type) (N : Named A) (item : A)
    (item_type : string) (api : nat -> reply unit) :
  bracketed (fun _ => false) (events (delete_with_retry item item_type api)).
Proof. now apply delete_attempts_bracketed. Qed.

(** ** Every task of the pipeline is one of the three coroutines *)

Lemma scoped_pret {A} (a : A) : scoped_tasks (pret a).
Proof. constructor. Qed.

Lemma scoped_status (env : Env) (text : status_text) :
  scoped_tasks (status env text).
Proof.
  unfold status, await. destruct (status_send env text); constructor.
Qed.

Lemma scoped_sleep (d : delay) : scoped_tasks (pemit (PSleep d)).
Proof. constructor. Qed.

Lemma scoped_log (l : level) (m : pmessage) : scoped_tasks (pemit (PLog l m)).
Proof. constructor. Qed.

Lemma scoped_pbind {A B} (m : P A) (k : A -> P B) :
  scoped_tasks m -> (forall a, scoped_tasks (k a)) -> scoped_tasks (pbind m k).
Proof.
  unfold scoped_tasks, all_tasks. intros Hm Hk.
  destruct m as [[a|e] t]; [|exact Hm].
  specialize (Hk a). simpl in *. destruct (k a) as [r t']. simpl in *.
  rewrite flat_map_app. apply Forall_app. now split.
Qed.

Lemma scoped_try_except {A} (m : P A) (handles : exn -> bool)
    (handler : exn -> P A) :
  scoped_tasks m -> (forall e, scoped_tasks (handler e)) ->
  scoped_tasks (try_except m handles handler).
Proof.
  unfold scoped_tasks, all_tasks. intros Hm Hh.
  destruct m as [[a|e] t]; [exact Hm|]. simpl in *.
  destruct (handles e); [|exact Hm].
  specialize (Hh e). destruct (handler e) as [r t']. simpl in *.
  rewrite flat_map_app. apply Forall_app. now split.
Qed.

Lemma scoped_gather {A B} (c : op_class) (f : nat -> A -> W B) (l : list A) :
  (forall i x, bracketed (fun _ => false) (events (f i x))) ->
  scoped_tasks (gather c f l).
Proof.
  intros Hf. unfold scoped_tasks, gather, all_tasks. simpl.
  rewrite app_nil_r. generalize 0 as i.
  induction l as [|x l IH]; intros i; simpl; constructor; auto.
Qed.

(** The syntax-directed rules above, as a hint database. *)
Create HintDb scoped discriminated.
#[local] Hint Resolve scoped_pret scoped_status scoped_sleep scoped_log
  scoped_gather delete_with_retry_bracketed create_single_channel_bracketed
  send_message_to_channel_bracketed : scoped.
#[local] Hint Extern 2 (scoped_tasks (pbind _ _)) =>
  apply scoped_pbind; [|intro] : scoped.
#[local] Hint Extern 2 (scoped_tasks (try_except _ _ _)) =>
  apply scoped_try_except; [|intro] : scoped.

Lemma scoped_delete_webhooks (env : Env) : scoped_tasks (delete_webhooks env).
Proof.
  unfold delete_webhooks. apply scoped_try_except; [|auto with scoped].
  apply scoped_pbind; [|auto 6 with scoped].
  unfold await. destruct (webhooks env); constructor.
Qed.

Lemma scoped_create_batches (env : Env) (batch_nums : list nat)
    (all_channels : list TextChannel) :
  scoped_tasks (create_batches env batch_nums all_channels).
Proof.
  revert all_channels.
  induction batch_nums as [|b rest IH]; intros all_channels;
    cbn [create_batches]; [auto with scoped|].
  apply scoped_pbind; [auto with scoped|intros _].
  apply scoped_pbind; [auto with scoped|intros results].
  apply scoped_pbind; [destruct (b + batch_size <? 100); auto with scoped|].
  intros _. apply IH.
Qed.

Lemma scoped_flood (env : Env) (all_channels : list TextChannel)
    (message_content : string) (waves : list nat) :
  scoped_tasks (flood env all_channels message_content waves).
Proof.
  induction waves as [|wave rest IH]; cbn [flood]; [auto with scoped|].
  apply scoped_pbind; [auto with scoped|intros _].
  apply scoped_pbind; [auto with scoped|intros _].
  apply scoped_pbind; [destruct (wave <? 19); auto 6 with scoped|].
  intros _. apply IH.
Qed.

Lemma scoped_create_announcement_channels (env : Env) (link : string) :
  scoped_tasks (create_announcement_channels env link).
Proof.
  unfold create_announcement_channels.
  apply scoped_try_except; [|auto with scoped].
  do 2 (apply scoped_pbind; [auto with scoped|intros _]).
  apply scoped_pbind; [apply scoped_create_batches|intros all_channels].
  apply scoped_pbind; [auto with scoped|intros _].
  destruct all_channels as [|ch chs]; [auto with scoped|].
  apply scoped_pbind; [auto with scoped|intros _].
  apply scoped_pbind; [apply scoped_flood|intros _].
  auto with scoped.
Qed.

Lemma scoped_cleanup_server (env : Env) (invite_link : option string) :
  scoped_tasks (cleanup_server env invite_link).
Proof.
  unfold cleanup_server, delete_emojis, delete_roles, delete_channels.
  apply scoped_try_except; [|auto 8 with scoped].
  do 2 (apply scoped_pbind; [auto with scoped|intros _]).
  apply scoped_pbind; [apply scoped_delete_webhooks|intros _].
  apply scoped_pbind; [auto with scoped|intros _].
  apply scoped_pbind; [auto 6 with scoped|intros _].
  apply scoped_pbind; [auto with scoped|intros _].
  apply scoped_pbind; [auto 6 with scoped|intros _].
  do 2 (apply scoped_pbind; [auto with scoped|intros _]).
  apply scoped_pbind; [auto 8 with scoped|intros _].
  apply scoped_pbind; [|auto with scoped].
  destruct invite_link as [link|]; [|auto with scoped].
  destruct (truthy (Some link)); [|auto with scoped].
  apply scoped_create_announcement_channels.
Qed.

(** ** The permit pools never exceed their capacity *)

Lemma sem_eqb_spec (s s' : sem) : reflect (s = s') (sem_eqb s s').
Proof. destruct s, s'; constructor; congruence. Qed.

Lemma holders_split (v : sem -> nat) (before after : list task) (tk : task)
    (s : sem) :
  holders {| value := v; tasks := before ++ tk :: after |} s
  = List.length (filter (fun t => holds t s) before)
    + (if holds tk s then 1 else 0)
    + List.length (filter (fun t => holds t s) after).
Proof.
  unfold holders. cbn [tasks]. rewrite filter_app, length_app.
  cbn [filter]. destruct (holds tk s); simpl; lia.
Qed.

Lemma step_balanced (l l' : loop) : balanced l -> step l l' -> balanced l'.
Proof.
  intros [Hsum Htasks] Hstep.
  destruct Hstep as [before after tk e rest v v' h' Htodo Hperform].
  cbn [tasks value] in *.
  apply Forall_app in Htasks. destruct Htasks as [Hbefore Htk].
  inversion Htk as [|? ? Hbr Hafter]; subst. rewrite Htodo in Hbr.
  assert (Hgoal :
            (forall s,
                v' s + (if h' s then 1 else 0)
                = v s + (if holds tk s then 1 else 0))
            /\ bracketed h' rest).
  { destruct e; simpl in Hperform, Hbr;
      try (injection Hperform as <- <-; split; [reflexivity|assumption]).
    - destruct (Nat.eqb_spec (v s) 0); [discriminate|].
      injection Hperform as <- <-. destruct Hbr as [Hfree Hbr].
      split; [|assumption]. intros s'. unfold set.
      destruct (sem_eqb_spec s s') as [<-|]; [|reflexivity].
      rewrite Hfree. lia.
    - injection Hperform as <- <-. destruct Hbr as [Hheld Hbr].
      split; [|assumption]. intros s'. unfold set.
      destruct (sem_eqb_spec s s') as [<-|]; [|reflexivity].
      rewrite Hheld. lia. }
  destruct Hgoal as [Hcount Hrest]. split.
  - intros s. specialize (Hsum s). specialize (Hcount s).
    rewrite holders_split in Hsum. rewrite holders_split.
    cbn [holds value] in *. lia.
  - cbn [tasks]. apply Forall_app. split; [assumption|].
    constructor; assumption.
Qed.

Lemma start_balanced (runs : list trace) :
  Forall (bracketed (fun _ => false)) runs -> balanced (start runs).
Proof.
  intros Hruns. split.
  - intros s. unfold holders, start. cbn [value tasks].
    replace (filter _ _) with (@nil task); [simpl; lia|].
    induction runs as [|t runs IH]; [reflexivity|].
    inversion Hruns; subst. simpl. auto.
  - unfold start. cbn [tasks]. induction Hruns; simpl; constructor; auto.
Qed.

Lemma reachable_balanced (l0 l : loop) :
  balanced l0 -> reachable l0 l -> balanced l.
Proof.
  intros Hstart Hreach. induction Hreach as [|l l' _ IH Hstep];
    [assumption|]. eapply step_balanced; eassumption.
Qed.

(** ** Pacing under concurrency *)

(** C4, at a concrete input: three Create coroutines of one batch enter
    [smart_delay] in the same loop turn of a fresh [ServerCleanup], jitter
    left out.  The first dispatches at once; the other two both read the
    [last_request_time] it wrote, both sleep 100 ms, and both dispatch at
    the same instant. *)
Lemma same_turn_creates_dispatch_together :
  match Pacing.run same_turn_schedule
          (Pacing.start batch_start three_creates) with
  | Some l =>
      Pacing.dispatches "channel" (Pacing.coroutines l)
      = [batch_start; batch_start + 100; batch_start + 100]%Z
      /\ Pacing.paced l = false
  | None => False
  end.
Proof. split; reflexivity. Qed.

(** With the jitter in: whatever the two jitters in [0, 10] ms and
    whichever the operation type, the two sleepers, each resumed at its
    deadline, dispatch [j2 - j1] apart, which is less than the minimum
    interval. *)
Lemma sleepers_dispatch_within_jitter (operation_type : string) (j1 j2 : Z) :
  (0 <= j1 <= j2)%Z -> (j2 <= 10)%Z ->
  exists l : Pacing.loop,
    Pacing.run (deadline_schedule operation_type j1 j2)
      (Pacing.start batch_start (three_of operation_type j1 j2))
    = Some l
    /\ Pacing.dispatches operation_type (Pacing.coroutines l)
       = [ batch_start;
           batch_start + Pacing.min_interval operation_type + j1;
           batch_start + Pacing.min_interval operation_type + j2 ]%Z
    /\ Pacing.spaced (Pacing.min_interval operation_type)
         (Pacing.dispatches operation_type (Pacing.coroutines l))
       = false.
Proof.
  intros Hj1 Hj2.
  assert (Hmin : Pacing.min_interval operation_type = 100%Z
                 \/ Pacing.min_interval operation_type = 20%Z)
    by (unfold Pacing.min_interval;
        destruct (String.eqb operation_type "channel"); auto).
  set (m := Pacing.min_interval operation_type) in *.
  assert (Hseen :
            Pacing.dispatches operation_type
              [ Pacing.Dispatched operation_type batch_start;
                Pacing.Dispatched operation_type (batch_start + (m + j1));
                Pacing.Dispatched operation_type
                  (batch_start + (m + j1) + (j2 - j1)) ]
            = [ batch_start; batch_start + m + j1; batch_start + m + j2 ]%Z).
  { cbn [Pacing.dispatches]. rewrite String.eqb_refl.
    f_equal. f_equal; [lia|]. f_equal. lia. }
  eexists. split; [|split].
  - unfold deadline_schedule, three_of, Pacing.start.
    cbn [Pacing.run Pacing.step Pacing.coroutines nth_error Pacing.clock
         Pacing.last_request_time Pacing.update].
    unfold Pacing.smart_delay. fold m.
    replace (batch_start - 0 <? m)%Z with false
      by (symmetry; apply Z.ltb_ge; unfold batch_start; lia).
    cbn [Pacing.run Pacing.step Pacing.coroutines nth_error Pacing.clock
         Pacing.last_request_time Pacing.update].
    unfold Pacing.smart_delay. fold m.
    replace (batch_start - batch_start <? m)%Z with true
      by (symmetry; apply Z.ltb_lt; lia).
    cbn [Pacing.run Pacing.step Pacing.coroutines nth_error Pacing.clock
         Pacing.last_request_time Pacing.update].
    unfold Pacing.smart_delay. fold m.
    replace (batch_start - batch_start <? m)%Z with true
      by (symmetry; apply Z.ltb_lt; lia).
    cbn [Pacing.run Pacing.step Pacing.coroutines nth_error Pacing.clock
         Pacing.last_request_time Pacing.update].
    fold m.
    replace (0 <=? m + j1)%Z with true by (symmetry; apply Z.leb_le; lia).
    cbn [Pacing.run Pacing.step Pacing.coroutines nth_error Pacing.clock
         Pacing.last_request_time Pacing.update].
    replace (batch_start + (m - (batch_start - batch_start) + j1)
             <=? batch_start + (m + j1))%Z
      with true by (symmetry; apply Z.leb_le; lia).
    replace (0 <=? j2 - j1)%Z with true by (symmetry; apply Z.leb_le; lia).
    cbn [Pacing.run Pacing.step Pacing.coroutines nth_error Pacing.clock
         Pacing.last_request_time Pacing.update].
    replace (batch_start + (m - (batch_start - batch_start) + j2)
             <=? batch_start + (m + j1) + (j2 - j1))%Z
      with true by (symmetry; apply Z.leb_le; lia).
    reflexivity.
  - cbn [Pacing.coroutines]. exact Hseen.
  - cbn [Pacing.coroutines]. rewrite Hseen.
    cbn [Pacing.spaced forallb].
    replace (m <=? Z.abs (batch_start + m + j1 - (batch_start + m + j2)))%Z
      with false by (symmetry; apply Z.leb_gt; lia).
    now rewrite !andb_false_r.
Qed.

(** * Further properties of the retry loops *)

Lemma existsb_app_events (p : event -> bool) (t t' : trace) :
  existsb p (t ++ t') = existsb p t || existsb p t'.
Proof. apply existsb_app. Qed.

(** ** Delete *)

Section DeleteLoop.
Context {A : Type} `{Named A}.
Variable item : A.
Variable item_type : string.
Variable api : nat -> reply unit.
Variable max_retries : nat.

Let loop_from := delete_attempts item item_type api max_retries.

Lemma delete_attempts_count (remaining attempt : nat) :
  attempts (events (loop_from remaining attempt)) <= remaining
  /\ count_event is_retry_floor (events (loop_from remaining attempt))
     <= attempts (events (loop_from remaining attempt))
  /\ attempts (events (loop_from remaining attempt))
     <= S (count_event is_retry_floor (events (loop_from remaining attempt))).
Proof.
  subst loop_from. revert attempt.
  induction remaining as [|remaining IH]; intros attempt.
  - cbn. lia.
  - specialize (IH (S attempt)). simpl.
    unfold count_event, attempts in *.
    destruct (api attempt) as [[]|[status ra|]]; w_simpl;
      [| destruct (status =? 429)%Z;
         [|destruct (status =? 404)%Z;
           [|destruct (attempt =? max_retries - 1)]]
       | destruct (attempt =? max_retries - 1)];
      w_simpl; lia.
Qed.

Lemma delete_attempts_resolved (remaining attempt : nat) :
  result (loop_from remaining attempt)
  = existsb resolved (events (loop_from remaining attempt)).
Proof.
  subst loop_from. revert attempt.
  induction remaining as [|remaining IH]; intros attempt; [reflexivity|].
  specialize (IH (S attempt)). simpl.
  destruct (api attempt) as [[]|[status ra|]]; w_simpl;
    [| destruct (status =? 429)%Z eqn:E429;
       [|destruct (status =? 404)%Z eqn:E404;
         [|destruct (attempt =? max_retries - 1)]]
     | destruct (attempt =? max_retries - 1)];
    w_simpl; rewrite ?E404; try reflexivity; try assumption.
  apply Z.eqb_eq in E429. subst status. simpl. assumption.
Qed.

Lemma delete_attempts_alternate (remaining attempt : nat) :
  floors_alternate false (events (loop_from remaining attempt)) = true.
Proof.
  subst loop_from. revert attempt.
  induction remaining as [|remaining IH]; intros attempt; [reflexivity|].
  specialize (IH (S attempt)). simpl.
  destruct (api attempt) as [[]|[status ra|]]; w_simpl;
    [| destruct (status =? 429)%Z;
       [|destruct (status =? 404)%Z;
         [|destruct (attempt =? max_retries - 1)]]
     | destruct (attempt =? max_retries - 1)];
    w_simpl; auto.
Qed.
End DeleteLoop.

(** X1: A delete makes at most [max_retries] attempts; with the default budget
    it makes at least one and at most three. *)
Theorem delete_attempts_within_budget (A : Type) (N : Named A) (item : A)
    (item_type : string) (api : nat -> reply unit) (max_retries : nat) :
  attempts (events (delete_with_retry_from item item_type api max_retries))
  <= max_retries
  /\ 1 <= attempts (events (delete_with_retry item item_type api)) <= 3.
Proof.
  split; [apply delete_attempts_count|].
  split; [apply (delete_attempts_positive item item_type api 3 3 0); lia|].
  apply (delete_attempts_count item item_type api 3 3 0).
Qed.

(** X2: In the trace of a delete, attempts and half-second sleeps take
    turns, an attempt first: between two attempts lies a half-second sleep,
    and a half-second sleep occurs only after an attempt, at most once per
    attempt.  So the half-second sleeps number as many as the attempts, or
    one less. *)
Theorem delete_floor_between_attempts (A : Type) (N : Named A) (item : A)
    (item_type : string) (api : nat -> reply unit) (max_retries : nat) :
  let t := events (delete_with_retry_from item item_type api max_retries) in
  floors_alternate false t = true
  /\ count_event is_retry_floor t <= attempts t
  /\ attempts t <= S (count_event is_retry_floor t).
Proof.
  cbv zeta. split; [apply delete_attempts_alternate|].
  apply delete_attempts_count.
Qed.

(** X3: A delete returns [True] exactly when one of its attempts went through
    or was answered with status 404. *)
Theorem delete_result_reflects_attempts (A : Type) (N : Named A) (item : A)
    (item_type : string) (api : nat -> reply unit) (max_retries : nat) :
  result (delete_with_retry_from item item_type api max_retries)
  = existsb resolved
      (events (delete_with_retry_from item item_type api max_retries)).
Proof. apply delete_attempts_resolved. Qed.

(** X4: A delete that is rate limited at each of its three attempts gives up:
    it returns [False], and its trace is three rounds of taking a permit,
    the refused call, giving the permit back, the warning, the sleep for
    the hint of the answer (1 s when the answer carries none) and the
    half-second sleep, the last round included. *)
Theorem delete_rate_limited_throughout (A : Type) (N : Named A) (item : A)
    (item_type : string) (api : nat -> reply unit) (ra : nat -> option Q) :
  (forall k, k < 3 -> api k = Raises (HTTPException 429 (ra k))) ->
  delete_with_retry item item_type api
  = (false,
     flat_map
       (fun k =>
          [ Acquire semaphore;
            Call Delete (display_name item) k
              (Some (HTTPException 429 (ra k)));
            Release semaphore;
            Log WARNING (RateLimitedLog (getattr_retry_after (ra k) 1%Q));
            Sleep (RetryAfter (getattr_retry_after (ra k) 1%Q));
            Sleep RetryFloor ])
       [0; 1; 2]).
Proof.
  intros Hlimited.
  unfold delete_with_retry, delete_with_retry_from.
  cbn [delete_attempts].
  rewrite (Hlimited 0), (Hlimited 1), (Hlimited 2) by lia.
  reflexivity.
Qed.

Lemma delete_rate_limited_throughout_witness :
  result (delete_with_retry "lobby" "channel" always_limited) = false
  /\ count_event is_sleep
       (events (delete_with_retry "lobby" "channel" always_limited)) = 6.
Proof.
  rewrite (delete_rate_limited_throughout string Named_string
             "lobby" "channel" always_limited (fun _ => None)).
  - split; reflexivity.
  - intros k _. reflexivity.
Defined.

(** ** Create and Send *)







(** * Further properties of the role selection *)

Lemma role_lt_irreflexive (gid : Z) (r : Role) : role_lt gid r r = false.
Proof.
  unfold role_lt. destruct (role_id r =? gid)%Z; [reflexivity|].
  rewrite Z.ltb_irrefl, Z.eqb_refl. apply Z.ltb_irrefl.
Qed.

(** X7: The delete tasks for roles are the selected roles, each once: a
    permutation of the roles that pass the test, by descending position,
    whatever the position of the caller's top role. *)
Theorem roles_dispatched_once_in_order (g : Guild) :
  Permutation (roles_to_delete g) (filter (deletable_role g) (roles g))
  /\ descending (roles_to_delete g)
  /\ (NoDup (roles g) -> NoDup (roles_to_delete g)).
Proof.
  split; [apply sort_by_position_reverse_perm|].
  split; [apply sort_by_position_reverse_descending|].
  intros Hnodup.
  apply (Permutation_NoDup
           (Permutation_sym (sort_by_position_reverse_perm _))).
  now apply NoDup_filter.
Qed.

(** X8: The caller's own top role is never selected, nor a managed role, nor a
    role named [@everyone]; and a selected role other than the default
    role is never above the caller's top role. *)
Theorem roles_to_delete_spares (g : Guild) :
  ~ In (me_top_role g) (roles_to_delete g)
  /\ (forall r : Role,
         In r (roles_to_delete g) ->
         In r (roles g) /\ managed r = false /\ role_name r <> "@everyone"
         /\ (role_id r <> guild_id g ->
             (position r <= position (me_top_role g))%Z)).
Proof.
  split.
  - intros Hin. apply roles_to_delete_In in Hin. destruct Hin as [_ Hdel].
    apply deletable_role_iff in Hdel. destruct Hdel as (_ & _ & Hlt).
    rewrite role_lt_irreflexive in Hlt. discriminate.
  - intros r Hin. apply roles_to_delete_In in Hin. destruct Hin as [Hin Hdel].
    apply deletable_role_iff in Hdel. destruct Hdel as (Hname & Hman & Hlt).
    repeat split; try assumption.
    intros Hid. unfold role_lt in Hlt.
    destruct (Z.eqb_spec (role_id r) (guild_id g)); [contradiction|].
    destruct (Z.ltb_spec (position r) (position (me_top_role g))); [lia|].
    destruct (Z.eqb_spec (position r) (position (me_top_role g)));
      [lia|discriminate].
Qed.

(** * Further properties of the pipeline *)

(** ** What a class of tasks is never gathered in *)

Lemma quiet_pret {A} (c : op_class) (a : A) : quiet c (pret a).
Proof. reflexivity. Qed.

Lemma quiet_status (c : op_class) (env : Env) (text : status_text) :
  quiet c (status env text).
Proof.
  unfold status, await. now destruct (status_send env text).
Qed.

Lemma quiet_sleep (c : op_class) (d : delay) : quiet c (pemit (PSleep d)).
Proof. reflexivity. Qed.

Lemma quiet_log (c : op_class) (l : level) (m : pmessage) :
  quiet c (pemit (PLog l m)).
Proof. reflexivity. Qed.

Lemma quiet_pbind {A B} (c : op_class) (m : P A) (k : A -> P B) :
  quiet c m -> (forall a, quiet c (k a)) -> quiet c (pbind m k).
Proof.
  unfold quiet. intros Hm Hk. destruct m as [[a|e] t]; [|exact Hm].
  specialize (Hk a). simpl in *. destruct (k a) as [r t']. simpl in *.
  now rewrite gathers_app, Hm, Hk.
Qed.

Lemma quiet_try_except {A} (c : op_class) (m : P A) (handles : exn -> bool)
    (handler : exn -> P A) :
  quiet c m -> (forall e, quiet c (handler e)) ->
  quiet c (try_except m handles handler).
Proof.
  unfold quiet. intros Hm Hh. destruct m as [[a|e] t]; [exact Hm|].
  simpl in *. destruct (handles e); [|exact Hm].
  specialize (Hh e). destruct (handler e) as [r t']. simpl in *.
  now rewrite gathers_app, Hm, Hh.
Qed.

Lemma quiet_gather {A B} (c c' : op_class) (f : nat -> A -> W B)
    (l : list A) :
  op_class_eqb c c' = false -> quiet c (gather c' f l).
Proof. unfold quiet, gather. simpl. now intros ->. Qed.

Create HintDb quiet discriminated.
#[local] Hint Resolve quiet_pret quiet_status quiet_sleep quiet_log : quiet.
#[local] Hint Extern 1 (quiet _ (gather _ _ _)) =>
  apply quiet_gather; reflexivity : quiet.
#[local] Hint Extern 2 (quiet _ (pbind _ _)) =>
  apply quiet_pbind; [|intro] : quiet.
#[local] Hint Extern 2 (quiet _ (try_except _ _ _)) =>
  apply quiet_try_except; [|intro] : quiet.

Lemma quiet_delete_webhooks (c : op_class) (env : Env) :
  op_class_eqb c Delete = false -> quiet c (delete_webhooks env).
Proof.
  intros Hc. unfold delete_webhooks.
  apply quiet_try_except; [|auto with quiet].
  apply quiet_pbind; [unfold await; now destruct (webhooks env)|].
  intros hooks. apply quiet_pbind; [now apply quiet_gather|auto with quiet].
Qed.

Lemma quiet_teardown_phases (c : op_class) (env : Env) :
  op_class_eqb c Delete = false ->
  quiet c (delete_emojis env) /\ quiet c (delete_roles env)
  /\ quiet c (delete_channels env).
Proof.
  intros Hc. unfold delete_emojis, delete_roles, delete_channels.
  repeat split;
    repeat (apply quiet_pbind; [now apply quiet_gather|intro]);
    apply quiet_pret.
Qed.

Lemma quiet_create_batches (env : Env) (c : op_class)
    (batch_nums : list nat) (all_channels : list TextChannel) :
  op_class_eqb c Create = false ->
  quiet c (create_batches env batch_nums all_channels).
Proof.
  intros Hc. revert all_channels.
  induction batch_nums as [|b rest IH]; intros all_channels;
    cbn [create_batches]; [apply quiet_pret|].
  apply quiet_pbind; [apply quiet_log|intros _].
  apply quiet_pbind; [now apply quiet_gather|intros results].
  apply quiet_pbind;
    [destruct (b + batch_size <? 100); auto with quiet|].
  intros _. apply IH.
Qed.

Lemma quiet_flood (env : Env) (c : op_class) (all_channels : list TextChannel)
    (message_content : string) (waves : list nat) :
  op_class_eqb c Send = false ->
  quiet c (flood env all_channels message_content waves).
Proof.
  intros Hc. induction waves as [|wave rest IH]; cbn [flood];
    [apply quiet_pret|].
  apply quiet_pbind; [apply quiet_log|intros _].
  apply quiet_pbind; [now apply quiet_gather|intros _].
  apply quiet_pbind; [destruct (wave <? 19); auto 6 with quiet|].
  intros _. apply IH.
Qed.

Lemma quiet_create_announcement_channels (env : Env) (link : string) :
  quiet Delete (create_announcement_channels env link).
Proof.
  unfold create_announcement_channels.
  apply quiet_try_except; [|auto with quiet].
  do 2 (apply quiet_pbind; [apply quiet_log|intros _]).
  apply quiet_pbind; [now apply quiet_create_batches|intros all_channels].
  apply quiet_pbind; [apply quiet_log|intros _].
  destruct all_channels as [|ch chs]; [apply quiet_log|].
  apply quiet_pbind; [apply quiet_log|intros _].
  apply quiet_pbind; [now apply quiet_flood|intros _].
  auto with quiet.
Qed.

(** ** Errors of the pipeline itself *)

Lemma try_except_returns {A} (m : P A) (handler : exn -> P A) (a : A) :
  (forall x, fst m = Returns x -> x = a) ->
  (forall e, fst (handler e) = Returns a) ->
  fst (try_except m is_Exception handler) = Returns a.
Proof.
  intros Hm Hh. destruct m as [[x|e] t]; simpl.
  - f_equal. now apply Hm.
  - specialize (Hh e). destruct (handler e) as [r t']. exact Hh.
Qed.

(** X9: [cleanup_server] and [create_announcement_channels] return normally
    whatever the remote calls answer: every exception is caught, also one
    raised while the error itself is being reported. *)
Theorem pipeline_never_raises (env : Env) (invite_link : option string)
    (link : string) :
  fst (cleanup_server env invite_link) = Returns tt
  /\ fst (create_announcement_channels env link) = Returns tt.
Proof.
  split; [|apply provisioning_returns].
  unfold cleanup_server. apply try_except_returns.
  - now intros [].
  - intros e. cbn [pemit pbind]. unfold status, await.
    destruct (status_send env (ErrorDuringCleanup e)) as [[]|x]; reflexivity.
Qed.

(** X10: When the webhook listing fails with anything but a 403, the run stops
    there: no delete task is issued for any resource, the error is logged
    and posted once to the status sink, and the run returns. *)
Theorem listing_error_aborts_teardown (env : Env)
    (invite_link : option string) (e : exn) :
  webhooks env = Raises e ->
  is_Forbidden e = false ->
  status_send env CleanupInitiated = Returns tt ->
  status_send env DeletingWebhooks = Returns tt ->
  cleanup_server env invite_link
  = (Returns tt,
     [ StatusSend CleanupInitiated None;
       StatusSend DeletingWebhooks None;
       ListWebhooks (Some e);
       PLog ERROR (ErrorDuringCleanupLog e);
       StatusSend (ErrorDuringCleanup e)
         (raised (status_send env (ErrorDuringCleanup e))) ]).
Proof.
  intros Hlist Hforbidden Hinit Hhooks.
  unfold cleanup_server, status, delete_webhooks.
  rewrite Hinit, Hhooks, Hlist.
  cbn [await pemit pbind try_except app]. rewrite Hforbidden.
  cbn [pbind try_except is_Exception app].
  destruct (status_send env (ErrorDuringCleanup e)) as [[]|x]; reflexivity.
Qed.

Lemma listing_error_aborts_teardown_witness :
  all_tasks (snd (cleanup_server listing_broken_env None)) = []
  /\ fst (cleanup_server listing_broken_env None) = Returns tt.
Proof.
  rewrite (listing_error_aborts_teardown listing_broken_env None
             (HTTPException 500 None) eq_refl eq_refl eq_refl eq_refl).
  split; reflexivity.
Defined.

(** X11: When the first post to the status sink fails, nothing at all is
    deleted or created: the run logs the error, tries to post it, and
    returns. *)
Theorem nothing_runs_without_first_post (env : Env)
    (invite_link : option string) (e : exn) :
  status_send env CleanupInitiated = Raises e ->
  cleanup_server env invite_link
  = (Returns tt,
     [ StatusSend CleanupInitiated (Some e);
       PLog ERROR (ErrorDuringCleanupLog e);
       StatusSend (ErrorDuringCleanup e)
         (raised (status_send env (ErrorDuringCleanup e))) ]).
Proof.
  intros Hinit. unfold cleanup_server, status. rewrite Hinit.
  cbn [await pemit pbind try_except is_Exception app].
  destruct (status_send env (ErrorDuringCleanup e)) as [[]|x]; reflexivity.
Qed.

Lemma nothing_runs_without_first_post_witness :
  all_tasks (snd (cleanup_server muted_env (Some "discord.gg/new"))) = [].
Proof.
  rewrite (nothing_runs_without_first_post muted_env (Some "discord.gg/new")
             forbidden eq_refl).
  reflexivity.
Defined.

(** X12: Without an invite link, or with the empty string for one, a run
    creates no channel and sends no message, whatever the remote calls
    answer. *)
Theorem no_provisioning_without_link (env : Env)
    (invite_link : option string) :
  truthy invite_link = false ->
  tasks_issued Create (snd (cleanup_server env invite_link)) = 0
  /\ tasks_issued Send (snd (cleanup_server env invite_link)) = 0.
Proof.
  intros Hlink.
  assert (Hquiet : forall c, op_class_eqb c Delete = false ->
                             quiet c (cleanup_server env invite_link)).
  { intros c Hc. unfold cleanup_server.
    destruct (quiet_teardown_phases c env Hc) as (He & Hr & Hch).
    apply quiet_try_except; [|auto 8 with quiet].
    do 2 (apply quiet_pbind; [apply quiet_status|intros _]).
    apply quiet_pbind; [now apply quiet_delete_webhooks|intros _].
    apply quiet_pbind; [apply quiet_status|intros _].
    apply quiet_pbind; [exact He|intros _].
    apply quiet_pbind; [apply quiet_status|intros _].
    apply quiet_pbind; [exact Hr|intros _].
    apply quiet_pbind; [apply quiet_status|intros _].
    apply quiet_pbind; [apply quiet_sleep|intros _].
    apply quiet_pbind; [exact Hch|intros _].
    apply quiet_pbind; [|auto with quiet].
    destruct invite_link as [link|]; [|apply quiet_pret].
    rewrite Hlink. apply quiet_pret. }
  unfold tasks_issued.
  rewrite (Hquiet Create eq_refl), (Hquiet Send eq_refl). split; reflexivity.
Qed.

Lemma no_provisioning_without_link_witness :
  tasks_issued Create (snd (cleanup_server smooth_env (Some ""))) = 0
  /\ tasks_issued Send (snd (cleanup_server smooth_env (Some ""))) = 0.
Proof.
  apply (no_provisioning_without_link smooth_env (Some "")). reflexivity.
Defined.

(** ** Which resource each task is for *)

Lemma delete_target (A : Type) (N : Named A) (item : A) (item_type : string)
    (api : nat -> reply unit) :
  target (events (delete_with_retry item item_type api))
  = Some (display_name item).
Proof.
  unfold delete_with_retry, delete_with_retry_from, target, calls.
  cbn [delete_attempts]. rewrite events_bind.
  destruct (api 0) as [[]|e]; rewrite events_bind; reflexivity.
Qed.

Lemma create_target (nm : string) (batch_id : nat)
    (api : nat -> reply TextChannel) :
  target (events (create_single_channel nm batch_id api)) = Some nm.
Proof.
  rewrite create_single_channel_events. unfold target, calls.
  cbn [filter is_call create_attempts].
  destruct (api 0) as [ch|e]; rewrite events_bind; reflexivity.
Qed.

Lemma targets_of_tasks {A B} (f : nat -> A -> W B) (g : A -> string)
    (i : nat) (l : list A) :
  (forall j x, target (events (f j x)) = Some (g x)) ->
  map (fun m => target (events m)) (tasks_from f i l)
  = map (fun x => Some (g x)) l.
Proof.
  intros Hf. revert i.
  induction l as [|x l IH]; intros i; [reflexivity|].
  cbn [tasks_from map]. now rewrite Hf, IH.
Qed.

(** ** The order of the teardown *)

Lemma delete_webhooks_listed (env : Env) (hooks : list Webhook) :
  webhooks env = Returns hooks ->
  delete_webhooks env
  = (Returns tt,
     [ ListWebhooks None;
       Gather Delete
         (map events
            (tasks_from
               (fun i webhook =>
                  delete_with_retry webhook "webhook"
                    (delete_api env "webhook" i))
               0 hooks)) ]).
Proof. intros Hlist. unfold delete_webhooks. now rewrite Hlist. Qed.

(** The run of [cleanup_server] when its own remote calls succeed. *)
Lemma cleanup_server_run (env : Env) (invite_link : option string) :
  (forall text, status_send env text = Returns tt) ->
  fst (delete_webhooks env) = Returns tt ->
  cleanup_server env invite_link
  = (Returns tt,
     StatusSend CleanupInitiated None :: StatusSend DeletingWebhooks None
     :: snd (delete_webhooks env)
     ++ StatusSend DeletingEmojis None
     :: snd (delete_emojis env)
     ++ StatusSend DeletingRoles None
     :: snd (delete_roles env)
     ++ StatusSend DeletingChannels None :: PSleep (Seconds 2%Q)
     :: snd (delete_channels env)
     ++ match invite_link with
        | Some link =>
            if truthy invite_link
            then snd (create_announcement_channels env link)
            else []
        | None => []
        end
     ++ [PLog INFO CleanupCompleted]).
Proof.
  intros Hstatus Hhooks. unfold cleanup_server, status. rewrite !Hstatus.
  apply (teardown_skeleton (delete_webhooks env) (delete_emojis env)
           (delete_roles env) (delete_channels env)
           (create_announcement_channels env)
           invite_link (truthy invite_link)).
  - exact Hhooks.
  - apply delete_emojis_returns.
  - apply delete_roles_returns.
  - apply delete_channels_returns.
  - apply provisioning_returns.
Qed.

Lemma gathers_teardown (c : op_class) (t1 t2 t3 t4 t5 : list pevent)
    (d : delay) :
  gathers c
    (StatusSend CleanupInitiated None :: StatusSend DeletingWebhooks None
     :: t1 ++ StatusSend DeletingEmojis None
     :: t2 ++ StatusSend DeletingRoles None
     :: t3 ++ StatusSend DeletingChannels None :: PSleep d
     :: t4 ++ t5 ++ [PLog INFO CleanupCompleted])
  = gathers c t1 ++ gathers c t2 ++ gathers c t3 ++ gathers c t4
    ++ gathers c t5.
Proof.
  cbn [gathers]. rewrite gathers_app. cbn [gathers].
  rewrite gathers_app. cbn [gathers]. rewrite gathers_app. cbn [gathers].
  rewrite !gathers_app. cbn [gathers]. now rewrite app_nil_r.
Qed.

(** X13: When the pipeline's own remote calls succeed, the delete tasks are
    gathered in five groups, each awaited before the next: the listed
    webhooks, the emojis, the selected roles, the channels that are not
    categories, the categories; each group has one task per resource, in
    list order. *)
Theorem teardown_phase_order (env : Env) (invite_link : option string)
    (hooks : list Webhook) :
  (forall text, status_send env text = Returns tt) ->
  webhooks env = Returns hooks ->
  map (map target) (gathers Delete (snd (cleanup_server env invite_link)))
  = [ map (fun w => Some (webhook_name w)) hooks;
      map (fun e => Some (emoji_name e)) (emojis (guild env));
      map (fun r => Some (role_name r)) (roles_to_delete (guild env));
      map Some (regular_names (guild env));
      map Some (category_names (guild env)) ].
Proof.
  intros Hstatus Hlist.
  pose proof (delete_webhooks_listed env hooks Hlist) as Hhooks.
  rewrite cleanup_server_run by (assumption || now rewrite Hhooks).
  cbn [snd]. rewrite gathers_teardown, Hhooks.
  assert (Hprov : gathers Delete
                    match invite_link with
                    | Some link =>
                        if truthy invite_link
                        then snd (create_announcement_channels env link)
                        else []
                    | None => []
                    end = []).
  { destruct invite_link as [link|]; [|reflexivity].
    destruct (truthy (Some link)); [|reflexivity].
    apply quiet_create_announcement_channels. }
  rewrite Hprov. unfold delete_emojis, delete_roles, delete_channels, gather.
  cbn [pbind pret snd gathers op_class_eqb app map].
  unfold regular_names, category_names. rewrite !map_map.
  repeat (apply (f_equal2 cons);
          [apply targets_of_tasks; intros; apply delete_target|]).
  reflexivity.
Qed.

Lemma teardown_phase_order_witness :
  map (map target) (gathers Delete (snd (cleanup_server smooth_env None)))
  = [ [Some "feed"; Some "ci"]; [Some "wave"]; [Some "mods"; Some "members"];
      [Some "lobby"]; [Some "Text"] ].
Proof.
  apply (teardown_phase_order smooth_env None
           [ {| webhook_name := "feed" |}; {| webhook_name := "ci" |} ]).
  - intros text. reflexivity.
  - reflexivity.
Defined.

Lemma filter_split_perm {A} (f : A -> bool) (l : list A) :
  Permutation (filter (fun x => negb (f x)) l ++ filter f l) l.
Proof.
  induction l as [|x l IH]; [reflexivity|]. cbn [filter].
  destruct (f x); cbn [negb].
  - symmetry. apply Permutation_cons_app. now symmetry.
  - cbn [app]. now constructor.
Qed.

(** X14: [delete_channels] issues one delete task for each channel of the guild:
    first, together, the channels that are not categories, then, once those
    have all resolved, the categories. *)
Theorem channels_before_categories (env : Env) :
  map (map target) (gathers Delete (snd (delete_channels env)))
  = [ map Some (regular_names (guild env));
      map Some (category_names (guild env)) ]
  /\ Permutation
       (regular_names (guild env) ++ category_names (guild env))
       (map channel_name (channels (guild env)))
  /\ tasks_issued Delete (snd (delete_channels env))
     = List.length (channels (guild env)).
Proof.
  split; [|split].
  - unfold delete_channels, gather.
    cbn [pbind pret snd gathers op_class_eqb app map].
    unfold regular_names, category_names. rewrite !map_map.
    repeat (apply (f_equal2 cons);
            [apply targets_of_tasks; intros; apply delete_target|]).
    reflexivity.
  - unfold regular_names, category_names. rewrite <- map_app.
    apply Permutation_map, filter_split_perm.
  - unfold tasks_issued, delete_channels, gather.
    cbn [pbind pret snd gathers op_class_eqb app List.concat].
    rewrite app_nil_r, length_app, !length_map, !tasks_from_length.
    rewrite <- length_app.
    apply Permutation_length, filter_split_perm.
Qed.

(** ** The batches and the waves *)

Lemma pcount_app (p : pevent -> bool) (t t' : list pevent) :
  pcount p (t ++ t') = pcount p t + pcount p t'.
Proof. unfold pcount. now rewrite filter_app, length_app. Qed.

Lemma create_batches_gathers (env : Env) (batch_nums : list nat)
    (all_channels : list TextChannel) :
  gathers Create (snd (create_batches env batch_nums all_channels))
  = map (fun b => map events (batch_tasks env b)) batch_nums
  /\ pcount is_batch_pause (snd (create_batches env batch_nums all_channels))
     = List.length (filter (fun b => b + batch_size <? 100) batch_nums)
  /\ pcount is_wave_pause (snd (create_batches env batch_nums all_channels))
     = 0.
Proof.
  revert all_channels.
  induction batch_nums as [|b rest IH]; intros all_channels;
    [repeat split|].
  cbn [create_batches filter map]. unfold gather. cbn [pemit pbind fst snd].
  specialize (IH (all_channels ++ valid_channels
                    (map result
                       (tasks_from
                          (fun i nm =>
                             create_single_channel nm (b / batch_size + 1)
                               (create_api env (b + i)))
                          0 (firstn batch_size
                               (skipn b channels_to_create)))))).
  destruct IH as (IHg & IHb & IHw). unfold pcount in *.
  destruct (b + batch_size <? 100); cbn [pemit pret pbind];
    destruct (create_batches env rest _) as [r t];
    cbn [fst snd app gathers op_class_eqb filter is_batch_pause
         is_wave_pause List.length] in *;
    rewrite IHg; repeat split; simpl; auto; lia.
Qed.

Lemma flood_pauses (env : Env) (all_channels : list TextChannel)
    (message_content : string) (waves : list nat) :
  pcount is_wave_pause (snd (flood env all_channels message_content waves))
  = List.length (filter (fun wave => wave <? 19) waves)
  /\ pcount is_batch_pause
       (snd (flood env all_channels message_content waves)) = 0.
Proof.
  induction waves as [|wave rest (IHw & IHb)]; [split; reflexivity|].
  cbn [flood filter]. unfold gather. cbn [pemit pbind fst snd].
  unfold pcount in *.
  destruct (wave <? 19); cbn [pemit pret pbind];
    destruct (flood env all_channels message_content rest) as [r t];
    cbn [fst snd app filter is_batch_pause is_wave_pause List.length] in *;
    split; simpl; auto; lia.
Qed.

Lemma pcount_provisioning (p : pevent -> bool) (batches waves : list pevent)
    (cs : list TextChannel) (n n' n'' : nat) :
  (forall l m, p (PLog l m) = false) ->
  pcount p
    (PLog INFO TurboMode :: PLog INFO CreatingChannels
     :: batches
     ++ PLog INFO (CreatedCount n)
     :: match cs with
        | [] => [PLog ERROR NoChannelsCreated]
        | _ :: _ =>
            PLog INFO (TsunamiMode n')
            :: waves
            ++ [PLog INFO (MissionAccomplished n'');
                PLog INFO FloodingCompleted]
        end)
  = pcount p batches
    + match cs with
      | [] => 0
      | _ :: _ => pcount p waves
      end.
Proof.
  intros Hlog. unfold pcount. cbn [filter]. rewrite !Hlog, filter_app.
  cbn [filter]. rewrite Hlog, length_app. f_equal.
  destruct cs as [|ch chs]; cbn [filter]; rewrite !Hlog; [reflexivity|].
  rewrite filter_app, length_app. cbn [filter]. rewrite !Hlog. simpl. lia.
Qed.

(** X15: Whatever the remote calls answer, the creation phase issues one Create
    task for each of the 100 requested names, in the order of the list, in
    ten gathers of ten. *)
Theorem creation_in_ten_batches (env : Env) (invite_link : string) :
  let batches :=
    gathers Create (snd (create_announcement_channels env invite_link)) in
  List.concat (map (map target) batches) = map Some channels_to_create
  /\ map (@List.length trace) batches = repeat 10 10
  /\ tasks_issued Create (snd (create_announcement_channels env invite_link))
     = 100.
Proof.
  cbv zeta. unfold tasks_issued. rewrite provisioning_gathers.
  assert (Hflood :
            match created env with
            | [] => []
            | _ :: _ =>
                gathers Create
                  (snd (flood env (created env) (flood_message invite_link)
                          (seq 0 20)))
            end = []).
  { destruct (created env); [reflexivity|]. now apply quiet_flood. }
  rewrite Hflood, app_nil_r.
  destruct (create_batches_gathers env (range_step 0 10 batch_size) [])
    as (-> & _).
  assert (Htargets :
            map (map target)
              (map (fun b => map events (batch_tasks env b))
                 (range_step 0 10 batch_size))
            = map (fun b =>
                     map Some
                       (firstn batch_size (skipn b channels_to_create)))
                (range_step 0 10 batch_size)).
  { rewrite map_map. apply map_ext. intros b. unfold batch_tasks.
    rewrite map_map. apply targets_of_tasks. intros. apply create_target. }
  split; [|split].
  - rewrite Htargets. vm_compute. reflexivity.
  - rewrite map_map.
    erewrite map_ext by
      (intros b; unfold batch_tasks;
       rewrite length_map, tasks_from_length; reflexivity).
    vm_compute. reflexivity.
  - rewrite <- (length_map target), concat_map, Htargets.
    vm_compute. reflexivity.
Qed.

(** X16: The flood phase issues twenty Send tasks for each created resource and
    none otherwise: 20 times the number of creations that succeeded,
    whatever it is and whatever the sends answer. *)
Theorem sends_are_twenty_per_created (env : Env) (invite_link : string) :
  tasks_issued Send (snd (create_announcement_channels env invite_link))
  = 20 * List.length (created env).
Proof.
  unfold tasks_issued. rewrite provisioning_gathers.
  destruct (create_batches_run env (range_step 0 10 batch_size) [])
    as (_ & -> & _).
  cbn [app].
  assert (Hwaves :
            List.length
              (List.concat
                 (gathers Send
                    (snd (flood env (created env) (flood_message invite_link)
                            (seq 0 20)))))
            = 20 * List.length (created env)).
  { destruct (flood_run env (created env) (flood_message invite_link)
                (seq 0 20)) as (_ & ->).
    now rewrite waves_length, length_seq. }
  revert Hwaves.
  generalize (gathers Send
                (snd (flood env (created env) (flood_message invite_link)
                        (seq 0 20)))).
  generalize (created env). intros [|ch chs] g Hg; [reflexivity|exact Hg].
Qed.

(** X17: The creation phase pauses between two batches, nine times, and not
    after the tenth batch; the flood phase, when it runs, pauses between two
    waves, nineteen times, and not after the twentieth wave. *)
Theorem pauses_between_batches_and_waves (env : Env) (invite_link : string) :
  pcount is_batch_pause (snd (create_announcement_channels env invite_link))
  = 9
  /\ pcount is_wave_pause
       (snd (create_announcement_channels env invite_link))
     = match created env with
       | [] => 0
       | _ :: _ => 19
       end.
Proof.
  rewrite create_announcement_channels_run. cbn [snd].
  rewrite !pcount_provisioning by reflexivity.
  destruct (create_batches_gathers env (range_step 0 10 batch_size) [])
    as (_ & -> & ->).
  destruct (flood_pauses env (created env) (flood_message invite_link)
              (seq 0 20)) as (Hw & Hb).
  revert Hw Hb.
  generalize (snd (flood env (created env) (flood_message invite_link)
                     (seq 0 20))).
  generalize (created env). intros [|ch chs] waves Hw Hb.
  - split; reflexivity.
  - rewrite Hw, Hb. split; reflexivity.
Qed.

(** * Further properties of the permit pools *)

(** ** A property of every gathered task *)

Section EveryTask.
Variable Q : trace -> Prop.
Hypothesis Q_delete :
  forall (A : Type) (N : Named A) (item : A) (item_type : string)
         (api : nat -> reply unit),
    Q (events (delete_with_retry item item_type api)).
Hypothesis Q_create :
  forall (nm : string) (batch_id : nat) (api : nat -> reply TextChannel),
    Q (events (create_single_channel nm batch_id api)).
Hypothesis Q_send :
  forall (channel : TextChannel) (message_content : string)
         (msg_num wave : nat) (api : nat -> reply unit),
    Q (events (send_message_to_channel channel message_content
                 msg_num wave api)).

Let every {A} (m : P A) : Prop := Forall Q (all_tasks (snd m)).

Lemma every_leaf {A} (r : reply A) (e : pevent) :
  all_tasks [e] = [] -> every (r, [e]).
Proof. unfold every. cbn [snd]. intros ->. constructor. Qed.

Lemma every_pret {A} (a : A) : every (pret a).
Proof. constructor. Qed.

Lemma every_pbind {A B} (m : P A) (k : A -> P B) :
  every m -> (forall a, every (k a)) -> every (pbind m k).
Proof.
  unfold every, all_tasks. intros Hm Hk.
  destruct m as [[a|e] t]; [|exact Hm].
  specialize (Hk a). simpl in *. destruct (k a) as [r t']. simpl in *.
  rewrite flat_map_app. apply Forall_app. now split.
Qed.

Lemma every_try_except {A} (m : P A) (handles : exn -> bool)
    (handler : exn -> P A) :
  every m -> (forall e, every (handler e)) ->
  every (try_except m handles handler).
Proof.
  unfold every, all_tasks. intros Hm Hh.
  destruct m as [[a|e] t]; [exact Hm|]. simpl in *.
  destruct (handles e); [|exact Hm].
  specialize (Hh e). destruct (handler e) as [r t']. simpl in *.
  rewrite flat_map_app. apply Forall_app. now split.
Qed.

Lemma every_gather {A B} (c : op_class) (f : nat -> A -> W B) (l : list A) :
  (forall i x, Q (events (f i x))) -> every (gather c f l).
Proof.
  intros Hf. unfold every, gather, all_tasks. simpl.
  rewrite app_nil_r. generalize 0 as i.
  induction l as [|x l IH]; intros i; simpl; constructor; auto.
Qed.

Lemma every_status (env : Env) (text : status_text) :
  every (status env text).
Proof.
  unfold status, await. destruct (status_send env text); now apply every_leaf.
Qed.

Ltac every_step :=
  first [ apply every_pret
        | apply every_status
        | apply every_gather; intros; auto
        | now apply every_leaf
        | apply every_pbind; [|intro] ].

Lemma every_create_batches (env : Env) (batch_nums : list nat)
    (all_channels : list TextChannel) :
  every (create_batches env batch_nums all_channels).
Proof.
  revert all_channels.
  induction batch_nums as [|b rest IH]; intros all_channels;
    cbn [create_batches]; [apply every_pret|].
  do 2 (apply every_pbind; [every_step|intro]).
  apply every_pbind; [destruct (b + batch_size <? 100); every_step|intro].
  apply IH.
Qed.

Lemma every_flood (env : Env) (all_channels : list TextChannel)
    (message_content : string) (waves : list nat) :
  every (flood env all_channels message_content waves).
Proof.
  induction waves as [|wave rest IH]; cbn [flood]; [apply every_pret|].
  do 2 (apply every_pbind; [every_step|intro]).
  apply every_pbind;
    [destruct (wave <? 19); repeat every_step|intro].
  apply IH.
Qed.

Lemma every_create_announcement_channels (env : Env) (link : string) :
  every (create_announcement_channels env link).
Proof.
  unfold create_announcement_channels.
  apply every_try_except; [|intro; every_step].
  do 2 (apply every_pbind; [every_step|intro]).
  apply every_pbind; [apply every_create_batches|intros all_channels].
  apply every_pbind; [every_step|intro].
  destruct all_channels as [|ch chs]; [every_step|].
  apply every_pbind; [every_step|intro].
  apply every_pbind; [apply every_flood|intro].
  repeat every_step.
Qed.

Lemma every_cleanup_server (env : Env) (invite_link : option string) :
  Forall Q (all_tasks (snd (cleanup_server env invite_link))).
Proof.
  change (every (cleanup_server env invite_link)).
  unfold cleanup_server, delete_webhooks, delete_emojis, delete_roles,
    delete_channels.
  apply every_try_except.
  - do 2 (apply every_pbind; [every_step|intro]).
    apply every_pbind.
    { apply every_try_except; [|intro; every_step].
      apply every_pbind; [|intro; repeat every_step].
      unfold await. destruct (webhooks env); now apply every_leaf. }
    intro. do 7 (apply every_pbind; [repeat every_step|intro]).
    apply every_pbind; [|intro; every_step].
    destruct invite_link as [link|]; [|every_step].
    destruct (truthy (Some link)); [|every_step].
    apply every_create_announcement_channels.
  - intro e. apply every_pbind; [every_step|intro].
    apply every_try_except; [apply every_status|intro; every_step].
Qed.
End EveryTask.

(** ** The task coroutines are orderly *)

Lemma orderly_ext (t : trace) (h h' : sem -> bool) :
  (forall s, h s = h' s) -> orderly h t -> orderly h' t.
Proof.
  revert h h'. induction t as [|e t IH]; intros h h' Hext.
  - simpl. intros Hfree s. now rewrite <- Hext.
  - destruct e; simpl; try (apply IH; assumption).
    + intros [Hfree Hrest]. split; [intros s'; now rewrite <- Hext|].
      eapply IH; [|eassumption]. intros s'. unfold set. now rewrite Hext.
    + intros [Hheld Hrest]. split; [now rewrite <- Hext|].
      eapply IH; [|eassumption]. intros s'. unfold set. now rewrite Hext.
Qed.

Lemma orderly_ungated (body t : trace) (h : sem -> bool) :
  ungated body = true -> orderly h t -> orderly h (body ++ t).
Proof.
  induction body as [|e body IH]; intros Hbody Ht; [assumption|].
  simpl in Hbody. apply andb_true_iff in Hbody. destruct Hbody as [He Hbody].
  destruct e; simpl in *; try discriminate; now apply IH.
Qed.

Lemma set_and_reset (h : sem -> bool) (s s' : sem) :
  (forall x, h x = false) -> set (set h s true) s false s' = false.
Proof.
  intros Hfree. unfold set. destruct (sem_eqb s s'); [reflexivity|apply Hfree].
Qed.

Lemma delete_attempts_orderly (A : Type) (N : Named A) (item : A)
    (item_type : string) (api : nat -> reply unit)
    (max_retries remaining attempt : nat) (h : sem -> bool) :
  (forall s, h s = false) ->
  orderly h
    (events (delete_attempts item item_type api max_retries
               remaining attempt)).
Proof.
  revert attempt h.
  induction remaining as [|remaining IH]; intros attempt h Hfree;
    [exact Hfree|].
  assert (Hreset : forall s,
             set (set h semaphore true) semaphore false s = false)
    by (intros s; now apply set_and_reset).
  pose proof (IH (S attempt) _ Hreset) as Hnext.
  simpl.
  destruct (api attempt) as [[]|[status ra|]]; w_simpl;
    [| destruct (status =? 429)%Z;
       [|destruct (status =? 404)%Z;
         [|destruct (attempt =? max_retries - 1)]]
     | destruct (attempt =? max_retries - 1)];
    w_simpl; repeat split; auto.
Qed.

Lemma delete_with_retry_orderly (A : Type) (N : Named A) (item : A)
    (item_type : string) (api : nat -> reply unit) :
  orderly (fun _ => false) (events (delete_with_retry item item_type api)).
Proof. now apply delete_attempts_orderly. Qed.

Lemma create_single_channel_orderly (nm : string) (batch_id : nat)
    (api : nat -> reply TextChannel) :
  orderly (fun _ => false) (events (create_single_channel nm batch_id api)).
Proof.
  rewrite create_single_channel_events.
  split; [reflexivity|]. cbn [orderly].
  apply orderly_ungated; [apply create_attempts_body|].
  split; [reflexivity|]. intros s. now destruct s.
Qed.

Lemma send_message_to_channel_orderly (channel : TextChannel)
    (message_content : string) (msg_num wave : nat)
    (api : nat -> reply unit) :
  orderly (fun _ => false)
    (events (send_message_to_channel channel message_content
               msg_num wave api)).
Proof.
  rewrite send_message_events.
  split; [reflexivity|]. cbn [orderly].
  apply orderly_ungated; [apply send_attempts_body|].
  split; [reflexivity|]. intros s. now destruct s.
Qed.

(** ** The loop stays steady, and a steady loop is never stuck *)

Lemma step_steady (l l' : loop) : steady l -> step l l' -> steady l'.
Proof.
  intros [Hsum Htasks] Hstep.
  destruct Hstep as [before after tk e rest v v' h' Htodo Hperform].
  cbn [tasks value] in *.
  apply Forall_app in Htasks. destruct Htasks as [Hbefore Htk].
  inversion Htk as [|? ? Hord Hafter]; subst. rewrite Htodo in Hord.
  assert (Hgoal :
            (forall s,
                v' s + (if h' s then 1 else 0)
                = v s + (if holds tk s then 1 else 0))
            /\ orderly h' rest).
  { destruct e; simpl in Hperform, Hord;
      try (injection Hperform as <- <-; split; [reflexivity|assumption]).
    - destruct (Nat.eqb_spec (v s) 0); [discriminate|].
      injection Hperform as <- <-. destruct Hord as [Hfree Hord].
      split; [|assumption]. intros s'. unfold set.
      destruct (sem_eqb_spec s s') as [<-|]; [|reflexivity].
      rewrite Hfree. lia.
    - injection Hperform as <- <-. destruct Hord as [Hheld Hord].
      split; [|assumption]. intros s'. unfold set.
      destruct (sem_eqb_spec s s') as [<-|]; [|reflexivity].
      rewrite Hheld. lia. }
  destruct Hgoal as [Hcount Hrest]. split.
  - intros s. specialize (Hsum s). specialize (Hcount s).
    rewrite holders_split in Hsum. rewrite holders_split.
    cbn [holds value] in *. lia.
  - cbn [tasks]. apply Forall_app. split; [assumption|].
    constructor; assumption.
Qed.

Lemma start_steady (runs : list trace) :
  Forall (orderly (fun _ => false)) runs -> steady (start runs).
Proof.
  intros Hruns. split.
  - intros s. unfold holders, start. cbn [value tasks].
    replace (filter _ _) with (@nil task); [simpl; lia|].
    induction runs as [|t runs IH]; [reflexivity|].
    inversion Hruns; subst. simpl. auto.
  - unfold start. cbn [tasks]. induction Hruns; simpl; constructor; auto.
Qed.

Lemma reachable_steady (l0 l : loop) :
  steady l0 -> reachable l0 l -> steady l.
Proof.
  intros Hstart Hreach. induction Hreach as [|l l' _ IH Hstep];
    [assumption|]. eapply step_steady; eassumption.
Qed.

Lemma pipeline_steady (env : Env) (invite_link : option string) (l : loop) :
  reachable (start (all_tasks (snd (cleanup_server env invite_link)))) l ->
  steady l.
Proof.
  apply reachable_steady, start_steady, every_cleanup_server.
  - apply delete_with_retry_orderly.
  - apply create_single_channel_orderly.
  - apply send_message_to_channel_orderly.
Qed.

Lemma enabled_can_step (v : sem -> nat) (ts : list task) (tk : task) :
  In tk ts -> enabled v tk = true -> can_step {| value := v; tasks := ts |}.
Proof.
  intros Hin Hen. apply in_split in Hin. destruct Hin as (before & after & ->).
  unfold enabled in Hen. destruct (todo tk) as [|e rest] eqn:Htodo;
    [discriminate|].
  destruct (perform e v (holds tk)) as [[v' h']|] eqn:Hperform.
  - eexists. eapply step_task; eassumption.
  - destruct e; simpl in Hperform; try discriminate.
    destruct (v s =? 0); discriminate.
Qed.

Lemma holder_is_enabled (v : sem -> nat) (tk : task) (s : sem) :
  orderly (holds tk) (todo tk) -> holds tk s = true -> enabled v tk = true.
Proof.
  unfold enabled. intros Hord Hheld.
  destruct (todo tk) as [|e rest]; simpl in Hord.
  - rewrite Hord in Hheld. discriminate.
  - destruct e; try reflexivity.
    destruct Hord as [Hfree _]. rewrite Hfree in Hheld. discriminate.
Qed.

Lemma steady_progress (l : loop) : steady l -> finished l \/ can_step l.
Proof.
  destruct l as [v ts]. intros [Hsum Hord]. cbn [value tasks] in *.
  destruct (existsb (enabled v) ts) eqn:Hex.
  - right. apply existsb_exists in Hex. destruct Hex as (tk & Hin & Hen).
    eapply enabled_can_step; eassumption.
  - left. unfold finished. cbn [tasks]. apply Forall_forall. intros tk Hin.
    assert (Hnone : forall x, In x ts -> enabled v x = false).
    { intros x Hx. destruct (enabled v x) eqn:Hen; [|reflexivity].
      assert (existsb (enabled v) ts = true)
        by (apply existsb_exists; eauto).
      congruence. }
    pose proof (Hnone tk Hin) as Hblocked. unfold enabled in Hblocked.
    destruct (todo tk) as [|e rest]; [reflexivity|].
    destruct e; try discriminate.
    apply negb_false_iff, Nat.eqb_eq in Hblocked.
    specialize (Hsum s). rewrite Hblocked in Hsum. unfold holders in Hsum.
    cbn [tasks] in Hsum.
    destruct (filter (fun t => holds t s) ts) as [|holder rest'] eqn:Hfilter.
    + destruct s; discriminate.
    + assert (Hholder : In holder (filter (fun t => holds t s) ts))
        by (rewrite Hfilter; now left).
      apply filter_In in Hholder. destruct Hholder as [Hin' Hheld].
      rewrite Forall_forall in Hord.
      specialize (Hnone holder Hin').
      rewrite (holder_is_enabled v holder s (Hord holder Hin') Hheld)
        in Hnone.
      discriminate.
Qed.

(** ** The executable loop *)

Lemma fire_step (i : nat) (l l' : loop) : fire i l = Some l' -> step l l'.
Proof.
  unfold fire. destruct l as [v ts]. cbn [tasks value].
  destruct (nth_error ts i) as [tk|] eqn:Hnth; [|discriminate].
  destruct (todo tk) as [|e rest] eqn:Htodo; [discriminate|].
  destruct (perform e v (holds tk)) as [[v' h']|] eqn:Hperform;
    [|discriminate].
  intros [= <-].
  assert (Hsplit : ts = firstn i ts ++ tk :: skipn (S i) ts).
  { clear -Hnth. revert i Hnth.
    induction ts as [|x ts IH]; intros [|i] Hnth; simpl in *;
      try discriminate.
    - now injection Hnth as ->.
    - f_equal. now apply IH. }
  rewrite Hsplit at 1. eapply step_task; eassumption.
Qed.

Lemma after_reachable (schedule : list nat) (l : loop) :
  reachable l (after schedule l).
Proof.
  assert (Hgen : forall l0, reachable l0 l -> reachable l0 (after schedule l)).
  { revert l. induction schedule as [|i schedule IH]; intros l l0 Hreach;
      [exact Hreach|].
    cbn [after]. destruct (fire i l) as [l'|] eqn:Hfire; [|exact Hreach].
    apply IH. eapply reachable_step; [eassumption|].
    eapply fire_step; eassumption. }
  apply Hgen, reachable_start.
Qed.

(** ** A refused webhook listing *)




(** ** Remote calls are made under the pool of their class *)

Lemma calls_gated_create_attempts (nm : string) (batch_id : nat)
    (api : nat -> reply TextChannel) (mr remaining attempt : nat)
    (h : sem -> bool) (rest : trace) :
  h channel_semaphore = true ->
  calls_gated h rest ->
  calls_gated h
    (events (create_attempts nm batch_id api mr remaining attempt) ++ rest).
Proof.
  intros Hheld Hrest. revert attempt.
  induction remaining as [|remaining IH]; intros attempt; [exact Hrest|].
  specialize (IH (S attempt)). simpl.
  destruct (api attempt) as [ch|[status ra|]]; w_simpl;
    [| destruct (status =? 429)%Z; [|destruct (server_error status)];
       w_simpl |];
    repeat split; auto.
Qed.

Lemma calls_gated_send_attempts (channel : TextChannel) (msg_num wave : nat)
    (api : nat -> reply unit) (mr remaining attempt : nat)
    (h : sem -> bool) (rest : trace) :
  h message_semaphore = true ->
  calls_gated h rest ->
  calls_gated h
    (events (send_attempts channel msg_num wave api mr remaining attempt)
     ++ rest).
Proof.
  intros Hheld Hrest. revert attempt.
  induction remaining as [|remaining IH]; intros attempt; [exact Hrest|].
  specialize (IH (S attempt)). simpl.
  destruct (api attempt) as [[]|[status ra|]]; w_simpl;
    [| destruct (status =? 429)%Z; [|destruct (server_error status)];
       w_simpl |];
    repeat split; auto.
Qed.

Lemma calls_gated_delete_attempts (A : Type) (N : Named A) (item : A)
    (item_type : string) (api : nat -> reply unit)
    (max_retries remaining attempt : nat) (h : sem -> bool) :
  calls_gated h
    (events (delete_attempts item item_type api max_retries
               remaining attempt)).
Proof.
  revert attempt h.
  induction remaining as [|remaining IH]; intros attempt h; [exact I|].
  pose proof (IH (S attempt) (set (set h semaphore true) semaphore false))
    as Hnext.
  simpl.
  destruct (api attempt) as [[]|[status ra|]]; w_simpl;
    [| destruct (status =? 429)%Z;
       [|destruct (status =? 404)%Z;
         [|destruct (attempt =? max_retries - 1)]]
     | destruct (attempt =? max_retries - 1)];
    w_simpl; repeat split; auto.
Qed.

Lemma calls_gated_cleanup_server (env : Env) (invite_link : option string) :
  Forall (calls_gated (fun _ => false))
    (all_tasks (snd (cleanup_server env invite_link))).
Proof.
  apply every_cleanup_server.
  - intros. apply calls_gated_delete_attempts.
  - intros nm batch_id api. rewrite create_single_channel_events.
    cbn [calls_gated].
    apply calls_gated_create_attempts; [reflexivity|exact I].
  - intros channel message_content msg_num wave api.
    rewrite send_message_events. cbn [calls_gated].
    apply calls_gated_send_attempts; [reflexivity|exact I].
Qed.

Lemma step_calls_gated (l l' : loop) :
  Forall (fun tk => calls_gated (holds tk) (todo tk)) (tasks l) ->
  step l l' ->
  Forall (fun tk => calls_gated (holds tk) (todo tk)) (tasks l').
Proof.
  intros Htasks Hstep.
  destruct Hstep as [before after tk e rest v v' h' Htodo Hperform].
  cbn [tasks] in *.
  apply Forall_app in Htasks. destruct Htasks as [Hbefore Htk].
  inversion Htk as [|? ? Hthis Hafter]; subst.
  apply Forall_app. split; [assumption|]. constructor; [|assumption].
  cbn [holds todo]. rewrite Htodo in Hthis.
  destruct e; simpl in Hperform, Hthis;
    try (injection Hperform as <- <-; tauto).
  destruct (v s =? 0); [discriminate|].
  injection Hperform as <- <-. assumption.
Qed.

Lemma reachable_calls_gated (runs : list trace) (l : loop) :
  Forall (calls_gated (fun _ => false)) runs ->
  reachable (start runs) l ->
  Forall (fun tk => calls_gated (holds tk) (todo tk)) (tasks l).
Proof.
  intros Hruns Hreach. induction Hreach as [|l l' _ IH Hstep].
  - unfold start. cbn [tasks]. induction Hruns; simpl; constructor; auto.
  - eapply step_calls_gated; eassumption.
Qed.

Lemma op_class_eqb_eq (c c' : op_class) : op_class_eqb c c' = true -> c = c'.
Proof. destruct c, c'; simpl; congruence. Qed.

Lemma in_flight_holds (l : loop) (c : op_class) :
  Forall (fun tk => calls_gated (holds tk) (todo tk)) (tasks l) ->
  in_flight l c <= holders l (gate c).
Proof.
  unfold in_flight, holders. intros Htasks.
  induction Htasks as [|tk ts Htk _ IH]; [reflexivity|]. simpl.
  destruct (calling c tk) eqn:Hcall.
  - unfold calling in Hcall.
    destruct (todo tk) as [|[| | |c' nm k r| |] rest]; try discriminate.
    apply op_class_eqb_eq in Hcall. subst c'.
    destruct Htk as [-> _]. simpl. lia.
  - destruct (holds tk (gate c)); simpl; lia.
Qed.

(** C3: take all the tasks a pipeline run gathers and let the event loop
    interleave their events in any order the semaphores allow, from full
    pools.  In every state the loop can reach, at most 10 tasks hold a
    permit of the Delete pool, at most 30 one of the Create pool and at
    most 50 one of the Send pool; every remote call that a task has still
    to make, it makes while it holds a permit of the pool of the call's
    class; and so at most 10 tasks are at a Delete call, at most 30 at a
    Create call and at most 50 at a Send call. *)
Theorem permit_ceiling (env : Env) (invite_link : option string) (l : loop) :
  reachable (start (all_tasks (snd (cleanup_server env invite_link)))) l ->
  (holders l (gate Delete) <= 10
   /\ holders l (gate Create) <= 30
   /\ holders l (gate Send) <= 50)
  /\ Forall (fun tk => calls_gated (holds tk) (todo tk)) (tasks l)
  /\ (forall c, in_flight l c <= holders l (gate c))
  /\ (in_flight l Delete <= 10
      /\ in_flight l Create <= 30
      /\ in_flight l Send <= 50).
Proof.
  intros Hreach.
  assert (Hbal : balanced l).
  { eapply reachable_balanced; [|eassumption].
    apply start_balanced, scoped_cleanup_server. }
  assert (Hgated : Forall (fun tk => calls_gated (holds tk) (todo tk))
                     (tasks l)).
  { eapply reachable_calls_gated; [|eassumption].
    apply calls_gated_cleanup_server. }
  destruct Hbal as [Hsum _].
  pose proof (Hsum semaphore) as Hd.
  pose proof (Hsum channel_semaphore) as Hc.
  pose proof (Hsum message_semaphore) as Hs.
  pose proof (in_flight_holds l Delete Hgated) as Fd.
  pose proof (in_flight_holds l Create Hgated) as Fc.
  pose proof (in_flight_holds l Send Hgated) as Fs.
  cbn [gate capacity] in *.
  split; [lia|]. split; [assumption|].
  split; [intros c; now apply in_flight_holds|]. lia.
Qed.

Lemma permit_ceiling_witness :
  holders pool_exhausted (gate Delete) = 10
  /\ in_flight pool_exhausted Delete = 10
  /\ List.length (tasks pool_exhausted) = 11
  /\ fire 10 pool_exhausted = None
  /\ holders pool_exhausted (gate Delete) <= 10
  /\ in_flight pool_exhausted Delete <= 10.
Proof.
  split; [vm_compute; reflexivity|]. split; [vm_compute; reflexivity|].
  split; [vm_compute; reflexivity|]. split; [vm_compute; reflexivity|].
  destruct (permit_ceiling eleven_emojis_env None pool_exhausted)
    as ((Hd & _) & _ & _ & (Fd & _)).
  - apply after_reachable.
  - split; assumption.
Defined.

(** ** No deadlock, no leaked permit *)

(** X18: However the event loop interleaves the tasks of a run, it is never
    stuck: in every state it can reach, either every task has finished or
    some task can take its next step.  No task waits for a permit that no
    one will give back. *)
Theorem permit_pools_never_deadlock (env : Env)
    (invite_link : option string) (l : loop) :
  reachable (start (all_tasks (snd (cleanup_server env invite_link)))) l ->
  finished l \/ can_step l.
Proof. intros Hreach. eapply steady_progress, pipeline_steady, Hreach. Qed.

Lemma permit_pools_never_deadlock_witness :
  finished first_permit_taken \/ can_step first_permit_taken.
Proof.
  apply (permit_pools_never_deadlock
           (sample_env sample_guild (Returns []) deletes_ok
              (creates_first 0) sends_ok)
           None).
  change first_permit_taken with (after [0] (start sample_runs)).
  apply after_reachable.
Defined.

(** X19: Once all the tasks of a run have finished, in whatever order they ran,
    every pool is full again: no permit is leaked, whether the attempts
    succeeded or failed. *)
Theorem permits_all_returned (env : Env) (invite_link : option string)
    (l : loop) :
  reachable (start (all_tasks (snd (cleanup_server env invite_link)))) l ->
  finished l ->
  value l (gate Delete) = 10
  /\ value l (gate Create) = 30
  /\ value l (gate Send) = 50.
Proof.
  intros Hreach Hdone. apply pipeline_steady in Hreach.
  destruct Hreach as [Hsum Hord].
  assert (Hnone : forall s, holders l s = 0).
  { intros s. unfold holders, finished in *.
    rewrite Forall_forall in Hord, Hdone.
    destruct (filter (fun tk => holds tk s) (tasks l)) as [|tk rest]
      eqn:Hfilter; [reflexivity|].
    assert (Hin : In tk (filter (fun tk => holds tk s) (tasks l)))
      by (rewrite Hfilter; now left).
    apply filter_In in Hin. destruct Hin as [Hin Hheld].
    specialize (Hord tk Hin). rewrite (Hdone tk Hin) in Hord.
    simpl in Hord. rewrite Hord in Hheld. discriminate. }
  pose proof (Hsum semaphore) as Hd.
  pose proof (Hsum channel_semaphore) as Hc.
  pose proof (Hsum message_semaphore) as Hs.
  rewrite Hnone in Hd, Hc, Hs. cbn [gate capacity] in *. lia.
Qed.

Lemma permits_all_returned_witness :
  value (after [0; 0; 0; 0]
           (start (all_tasks (snd (cleanup_server one_emoji_env None)))))
    (gate Delete) = 10.
Proof.
  apply (permits_all_returned one_emoji_env None).
  - apply after_reachable.
  - repeat constructor.
Defined.

(** * Further properties of the pacing *)

Lemma nth_error_update_same {A} (l : list A) (i : nat) (a x : A) :
  nth_error l i = Some x -> nth_error (Pacing.update l i a) i = Some a.
Proof.
  revert i. induction l as [|y l IH]; intros [|i] Hnth; simpl in *;
    try discriminate; [reflexivity|now apply IH].
Qed.

Lemma nth_error_update_other {A} (l : list A) (i j : nat) (a : A) :
  i <> j -> nth_error (Pacing.update l i a) j = nth_error l j.
Proof.
  revert i j. induction l as [|y l IH]; intros [|i] [|j] Hne; simpl;
    try reflexivity; try contradiction.
  apply IH. congruence.
Qed.

Lemma min_interval_positive (operation_type : string) :
  (0 < Pacing.min_interval operation_type)%Z.
Proof.
  unfold Pacing.min_interval.
  destruct (String.eqb operation_type "channel"); reflexivity.
Qed.

(** A coroutine that dispatches at [t], at least its minimum interval
    after the timestamp, keeps the sequential regime. *)
Lemma dispatch_keeps_pace (clock last t : Z) (cs : list Pacing.coroutine)
    (i : nat) (operation_type : string) (jitter : Z) :
  sequentially_paced
    {| Pacing.clock := clock; Pacing.last_request_time := last;
       Pacing.coroutines := cs |} ->
  nth_error cs i = Some (Pacing.Pending operation_type jitter) ->
  (last + Pacing.min_interval operation_type <= t)%Z ->
  sequentially_paced
    {| Pacing.clock := t; Pacing.last_request_time := t;
       Pacing.coroutines :=
         Pacing.update cs i (Pacing.Dispatched operation_type t) |}.
Proof.
  intros (Hclock & Hstate & Hpairs) Hnth Hlate. unfold sequentially_paced.
  cbn [Pacing.clock Pacing.last_request_time Pacing.coroutines] in *.
  pose proof (min_interval_positive operation_type) as Hpos.
  split; [lia|]. split.
  - intros k c Hk. destruct (Nat.eq_dec i k) as [<-|Hne].
    + rewrite (nth_error_update_same _ _ _ _ Hnth) in Hk.
      injection Hk as <-. lia.
    + rewrite nth_error_update_other in Hk by assumption.
      specialize (Hstate k c Hk). destruct c; try assumption. lia.
  - intros k j o o' u u' Hkj Hk Hj.
    destruct (Nat.eq_dec i k) as [<-|Hik];
      destruct (Nat.eq_dec i j) as [<-|Hij]; try contradiction.
    + rewrite (nth_error_update_same _ _ _ _ Hnth) in Hk.
      rewrite nth_error_update_other in Hj by assumption.
      injection Hk as <- <-. specialize (Hstate j _ Hj). simpl in Hstate.
      left. lia.
    + rewrite (nth_error_update_same _ _ _ _ Hnth) in Hj.
      rewrite nth_error_update_other in Hk by assumption.
      injection Hj as <- <-. specialize (Hstate k _ Hk). simpl in Hstate.
      right. lia.
    + rewrite (nth_error_update_other cs i k _ Hik) in Hk.
      rewrite (nth_error_update_other cs i j _ Hij) in Hj.
      exact (Hpairs k j o o' u u' Hkj Hk Hj).
Qed.

Lemma update_update {A} (l : list A) (i : nat) (a b : A) :
  Pacing.update (Pacing.update l i a) i b = Pacing.update l i b.
Proof.
  revert i. induction l as [|y l IH]; intros [|i]; simpl;
    try reflexivity. now rewrite IH.
Qed.

Lemma wake_after_sleep (clock last d wake_at : Z)
    (cs : list Pacing.coroutine) (i : nat) (operation_type : string) :
  nth_error cs i = Some (Pacing.Sleeping operation_type wake_at) ->
  (0 <= d)%Z -> (wake_at <= clock + d)%Z ->
  Pacing.run [Pacing.Advance d; Pacing.Wake i]
    {| Pacing.clock := clock; Pacing.last_request_time := last;
       Pacing.coroutines := cs |}
  = Some {| Pacing.clock := clock + d;
            Pacing.last_request_time := clock + d;
            Pacing.coroutines :=
              Pacing.update cs i
                (Pacing.Dispatched operation_type (clock + d)) |}.
Proof.
  intros Hnth Hd Hwake. cbn [Pacing.run Pacing.step].
  destruct (Z.leb_spec 0 d); [|lia].
  cbn [Pacing.coroutines Pacing.clock Pacing.last_request_time].
  rewrite Hnth. destruct (Z.leb_spec wake_at (clock + d)); [reflexivity|lia].
Qed.

Lemma serve_keeps_pace (i : nat) (late : Z) (l l' : Pacing.loop) :
  (0 <= late)%Z ->
  sequentially_paced l -> serve i late l = Some l' -> sequentially_paced l'.
Proof.
  intros Hlate Hinv. destruct l as [clock last cs]. unfold serve.
  cbn [Pacing.step Pacing.coroutines Pacing.clock Pacing.last_request_time].
  destruct (nth_error cs i) as [[operation_type jitter| |]|] eqn:Hnth;
    try discriminate.
  pose proof Hinv as (Hclock & Hstate & _).
  cbn [Pacing.clock Pacing.last_request_time Pacing.coroutines] in *.
  pose proof (Hstate i _ Hnth) as Hfresh. simpl in Hfresh.
  unfold Pacing.smart_delay.
  destruct (Z.ltb_spec (clock - last) (Pacing.min_interval operation_type))
    as [Hsoon|Hdue];
    cbn [Pacing.coroutines Pacing.clock];
    rewrite (nth_error_update_same _ _ _ _ Hnth).
  - rewrite (wake_after_sleep clock last _ _ _ i operation_type
               (nth_error_update_same _ _ _ _ Hnth))
      by lia.
    intros [= <-]. rewrite update_update.
    eapply dispatch_keeps_pace; [exact Hinv|exact Hnth|lia].
  - intros [= <-].
    eapply dispatch_keeps_pace; [exact Hinv|exact Hnth|lia].
Qed.

Lemma idle_keeps_pace (idle : Z) (l l' : Pacing.loop) :
  sequentially_paced l ->
  Pacing.step (Pacing.Advance idle) l = Some l' -> sequentially_paced l'.
Proof.
  intros (Hclock & Hstate & Hpairs). cbn [Pacing.step].
  destruct (Z.leb_spec 0 idle); [|discriminate]. intros [= <-].
  unfold sequentially_paced.
  cbn [Pacing.clock Pacing.last_request_time Pacing.coroutines].
  split; [lia|]. split; assumption.
Qed.

Lemma serve_all_keeps_pace (plan : list (nat * Z * Z)) (l l' : Pacing.loop) :
  Forall forward plan ->
  sequentially_paced l -> serve_all plan l = Some l' -> sequentially_paced l'.
Proof.
  intros Hplan. revert l.
  induction Hplan as [|[[i idle] late] plan [Hidle Hlate] _ IH];
    intros l Hinv; cbn [serve_all].
  - now intros [= <-].
  - destruct (Pacing.step (Pacing.Advance idle) l) as [l1|] eqn:Hstep;
      [|discriminate].
    destruct (serve i late l1) as [l2|] eqn:Hserve; [|discriminate].
    apply IH. eapply serve_keeps_pace; [exact Hlate| |exact Hserve].
    eapply idle_keeps_pace; eassumption.
Qed.

Lemma start_sequentially_paced (now : Z) (cs : list Pacing.coroutine) :
  (0 <= now)%Z -> Forall fresh cs ->
  sequentially_paced (Pacing.start now cs).
Proof.
  intros Hnow Hfresh. unfold Pacing.start, sequentially_paced.
  rewrite Forall_forall in Hfresh.
  split; [exact Hnow|].
  cbn [Pacing.coroutines Pacing.last_request_time]. split.
  - intros i c Hnth. apply nth_error_In in Hnth.
    specialize (Hfresh c Hnth). destruct c; simpl in *; tauto.
  - intros i j o o' t t' _ Hi. apply nth_error_In in Hi.
    specialize (Hfresh _ Hi). contradiction.
Qed.

Lemma dispatches_In (operation_type : string) (cs : list Pacing.coroutine)
    (t : Z) :
  In t (Pacing.dispatches operation_type cs) ->
  exists i, nth_error cs i = Some (Pacing.Dispatched operation_type t).
Proof.
  induction cs as [|c cs IH]; [contradiction|]. simpl.
  destruct c as [o j|o w|o u];
    try (intros Hin; destruct (IH Hin) as [i Hi]; now exists (S i)).
  destruct (String.eqb_spec o operation_type) as [->|Hne].
  - intros [<-|Hin]; [now exists 0|].
    destruct (IH Hin) as [i Hi]. now exists (S i).
  - intros Hin. destruct (IH Hin) as [i Hi]. now exists (S i).
Qed.

Lemma spaced_of_pairs (operation_type : string)
    (cs : list Pacing.coroutine) :
  (forall i j t t',
      i <> j ->
      nth_error cs i = Some (Pacing.Dispatched operation_type t) ->
      nth_error cs j = Some (Pacing.Dispatched operation_type t') ->
      (Pacing.min_interval operation_type <= Z.abs (t - t'))%Z) ->
  Pacing.spaced (Pacing.min_interval operation_type)
    (Pacing.dispatches operation_type cs) = true.
Proof.
  induction cs as [|c cs IH]; intros Hpairs; [reflexivity|].
  assert (Htail : Pacing.spaced (Pacing.min_interval operation_type)
                    (Pacing.dispatches operation_type cs) = true).
  { apply IH. intros i j t t' Hij Hi Hj.
    apply (Hpairs (S i) (S j)); [congruence|assumption|assumption]. }
  simpl. destruct c as [o j|o w|o u]; try exact Htail.
  destruct (String.eqb_spec o operation_type) as [->|Hne]; [|exact Htail].
  cbn [Pacing.spaced]. rewrite Htail, andb_true_r.
  apply forallb_forall. intros t' Hin.
  apply dispatches_In in Hin. destruct Hin as [k Hk].
  apply Z.leb_le. apply (Hpairs 0 (S k)); [discriminate|reflexivity|exact Hk].
Qed.

(** X20: When the coroutines go through [smart_delay] one after the other, each
    dispatching before the next one enters, any two dispatches of one
    operation type are at least its minimum interval apart: whatever the
    jitters, the idle times between coroutines and the lateness of the
    wake-ups, and with both operation types mixed. *)
Theorem sequential_dispatches_are_paced (now : Z)
    (cs : list Pacing.coroutine) (plan : list (nat * Z * Z))
    (l : Pacing.loop) :
  (0 <= now)%Z ->
  Forall fresh cs ->
  Forall forward plan ->
  serve_all plan (Pacing.start now cs) = Some l ->
  Pacing.paced l = true.
Proof.
  intros Hnow Hfresh Hplan Hrun.
  assert (Hinv : sequentially_paced l).
  { eapply serve_all_keeps_pace; [exact Hplan| |exact Hrun].
    now apply start_sequentially_paced. }
  destruct Hinv as (_ & _ & Hpairs). unfold Pacing.paced.
  apply andb_true_iff. split; apply spaced_of_pairs;
    intros i j t t' Hij Hi Hj;
    destruct (Hpairs i j _ _ t t' Hij Hi Hj); assumption.
Qed.

Lemma sequential_dispatches_are_paced_witness :
  match serve_all one_by_one (Pacing.start 1000 mixed_three) with
  | Some l => Pacing.paced l = true
  | None => False
  end.
Proof.
  destruct (serve_all one_by_one (Pacing.start 1000 mixed_three))
    as [l|] eqn:Hrun; [|discriminate Hrun].
  apply (sequential_dispatches_are_paced 1000 mixed_three one_by_one l).
  - discriminate.
  - repeat constructor; discriminate.
  - repeat constructor; discriminate.
  - exact Hrun.
Defined.

(** * Further properties: sleeping under a permit, the status sink *)

Lemma delete_attempts_sleep_outside (A : Type) (N : Named A) (item : A)
    (item_type : string) (api : nat -> reply unit)
    (max_retries remaining attempt : nat) :
  sleeps_outside false
    (events (delete_attempts item item_type api max_retries
               remaining attempt)) = true.
Proof.
  revert attempt. induction remaining as [|remaining IH]; intros attempt;
    [reflexivity|].
  specialize (IH (S attempt)). simpl.
  destruct (api attempt) as [[]|[status ra|]]; w_simpl;
    [| destruct (status =? 429)%Z;
       [|destruct (status =? 404)%Z;
         [|destruct (attempt =? max_retries - 1)]]
     | destruct (attempt =? max_retries - 1)];
    w_simpl; auto.
Qed.

Lemma sleeps_under_body (body : trace) (s : sem) :
  ungated body = true ->
  sleeps_under true (body ++ [Release s]) = true.
Proof.
  induction body as [|e body IH]; intros Hbody; [reflexivity|].
  simpl in Hbody. apply andb_true_iff in Hbody. destruct Hbody as [He Hbody].
  destruct e; simpl in *; try discriminate; auto.
Qed.

(** X21: A delete never sleeps while it holds a permit: the permit goes back
    before the wait that follows a failed attempt.  A Create and a Send do
    the opposite: every one of their retry sleeps happens while the task
    holds its permit. *)
Theorem sleeping_under_a_permit :
  (forall (A : Type) (N : Named A) (item : A) (item_type : string)
          (api : nat -> reply unit) (max_retries : nat),
      sleeps_outside false
        (events (delete_with_retry_from item item_type api max_retries))
      = true)
  /\ (forall (nm : string) (batch_id : nat) (api : nat -> reply TextChannel),
         sleeps_under false (events (create_single_channel nm batch_id api))
         = true)
  /\ (forall (channel : TextChannel) (message_content : string)
             (msg_num wave : nat) (api : nat -> reply unit),
         sleeps_under false
           (events (send_message_to_channel channel message_content
                      msg_num wave api))
         = true).
Proof.
  split; [|split].
  - intros. apply delete_attempts_sleep_outside.
  - intros nm batch_id api. rewrite create_single_channel_events.
    cbn [sleeps_under]. apply sleeps_under_body, create_attempts_body.
  - intros channel message_content msg_num wave api.
    rewrite send_message_events.
    cbn [sleeps_under]. apply sleeps_under_body, send_attempts_body.
Qed.

(** ** What reaches the status sink *)

Lemma status_posts_app (t t' : list pevent) :
  status_posts (t ++ t') = status_posts t ++ status_posts t'.
Proof.
  induction t as [|e t IH]; [reflexivity|]. simpl.
  destruct e as [text [x|]| | | |]; simpl; now rewrite ?IH.
Qed.

Lemma firstn_prefix {A} (n : nat) (xs ys : list A) :
  exists k, firstn n xs = firstn k (xs ++ ys).
Proof.
  exists (Nat.min n (List.length xs)).
  rewrite firstn_app.
  replace (Nat.min n (List.length xs) - List.length xs) with 0 by lia.
  cbn [firstn]. rewrite app_nil_r.
  destruct (Nat.le_ge_cases n (List.length xs)).
  - now rewrite Nat.min_l.
  - rewrite Nat.min_r by assumption. now rewrite !firstn_all2 by lia.
Qed.

Lemma announces_pbind {A B} (xs ys : list status_text) (m : P A)
    (k : A -> P B) :
  announces xs m -> (forall a, announces ys (k a)) ->
  announces (xs ++ ys) (pbind m k).
Proof.
  unfold announces. destruct m as [[a|e] t]; cbn [fst snd pbind].
  - intros Hm Hk. specialize (Hk a). destruct (k a) as [[b|e] t'];
      cbn [fst snd] in *; rewrite status_posts_app, Hm.
    + now rewrite Hk.
    + destruct Hk as [n ->]. exists (List.length xs + n).
      now rewrite firstn_app_2.
  - intros [n ->] _. apply firstn_prefix.
Qed.

Lemma announces_silent {A B} (m : P A) (k : A -> P B) (xs : list status_text) :
  announces [] m -> (forall a, announces xs (k a)) -> announces xs (pbind m k).
Proof. apply (announces_pbind [] xs). Qed.

Lemma announces_status (env : Env) (text : status_text) :
  announces [text] (status env text).
Proof.
  unfold announces, status, await.
  destruct (status_send env text); [reflexivity|now exists 0].
Qed.

Lemma announces_try_except {A} (m : P A) (handles : exn -> bool)
    (handler : exn -> P A) :
  announces [] m -> (forall e, announces [] (handler e)) ->
  announces [] (try_except m handles handler).
Proof.
  unfold announces. destruct m as [[a|e] t]; cbn [fst snd try_except];
    [trivial|].
  intros [n Hm] Hh. rewrite firstn_nil in Hm.
  destruct (handles e); [|exists 0; exact Hm].
  specialize (Hh e). destruct (handler e) as [[b|x] t']; cbn [fst snd] in *;
    rewrite status_posts_app, Hm; [exact Hh|].
  destruct Hh as [k ->]. exists 0. now rewrite firstn_nil.
Qed.

Lemma announces_gather {A B} (c : op_class) (f : nat -> A -> W B)
    (l : list A) :
  announces [] (gather c f l).
Proof. reflexivity. Qed.

Lemma announces_log (l : level) (m : pmessage) : announces [] (pemit (PLog l m)).
Proof. reflexivity. Qed.

Lemma announces_sleep (d : delay) : announces [] (pemit (PSleep d)).
Proof. reflexivity. Qed.

Lemma announces_pret {A} (a : A) : announces [] (pret a).
Proof. reflexivity. Qed.

Ltac silent_step :=
  first [ apply announces_pret | apply announces_log | apply announces_sleep
        | apply announces_gather
        | apply announces_silent; [|intro] ].

Lemma create_batches_silent (env : Env) (batch_nums : list nat)
    (all_channels : list TextChannel) :
  announces [] (create_batches env batch_nums all_channels).
Proof.
  revert all_channels.
  induction batch_nums as [|b rest IH]; intros all_channels;
    cbn [create_batches]; [apply announces_pret|].
  do 2 (apply announces_silent; [silent_step|intro]).
  apply announces_silent;
    [destruct (b + batch_size <? 100); silent_step|intro].
  apply IH.
Qed.

Lemma flood_silent (env : Env) (all_channels : list TextChannel)
    (message_content : string) (waves : list nat) :
  announces [] (flood env all_channels message_content waves).
Proof.
  induction waves as [|wave rest IH]; cbn [flood]; [apply announces_pret|].
  do 2 (apply announces_silent; [silent_step|intro]).
  apply announces_silent;
    [destruct (wave <? 19); repeat silent_step|intro].
  apply IH.
Qed.

Lemma create_announcement_channels_silent (env : Env) (link : string) :
  announces [] (create_announcement_channels env link).
Proof.
  unfold create_announcement_channels.
  apply announces_try_except; [|intro; silent_step].
  do 2 (apply announces_silent; [silent_step|intro]).
  apply announces_silent; [apply create_batches_silent|intros all_channels].
  apply announces_silent; [silent_step|intro].
  destruct all_channels as [|ch chs]; [silent_step|].
  apply announces_silent; [silent_step|intro].
  apply announces_silent; [apply flood_silent|intro].
  repeat silent_step.
Qed.

Lemma delete_webhooks_silent (env : Env) : announces [] (delete_webhooks env).
Proof.
  unfold delete_webhooks.
  apply announces_try_except; [|intro; silent_step].
  apply announces_silent; [|intro; repeat silent_step].
  unfold announces, await.
  destruct (webhooks env); [reflexivity|now exists 0].
Qed.

(** The five announcements, around the phases. *)
Lemma teardown_announces (env : Env) (invite_link : option string)
    (final : P unit) :
  announces [] final ->
  announces announcements
    (status env CleanupInitiated ;;
     status env DeletingWebhooks ;;
     delete_webhooks env ;;
     status env DeletingEmojis ;;
     delete_emojis env ;;
     status env DeletingRoles ;;
     delete_roles env ;;
     status env DeletingChannels ;;
     pemit (PSleep (Seconds 2%Q)) ;;
     delete_channels env ;;
     match invite_link with
     | Some link =>
         if truthy invite_link
         then create_announcement_channels env link
         else pret tt
     | None => pret tt
     end ;;
     final)%P.
Proof.
  intros Hfinal. unfold delete_emojis, delete_roles, delete_channels.
  apply (announces_pbind [CleanupInitiated]); [apply announces_status|intro].
  apply (announces_pbind [DeletingWebhooks]); [apply announces_status|intro].
  apply announces_silent; [apply delete_webhooks_silent|intro].
  apply (announces_pbind [DeletingEmojis]); [apply announces_status|intro].
  apply announces_silent; [repeat silent_step|intro].
  apply (announces_pbind [DeletingRoles]); [apply announces_status|intro].
  apply announces_silent; [repeat silent_step|intro].
  apply (announces_pbind [DeletingChannels] []);
    [apply announces_status|intro].
  apply announces_silent; [silent_step|intro].
  apply announces_silent; [repeat silent_step|intro].
  apply announces_silent; [|intro; exact Hfinal].
  destruct invite_link as [link|]; [|silent_step].
  destruct (truthy (Some link)); [|silent_step].
  apply create_announcement_channels_silent.
Qed.

(** ** What a run hands back does not depend on its tasks *)

Lemma alike_refl {A} (m : P A) : alike m m.
Proof. split; reflexivity. Qed.

Lemma alike_pbind {A B} (m m' : P A) (k k' : A -> P B) :
  alike m m' -> (forall a, alike (k a) (k' a)) ->
  alike (pbind m k) (pbind m' k').
Proof.
  destruct m as [[a|e] t], m' as [[a'|e'] t']; intros [Hf Hp] Hk;
    cbn [fst snd] in Hf, Hp; try discriminate.
  - injection Hf as <-. specialize (Hk a). unfold pbind.
    destruct (k a) as [r u], (k' a) as [r' u'], Hk as [Hr Hu].
    unfold alike. cbn [fst snd] in *. split; [assumption|].
    rewrite !status_posts_app. congruence.
  - injection Hf as <-. exact (conj eq_refl Hp).
Qed.

Lemma alike_try_except {A} (m m' : P A) (handles : exn -> bool)
    (handler handler' : exn -> P A) :
  alike m m' -> (forall e, alike (handler e) (handler' e)) ->
  alike (try_except m handles handler) (try_except m' handles handler').
Proof.
  destruct m as [[a|e] t], m' as [[a'|e'] t']; intros [Hf Hp] Hh;
    cbn [fst snd] in Hf, Hp; try discriminate.
  - exact (conj Hf Hp).
  - injection Hf as <-. specialize (Hh e). unfold try_except.
    destruct (handles e); [|exact (conj eq_refl Hp)].
    destruct (handler e) as [r u], (handler' e) as [r' u'], Hh as [Hr Hu].
    unfold alike. cbn [fst snd] in *. split; [assumption|].
    rewrite !status_posts_app. congruence.
Qed.

Lemma alike_silent {A} (m m' : P A) (a : A) :
  fst m = Returns a -> fst m' = Returns a ->
  announces [] m -> announces [] m' -> alike m m'.
Proof.
  unfold announces, alike. intros Hm Hm'. rewrite Hm, Hm'.
  intros -> ->. split; reflexivity.
Qed.

Lemma alike_delete_webhooks (env env' : Env) :
  webhooks env = webhooks env' ->
  alike (delete_webhooks env) (delete_webhooks env').
Proof.
  intros Hlist. unfold delete_webhooks. rewrite Hlist.
  destruct (webhooks env') as [hooks|e];
    cbn [await gather pbind pret try_except]; [split; reflexivity|].
  destruct (is_Forbidden e); apply alike_refl.
Qed.

Lemma alike_cleanup_server (env env' : Env) (invite_link : option string) :
  webhooks env = webhooks env' ->
  (forall text, status_send env text = status_send env' text) ->
  alike (cleanup_server env invite_link) (cleanup_server env' invite_link).
Proof.
  intros Hlist Hsend.
  assert (Hstatus : forall text, status env text = status env' text)
    by (intros text; unfold status; now rewrite Hsend).
  unfold cleanup_server. apply alike_try_except.
  - rewrite !Hstatus.
    do 2 (apply alike_pbind; [apply alike_refl|intro]).
    apply alike_pbind; [now apply alike_delete_webhooks|intro].
    apply alike_pbind; [apply alike_refl|intro].
    apply alike_pbind; [split; reflexivity|intro].
    apply alike_pbind; [apply alike_refl|intro].
    apply alike_pbind; [split; reflexivity|intro].
    do 2 (apply alike_pbind; [apply alike_refl|intro]).
    apply alike_pbind; [split; reflexivity|intro].
    apply alike_pbind; [|intro; apply alike_refl].
    destruct invite_link as [link|]; [|apply alike_refl].
    destruct (truthy (Some link)); [|apply alike_refl].
    apply (alike_silent _ _ tt);
      auto using provisioning_returns, create_announcement_channels_silent.
  - intros e. apply alike_pbind; [apply alike_refl|intro].
    rewrite Hstatus. apply alike_refl.
Qed.

(** C9, as far as the code goes: a delete whose attempt [k] is classified
    [AlreadyAbsent] returns [True], makes no attempt after [k], and logs
    the outcome of the resource once.  And no count is kept: two runs
    whose webhook listing and status posts are answered alike hand back
    the same return value and the same posts to the status sink, whatever
    their guilds hold and however their delete, create and send calls are
    answered. *)
Theorem already_absent_delete_succeeds :
  (forall (A : Type) (N : Named A) (item : A) (item_type : string)
          (api : nat -> reply unit) (k : nat) (e : exn),
      classify e = AlreadyAbsent ->
      In (Call Delete (display_name item) k (Some e))
         (events (delete_with_retry item item_type api)) ->
      result (delete_with_retry item item_type api) = true
      /\ attempts (events (delete_with_retry item item_type api)) = S k
      /\ count_event is_outcome_log
           (events (delete_with_retry item item_type api)) = 1)
  /\ (forall (env env' : Env) (invite_link : option string),
         webhooks env = webhooks env' ->
         (forall text, status_send env text = status_send env' text) ->
         surfaced (cleanup_server env invite_link)
         = surfaced (cleanup_server env' invite_link)).
Proof.
  split.
  - intros A N item item_type api k e Hclass Hin.
    apply classify_already_absent in Hclass. destruct Hclass as [ra ->].
    destruct (delete_attempts_not_found item item_type api 3 3 0 k ra Hin)
      as (Hres & Hatt & Hlog).
    unfold delete_with_retry, delete_with_retry_from.
    repeat split; [assumption|lia|assumption].
  - intros env env' invite_link Hlist Hsend.
    destruct (alike_cleanup_server env env' invite_link Hlist Hsend)
      as [Hfst Hposts].
    unfold surfaced. now rewrite Hfst, Hposts.
Qed.

Lemma already_absent_delete_succeeds_witness :
  (result (delete_with_retry "wave" "emoji" limited_then_gone) = true
   /\ attempts (events (delete_with_retry "wave" "emoji" limited_then_gone))
      = 2
   /\ count_event is_outcome_log
        (events (delete_with_retry "wave" "emoji" limited_then_gone)) = 1)
  /\ surfaced (cleanup_server emoji_gone_env None)
     = surfaced (cleanup_server emoji_refused_env None).
Proof.
  destruct already_absent_delete_succeeds as (Hdelete & Hsame). split.
  - apply (Hdelete string Named_string
             "wave" "emoji" limited_then_gone 1 not_found).
    + reflexivity.
    + simpl. auto 10.
  - apply Hsame; [reflexivity|intros text; reflexivity].
Defined.

(** X22: The status sink receives the announcements of the phases in program
    order and nothing after a failure but the error text, once: what it
    receives is a prefix of the five announcements, alone or followed by
    one error text, and all five when the run meets no error. *)
Theorem status_sink_sees_a_prefix (env : Env) (invite_link : option string) :
  exists n : nat,
    status_posts (snd (cleanup_server env invite_link))
    = firstn n announcements
    \/ exists e : exn,
         status_posts (snd (cleanup_server env invite_link))
         = firstn n announcements ++ [ErrorDuringCleanup e].
Proof.
  unfold cleanup_server.
  pose proof (teardown_announces env invite_link
                (pemit (PLog INFO CleanupCompleted))
                (announces_log INFO CleanupCompleted)) as Hbody.
  unfold announces in Hbody.
  match type of Hbody with
  | match fst ?body with _ => _ end => destruct body as [[[]|e] t]
  end; cbn [fst snd try_except is_Exception] in *.
  - exists 5. left. exact Hbody.
  - destruct Hbody as [n Hposts]. exists n.
    cbn [pemit pbind]. unfold status, await.
    destruct (status_send env (ErrorDuringCleanup e)) as [[]|x];
      cbn [try_except pret snd app]; rewrite !status_posts_app, Hposts;
      cbn [status_posts].
    + right. now exists e.
    + left. now rewrite app_nil_r.
Qed.

(** X23: When the post that announces the role phase fails, the run stops
    before that phase: the tasks it has issued are the deletes of the
    listed webhooks and of the emojis, and no role, channel or category is
    touched, nor anything created or sent. *)
Theorem failed_announcement_stops_teardown (env : Env)
    (invite_link : option string) (hooks : list Webhook) (e : exn) :
  webhooks env = Returns hooks ->
  status_send env CleanupInitiated = Returns tt ->
  status_send env DeletingWebhooks = Returns tt ->
  status_send env DeletingEmojis = Returns tt ->
  status_send env DeletingRoles = Raises e ->
  map target (all_tasks (snd (cleanup_server env invite_link)))
  = map (fun w => Some (webhook_name w)) hooks
    ++ map (fun x => Some (emoji_name x)) (emojis (guild env)).
Proof.
  intros Hlist Hinit Hhooks Hemojis Hroles.
  unfold cleanup_server, status.
  rewrite Hinit, Hhooks, Hemojis, Hroles, (delete_webhooks_listed env hooks Hlist).
  unfold delete_emojis, gather.
  cbn [await pemit pret pbind try_except is_Exception fst snd app].
  destruct (status_send env (ErrorDuringCleanup e)) as [[]|x];
    cbn [await pret pbind try_except fst snd app all_tasks flat_map];
    rewrite !app_nil_r, map_app, !map_map;
    (f_equal; apply targets_of_tasks; intros; apply delete_target).
Qed.

Lemma failed_announcement_stops_teardown_witness :
  map target
    (all_tasks (snd (cleanup_server roles_post_refused_env
                       (Some "discord.gg/new"))))
  = [Some "wave"].
Proof.
  apply (failed_announcement_stops_teardown roles_post_refused_env
           (Some "discord.gg/new") [] forbidden); reflexivity.
Defined.

(** * Further properties: the Create pool *)

Lemma step_same_tasks (l l' : loop) :
  step l l' -> List.length (tasks l') = List.length (tasks l).
Proof.
  intros [before after tk e rest v v' h' _ _]. cbn [tasks].
  rewrite !length_app. reflexivity.
Qed.

Lemma reachable_same_tasks (l0 l : loop) :
  reachable l0 l -> List.length (tasks l) = List.length (tasks l0).
Proof.
  induction 1 as [|l l' _ IH Hstep]; [reflexivity|].
  rewrite <- IH. now apply step_same_tasks.
Qed.

Lemma gathers_in_all_tasks (c : op_class) (t : list pevent)
    (runs : list trace) (run : trace) :
  In runs (gathers c t) -> In run runs -> In run (all_tasks t).
Proof.
  induction t as [|e t IH]; [contradiction|].
  unfold all_tasks in *. cbn [flat_map gathers]. intros Hruns Hrun.
  destruct e as [| |c' rs| |]; try (now apply IH).
  apply in_or_app. destruct (op_class_eqb c c').
  - destruct Hruns as [<-|Hruns]; [now left|right; now apply IH].
  - right. now apply IH.
Qed.

Lemma creation_in_ten_batches_sizes (env : Env) (invite_link : string) :
  map (@List.length trace)
    (gathers Create (snd (create_announcement_channels env invite_link)))
  = repeat 10 10.
Proof.
  rewrite provisioning_gathers.
  assert (Hflood :
            match created env with
            | [] => []
            | _ :: _ =>
                gathers Create
                  (snd (flood env (created env) (flood_message invite_link)
                          (seq 0 20)))
            end = []).
  { destruct (created env); [reflexivity|]. now apply quiet_flood. }
  rewrite Hflood, app_nil_r.
  destruct (create_batches_gathers env (range_step 0 10 batch_size) [])
    as (-> & _).
  rewrite map_map.
  erewrite map_ext by
    (intros b; unfold batch_tasks;
     rewrite length_map, tasks_from_length; reflexivity).
  vm_compute. reflexivity.
Qed.

(** X24: A batch of the creation phase never waits for a permit: its ten tasks
    run against a pool of thirty, so that, however the loop interleaves
    them from a full pool, at least twenty permits of the Create pool stay
    free. *)
Theorem create_batch_never_waits (env : Env) (invite_link : string)
    (runs : list trace) (l : loop) :
  In runs (gathers Create (snd (create_announcement_channels env invite_link)))
  ->
  reachable (start runs) l ->
  20 <= value l (gate Create).
Proof.
  intros Hruns Hreach.
  assert (Hten : List.length runs = 10).
  { pose proof (creation_in_ten_batches_sizes env invite_link) as Hsizes.
    apply (in_map (@List.length trace)) in Hruns. rewrite Hsizes in Hruns.
    apply repeat_spec in Hruns. exact Hruns. }
  assert (Hbal : balanced l).
  { eapply reachable_balanced; [|exact Hreach].
    apply start_balanced. apply Forall_forall. intros run Hrun.
    pose proof (scoped_create_announcement_channels env invite_link) as Hall.
    unfold scoped_tasks in Hall. rewrite Forall_forall in Hall.
    apply Hall. eapply gathers_in_all_tasks; eassumption. }
  destruct Hbal as [Hsum _]. specialize (Hsum channel_semaphore).
  assert (Hfew : holders l channel_semaphore <= 10).
  { unfold holders.
    rewrite <- Hten, <- (length_map (fun t => {| holds := fun _ => false;
                                                 todo := t |}) runs).
    change (map _ runs) with (tasks (start runs)).
    rewrite <- (reachable_same_tasks _ _ Hreach). apply filter_length_le. }
  cbn [gate capacity] in *. lia.
Qed.

Lemma create_batch_never_waits_witness :
  20 <= value (after [0; 1; 2] (start first_batch_runs)) (gate Create).
Proof.
  apply (create_batch_never_waits smooth_env "discord.gg/new"
           first_batch_runs).
  - vm_compute. left. reflexivity.
  - apply after_reachable.
Defined.
